(** * ChronoLearn: text normalisation, event segmentation, ontology
    profiles, graph construction and Turtle export

    A shallow embedding of the deterministic core of the pipeline
    ([pipeline/text_normalizer.py], [pipeline/triple_generator.py],
    [kg/graph_builder.py], [tbox_loader.py], [pipeline/rdf_exporter.py])
    and the properties its specification states about it.

    Python [str] values are sequences of Unicode code points and are
    modelled as [list N]; dictionaries are [gmap]s; exceptions are an
    explicit [result] type; the file system and the language-model client
    are explicit parameters. *)

From Stdlib Require Import NArith ZArith String Ascii List Bool Lia.
From Stdlib Require Import DecimalString DecimalNat.
From stdpp Require Import base option list gmap fin_maps sets.

Set Warnings "-clear-no-such-hyp".

Local Open Scope N_scope.

(* ===================================================================== *)
(** * Part I: the embedding *)
(* ===================================================================== *)

(** ** Python strings *)

Module Py.

(** A Python [str]: a sequence of code points. *)
Abbreviation str := (list N).

(** String literals of this file are UTF-8 byte strings; [utf8] decodes
    them to code points ([need] continuation bytes are still expected for
    the code point accumulated in [acc]). *)
Fixpoint utf8_go (s : string) (need : nat) (acc : N) : str :=
  match s with
  | EmptyString => []
  | String a r =>
      let b := N_of_ascii a in
      match need with
      | O =>
          if b <? 0x80 then b :: utf8_go r 0 0
          else if b <? 0xE0 then utf8_go r 1 (b - 0xC0)
          else if b <? 0xF0 then utf8_go r 2 (b - 0xE0)
          else utf8_go r 3 (b - 0xF0)
      | S O => (acc * 64 + (b - 0x80)) :: utf8_go r 0 0
      | S n => utf8_go r n (acc * 64 + (b - 0x80))
      end
  end.

Definition utf8 (s : string) : str := utf8_go s 0 0.
Arguments utf8 s%_string.

(** [str.isspace] for one code point; this is also the class [\s] of the
    [re] module on [str] patterns. *)
Definition isspace (c : N) : bool :=
  ((0x09 <=? c) && (c <=? 0x0D)) || ((0x1C <=? c) && (c <=? 0x20))
  || (c =? 0x85) || (c =? 0xA0) || (c =? 0x1680)
  || ((0x2000 <=? c) && (c <=? 0x200A))
  || (c =? 0x2028) || (c =? 0x2029) || (c =? 0x202F) || (c =? 0x205F)
  || (c =? 0x3000).

Definition LF : N := 10.
Definition SP : N := 32.

Fixpoint lstrip (s : str) : str :=
  match s with
  | [] => []
  | c :: r => if isspace c then lstrip r else s
  end.

Definition rstrip (s : str) : str := rev (lstrip (rev s)).

(** [s.strip()] *)
Definition strip (s : str) : str := rstrip (lstrip s).

(** [s.split(sep)] for a one-character separator: never returns the
    empty list. *)
Fixpoint split (sep : N) (s : str) : list str :=
  match s with
  | [] => [[]]
  | c :: r =>
      if c =? sep then [] :: split sep r
      else match split sep r with
           | l :: ls => (c :: l) :: ls
           | [] => [[c]]
           end
  end.

(** [sep.join(ls)] *)
Fixpoint join (sep : str) (ls : list str) : str :=
  match ls with
  | [] => []
  | l :: ls' =>
      match ls' with
      | [] => l
      | _ :: _ => l ++ sep ++ join sep ls'
      end
  end.

Fixpoint startswith (p s : str) : bool :=
  match p, s with
  | [], _ => true
  | _ :: _, [] => false
  | a :: p', b :: s' => (a =? b) && startswith p' s'
  end.

(** [m in s] on strings: substring test. *)
Fixpoint contains (m s : str) : bool :=
  startswith m s ||
  match s with
  | [] => false
  | _ :: r => contains m r
  end.

(** [s.replace(old, new)] where [old] is a single code point. *)
Definition replace (old : N) (new : str) (s : str) : str :=
  flat_map (fun c => if c =? old then new else [c]) s.

(** [s.split()] without argument: the maximal runs of non-space
    characters. [cur] is the run being read, in reverse. *)
Fixpoint words_go (cur : str) (s : str) : list str :=
  match s with
  | [] => match cur with [] => [] | _ :: _ => [rev cur] end
  | c :: r =>
      if isspace c then
        match cur with
        | [] => words_go [] r
        | _ :: _ => rev cur :: words_go [] r
        end
      else words_go (c :: cur) r
  end.

Definition words (s : str) : list str := words_go [] s.

(** [str(n)] for a non-negative integer. *)
Definition str_of_nat (n : nat) : str :=
  utf8 (NilZero.string_of_uint (Nat.to_uint n)).

(** Truthiness of a string: [not s] holds for the empty string. *)
Definition truthy (s : str) : bool :=
  match s with [] => false | _ :: _ => true end.

End Py.
Import Py.

Notation "'u8' s" := (utf8 s%string) (at level 9, s at level 0, only parsing).

(** ** Unicode canonical composition, the part of it this program meets *)

(** [unicodedata.normalize("NFC", s)] belongs to the Python runtime, not to
    the repository. The functions of the program take it as the parameter
    [NFC]. Where a closed evaluation is needed, this module provides the
    normalisation algorithm of UAX 15 (canonical decomposition, canonical
    ordering, canonical composition) over the rows of the Unicode character
    database for Basic Latin (U+0000-U+007F) and the Arabic block
    (U+0600-U+06FF), on whose strings it is the normalisation itself, and
    the rows of U+00E9 and U+0301 as one composition of Latin script; every
    other code point is treated as a starter without decomposition. *)
Module UCD.

(** Canonical combining class. *)
Definition combining (c : N) : N :=
  if c =? 0x301 then 230
  else if (0x610 <=? c) && (c <=? 0x617) then 230
  else if (0x618 <=? c) && (c <=? 0x61A) then c - 0x618 + 30
  else if (0x64B <=? c) && (c <=? 0x652) then c - 0x64B + 27
  else if (c =? 0x653) || (c =? 0x654) then 230
  else if (c =? 0x655) || (c =? 0x656) then 220
  else if (0x657 <=? c) && (c <=? 0x65B) then 230
  else if c =? 0x65C then 220
  else if (c =? 0x65D) || (c =? 0x65E) then 230
  else if c =? 0x65F then 220
  else if c =? 0x670 then 35
  else if (0x6D6 <=? c) && (c <=? 0x6DC) then 230
  else if (0x6DF <=? c) && (c <=? 0x6E2) then 230
  else if c =? 0x6E3 then 220
  else if c =? 0x6E4 then 230
  else if (c =? 0x6E7) || (c =? 0x6E8) then 230
  else if c =? 0x6EA then 220
  else if (c =? 0x6EB) || (c =? 0x6EC) then 230
  else if c =? 0x6ED then 220
  else 0.

(** Canonical decomposition mappings. *)
Definition decomposition (c : N) : list N :=
  if c =? 0xE9 then [0x65; 0x301]
  else if c =? 0x622 then [0x627; 0x653]
  else if c =? 0x623 then [0x627; 0x654]
  else if c =? 0x624 then [0x648; 0x654]
  else if c =? 0x625 then [0x627; 0x655]
  else if c =? 0x626 then [0x64A; 0x654]
  else if c =? 0x6C0 then [0x6D5; 0x654]
  else if c =? 0x6C2 then [0x6C1; 0x654]
  else if c =? 0x6D3 then [0x6D2; 0x654]
  else [c].

(** Primary composite of a starter and a following mark. *)
Definition composite (l c : N) : option N :=
  if (l =? 0x65) && (c =? 0x301) then Some 0xE9
  else if (l =? 0x627) && (c =? 0x653) then Some 0x622
  else if (l =? 0x627) && (c =? 0x654) then Some 0x623
  else if (l =? 0x648) && (c =? 0x654) then Some 0x624
  else if (l =? 0x627) && (c =? 0x655) then Some 0x625
  else if (l =? 0x64A) && (c =? 0x654) then Some 0x626
  else if (l =? 0x6D5) && (c =? 0x654) then Some 0x6C0
  else if (l =? 0x6C1) && (c =? 0x654) then Some 0x6C2
  else if (l =? 0x6D2) && (c =? 0x654) then Some 0x6D3
  else None.

Definition decompose (s : str) : str := flat_map decomposition s.

(** Canonical ordering: a mark moves right past the marks of a strictly
    lower, non-zero class that follow it; [reorder] inserts each character
    into the already ordered rest. *)
Fixpoint insert_mark (c : N) (s : str) : str :=
  match s with
  | [] => [c]
  | d :: r =>
      if negb (combining d =? 0) && (combining d <? combining c)
      then d :: insert_mark c r
      else c :: s
  end.

Definition reorder (s : str) : str := foldr insert_mark [] s.

(** Canonical composition. [done] is the output before the last starter
    [st]; [marks] are the characters kept after it. A character is blocked
    from the starter by a kept character whose class is zero or not lower
    than its own. *)
Fixpoint compose_go (done : str) (st : option N) (marks : str) (s : str) : str :=
  match s with
  | [] => done ++ option_list st ++ marks
  | c :: r =>
      let blocked :=
        existsb (fun b => (combining b =? 0) || (combining c <=? combining b)) marks in
      match st with
      | Some l =>
          match (if blocked then None else composite l c) with
          | Some p => compose_go done (Some p) marks r
          | None =>
              if combining c =? 0
              then compose_go (done ++ l :: marks) (Some c) [] r
              else compose_go done st (marks ++ [c]) r
          end
      | None =>
          if combining c =? 0
          then compose_go (done ++ marks) (Some c) [] r
          else compose_go done None (marks ++ [c]) r
      end
  end.

Definition compose (s : str) : str := compose_go [] None [] s.

Definition nfc (s : str) : str := compose (reorder (decompose s)).

End UCD.

(** ** pipeline/text_normalizer.py *)

Section TextNormalizer.

(** [unicodedata.normalize("NFC", _)] *)
Variable NFC : str -> str.

(** The pattern [[\u0600-\u06FF]]. *)
Definition arabic_pattern (c : N) : bool := (0x600 <=? c) && (c <=? 0x6FF).

Definition TATWEEL : N := 0x640.
Definition ALEF : N := 0x627.

(** [alef_map], in the order of its items. *)
Definition alef_map : list (N * N) :=
  [(0x625, ALEF); (0x623, ALEF); (0x622, ALEF); (0x671, ALEF)].

(** The pattern [[\u0617-\u061A\u064B-\u0652\u06D6-\u06ED]]. *)
Definition diacritics (c : N) : bool :=
  ((0x617 <=? c) && (c <=? 0x61A)) || ((0x64B <=? c) && (c <=? 0x652))
  || ((0x6D6 <=? c) && (c <=? 0x6ED)).

(** The rewriting steps of [normalize_arabic] that follow the search for
    an Arabic character. *)
Definition arabic_steps (text : str) : str :=
  let text := replace TATWEEL [] text in
  let text := fold_left (fun t kv => replace (fst kv) [snd kv] t) alef_map text in
  let text := replace 0x649 [0x64A] text in
  let text := replace 0x629 [0x647] text in
  List.filter (fun c => negb (diacritics c)) text.

(** The argument is a [str], so the guard on its type falls through. *)
Definition normalize_arabic (text : str) : str :=
  let text := NFC text in
  if negb (existsb arabic_pattern text) then text
  else arabic_steps text.

(** The pattern [[\x00-\x1F\x7F]]. *)
Definition control (c : N) : bool := (c <=? 0x1F) || (c =? 0x7F).

(** [re.sub(r"\s+", " ", text)]: a space character is written as one
    blank when it ends its run and dropped otherwise. *)
Fixpoint collapse_spaces (s : str) : str :=
  match s with
  | [] => []
  | c :: r =>
      if isspace c then
        match r with
        | d :: _ => if isspace d then collapse_spaces r else SP :: collapse_spaces r
        | [] => [SP]
        end
      else c :: collapse_spaces r
  end.

(** Here too the argument is a [str]. *)
Definition normalize_english (text : str) : str :=
  let text := List.filter (fun c => negb (control c)) text in
  let text := collapse_spaces text in
  strip text.

(** The class [[.!?؟]] of the first substitution of [clean_text]. *)
Definition sentence_mark (c : N) : bool :=
  (c =? 0x2E) || (c =? 0x21) || (c =? 0x3F) || (c =? 0x61F).

(** The class [[.,!?:؟]] of the second substitution of [clean_text]. *)
Definition punctuation (c : N) : bool :=
  (c =? 0x2E) || (c =? 0x2C) || (c =? 0x21) || (c =? 0x3F) || (c =? 0x3A)
  || (c =? 0x61F).

(** [re.sub(r"([.!?؟])\1+", r"\1", text)]: of a run of one repeated mark
    only the last occurrence is kept. *)
Fixpoint squeeze_marks (s : str) : str :=
  match s with
  | [] => []
  | c :: r =>
      if sentence_mark c then
        match r with
        | d :: _ => if d =? c then squeeze_marks r else c :: squeeze_marks r
        | [] => [c]
        end
      else c :: squeeze_marks r
  end.

Definition head_is (P : N -> bool) (s : str) : bool :=
  match s with [] => false | c :: _ => P c end.

(** [re.sub(r"\s+([.,!?:؟])", r"\1", text)]: a run of space characters
    that a punctuation character follows is deleted. *)
Fixpoint tighten_punctuation (s : str) : str :=
  match s with
  | [] => []
  | c :: r =>
      let r' := tighten_punctuation r in
      if isspace c && head_is punctuation r' then r' else c :: r'
  end.

Definition clean_text (text : str) : str :=
  if negb (truthy text) then []
  else
    let text := normalize_arabic text in
    let text := normalize_english text in
    let text := squeeze_marks text in
    let text := tighten_punctuation text in
    strip text.

End TextNormalizer.

(** ** Exceptions, dictionaries, files *)

(** [ValueError] is the exception the program raises itself. The
    decoding error of a file that is not UTF-8 is kept apart from it,
    although Python makes [UnicodeDecodeError] a subclass of
    [ValueError]. *)
Inductive exn :=
  | ValueError (msg : str)
  | KeyError (key : str)
  | OSError (path : str)
  | UnicodeDecodeError (path : str).

Inductive result (A : Type) :=
  | Ok (a : A)
  | Raise (e : exn).
Arguments Ok {A} a.
Arguments Raise {A} e.

#[global] Instance result_ret : MRet result := fun A a => Ok a.
#[global] Instance result_bind : MBind result := fun A B f m =>
  match m with
  | Ok a => f a
  | Raise e => Raise e
  end.

(** [d[k]] *)
Definition getitem {V} (d : gmap str V) (k : str) : result V :=
  match d !! k with
  | Some v => Ok v
  | None => Raise (KeyError k)
  end.

(** [k in d] *)
Definition has_key {K} `{Countable K} {V} (k : K) (d : gmap K V) : bool :=
  match d !! k with
  | Some _ => true
  | None => false
  end.

(** [old.update(new)]: the entries of [new] win. *)
Definition dict_update {V} (old new : gmap str V) : gmap str V := new ∪ old.

(** A candidate triple is a dictionary with the keys [subject],
    [predicate], [object] and [span]. *)
Abbreviation triple := (gmap str str).

(** What a path names: a file that can be read as UTF-8 text, something
    that exists and cannot be opened (a directory, a file without
    permission), or a file whose bytes are not UTF-8. *)
Inductive inode :=
  | File (content : str)
  | Unopenable
  | Undecodable.

Abbreviation filesystem := (gmap str inode).

Definition head_is_slash (s : str) : bool :=
  match s with c :: _ => c =? 0x2F | [] => false end.

(** [os.path.join(a, b)] on POSIX. *)
Definition path_join (a b : str) : str :=
  if startswith [0x2F] b then b
  else if negb (truthy a) || head_is_slash (rev a) then a ++ b
  else a ++ [0x2F] ++ b.

(** ** tbox_loader.py *)

Module TBoxLoader.

Definition ONTOLOGY_DIR : str := u8 "ontology".

Definition missing_placeholder (filename : str) : str :=
  u8 "# WARNING: Missing T-Box file: " ++ filename.

Definition load_tbox_file (fs : filesystem) (filename : str) : result str :=
  let path := path_join ONTOLOGY_DIR filename in
  match fs !! path with
  | None => Ok (missing_placeholder filename)
  | Some (File content) => Ok content
  | Some Unopenable => Raise (OSError path)
  | Some Undecodable => Raise (UnicodeDecodeError path)
  end.

(** The path is missing or names a file that can be read. *)
Definition can_read (fs : filesystem) (path : str) : bool :=
  match fs !! path with
  | None | Some (File _) => true
  | Some Unopenable | Some Undecodable => false
  end.

(** [user_tbox] defaults to [None]; [not user_tbox] holds for [None] and
    for the empty string. *)
Definition supplied (user_tbox : option str) : bool :=
  match user_tbox with
  | Some c => truthy c
  | None => false
  end.

Definition load_tbox_template (fs : filesystem) (theme : str)
    (user_tbox : option str) : result (str * str) :=
  if decide (theme = u8 "event") then
    template ← load_tbox_file fs (u8 "event.tbox.ttl");
    Ok (template, u8 "dbo:Event")
  else if decide (theme = u8 "cultural") then
    template ← load_tbox_file fs (u8 "cultural.tbox.ttl");
    Ok (template, u8 "dbo:CulturalHeritageObject")
  else if decide (theme = u8 "other") then
    match user_tbox with
    | Some c =>
        if truthy c then
          template ← load_tbox_file fs (u8 "custom.tbox.ttl");
          Ok (template, c)
        else Raise (ValueError (u8 "User must provide a T-Box class when theme='other'."))
    | None => Raise (ValueError (u8 "User must provide a T-Box class when theme='other'."))
    end
  else Raise (ValueError (u8 "Unknown theme: " ++ theme)).

End TBoxLoader.

(** ** pipeline/triple_generator.py *)

Section TripleGenerator.

Variable NFC : str -> str.

(** The answer of the language model for one segment, as
    [generate_triples_for_segment] returns it after parsing (the empty list
    when the answer is not JSON): the client is outside the repository, and
    a call that fails is not modelled, nor is an answer that is JSON but
    no list of triples, on which [generate_triples] raises. The first
    argument numbers the calls of one run, so that equal arguments may be
    answered differently. *)
Variable generate_triples_for_segment :
  nat -> str -> list str -> str -> str -> list triple.

Definition EVENT_PREDICATES : gmap str str :=
  list_to_map
    [ (u8 "occurredIn", u8 "وقع في");
      (u8 "occurredOn", u8 "وقع بتاريخ");
      (u8 "hasParticipant", u8 "شارك فيه");
      (u8 "hasOutcome", u8 "نتج عنه");
      (u8 "relatedToEvent", u8 "مرتبط ب");
      (u8 "precededBy", u8 "سبق");
      (u8 "followedBy", u8 "تلاه") ].

Definition CULTURAL_PREDICATES : gmap str str :=
  list_to_map
    [ (u8 "originatedIn", u8 "نشأت في");
      (u8 "practicedBy", u8 "تمارس من قبل");
      (u8 "belongsToCulture", u8 "ينتمي إلى ثقافة");
      (u8 "relatedTradition", u8 "مرتبط بتقليد");
      (u8 "hasSymbolism", u8 "له دلالة") ].

Definition get_allowed_predicates (theme : str) : gmap str str :=
  if decide (theme = u8 "event") then EVENT_PREDICATES
  else if decide (theme = u8 "cultural") then CULTURAL_PREDICATES
  else ∅.

Definition markers : list str :=
  [ u8 "معركة"; u8 "أحداث"; u8 "حرب"; u8 "اشتباك"; u8 "صراع"; u8 "وقعت";
    u8 "اندلعت"; u8 "حدثت"; u8 "اجتياح"; u8 "عملية"; u8 "اغتيال" ].

(** [any(m in line for m in markers)] *)
Definition has_marker (line : str) : bool :=
  existsb (fun m => contains m line) markers.

Definition nonempty {A} (l : list A) : bool :=
  match l with [] => false | _ :: _ => true end.

(** One turn of the loop over the lines; the state is
    [(segments, current)]. *)
Definition segment_step (st : list str * list str) (line : str)
    : list str * list str :=
  let '(segments, current) := st in
  if has_marker line then
    ((if nonempty current then segments ++ [join [LF] current] else segments),
     [line])
  else (segments, current ++ [line]).

(** The list [segments] when the loop and the flush after it are done,
    before the final comprehension. *)
Definition raw_segments (text : str) : list str :=
  let '(segments, current) := fold_left segment_step (split LF text) ([], []) in
  if nonempty current then segments ++ [join [LF] current] else segments.

Definition segment_into_events (text : str) : list str :=
  map strip (List.filter (fun seg => truthy (strip seg)) (raw_segments text)).

(** [[t for t in all_triples if t.get("predicate") in allowed]] *)
Definition allowed_predicate (allowed : gmap str str) (t : triple) : bool :=
  match t !! u8 "predicate" with
  | Some p => has_key p allowed
  | None => false
  end.

Definition filter_allowed (allowed : gmap str str) (all_triples : list triple)
    : list triple :=
  List.filter (allowed_predicate allowed) all_triples.

Record generation := {
  gen_theme : str;
  gen_tbox : str;
  gen_segments : list str;
  gen_triples : list triple
}.

Definition generate_triples (fs : filesystem) (text : str) (topics : list str)
    (theme : str) (user_tbox : option str) : result generation :=
  let text := clean_text NFC text in
  '(tbox_template, tbox_class) ← TBoxLoader.load_tbox_template fs theme user_tbox;
  let segments := segment_into_events text in
  let all_triples :=
    concat (imap (fun i seg =>
                    generate_triples_for_segment i seg topics theme tbox_template)
                 segments) in
  let allowed := get_allowed_predicates theme in
  let clean_triples := filter_allowed allowed all_triples in
  Ok {| gen_theme := theme; gen_tbox := tbox_class;
        gen_segments := segments; gen_triples := clean_triples |}.

End TripleGenerator.

(** ** kg/graph_builder.py *)

Module GraphBuilder.

(** A [networkx.DiGraph]: the attribute dictionary of every node and of
    every edge, an edge being keyed by its ordered pair of end points. *)
Record DiGraph := {
  nodes : gmap str (gmap str str);
  edges : gmap (str * str) (gmap str str)
}.

(** [nx.DiGraph()] *)
Definition empty_graph : DiGraph := {| nodes := ∅; edges := ∅ |}.

(** [n in G] *)
Definition has_node (G : DiGraph) (n : str) : bool := has_key n (nodes G).

(** [G.has_edge(u, v)] *)
Definition has_edge (G : DiGraph) (u v : str) : bool := has_key (u, v) (edges G).

(** [G.add_node(n, **attr)]: a new node gets [attr], a present one has its
    dictionary updated. *)
Definition add_node (G : DiGraph) (n : str) (attr : gmap str str) : DiGraph :=
  {| nodes := <[n := dict_update (default ∅ (nodes G !! n)) attr]> (nodes G);
     edges := edges G |}.

(** [G.add_edge(u, v, **attr)]: end points that are not nodes yet become
    nodes without attributes; the dictionary of the edge is created or
    updated. *)
Definition add_edge (G : DiGraph) (u v : str) (attr : gmap str str) : DiGraph :=
  let G := if has_node G u then G else add_node G u ∅ in
  let G := if has_node G v then G else add_node G v ∅ in
  {| nodes := nodes G;
     edges := <[(u, v) := dict_update (default ∅ (edges G !! (u, v))) attr]> (edges G) |}.

(** [G.nodes[n].update(attr)] for a node of [G]. *)
Definition update_node (G : DiGraph) (n : str) (attr : gmap str str) : DiGraph :=
  {| nodes := alter (fun old => dict_update old attr) n (nodes G);
     edges := edges G |}.

(** [G.edges[u, v].update(attr)] for an edge of [G]. *)
Definition update_edge (G : DiGraph) (u v : str) (attr : gmap str str) : DiGraph :=
  {| nodes := nodes G;
     edges := alter (fun old => dict_update old attr) (u, v) (edges G) |}.

Definition normalize_label (label : str) : str :=
  strip (join [SP] (words label)).

Definition node_attrs (label theme tbox source_file : str) : gmap str str :=
  list_to_map
    [ (u8 "label", label); (u8 "theme", theme); (u8 "tbox", tbox);
      (u8 "source", source_file); (u8 "type", u8 "entity") ].

Definition edge_attrs (predicate theme tbox span source_file : str) : gmap str str :=
  list_to_map
    [ (u8 "label", predicate); (u8 "predicate", predicate); (u8 "theme", theme);
      (u8 "tbox", tbox); (u8 "span", span); (u8 "source", source_file) ].

Definition add_triple (G : DiGraph) (t : triple) (theme tbox source_file : str)
    : result DiGraph :=
  s ← getitem t (u8 "subject");
  let subject := normalize_label s in
  p ← getitem t (u8 "predicate");
  let predicate := normalize_label p in
  o ← getitem t (u8 "object");
  let object_ := normalize_label o in
  let span := default [] (t !! u8 "span") in
  let G :=
    if negb (has_node G subject)
    then add_node G subject (node_attrs subject theme tbox source_file)
    else G in
  let G :=
    if negb (has_node G object_)
    then add_node G object_ (node_attrs object_ theme tbox source_file)
    else G in
  Ok (add_edge G subject object_ (edge_attrs predicate theme tbox span source_file)).

Fixpoint add_triples (G : DiGraph) (triples : list triple)
    (theme tbox source_file : str) : result DiGraph :=
  match triples with
  | [] => Ok G
  | t :: rest =>
      G' ← add_triple G t theme tbox source_file;
      add_triples G' rest theme tbox source_file
  end.

Definition build_graph_from_triples (triples : list triple)
    (theme tbox source_file : str) : result DiGraph :=
  add_triples empty_graph triples theme tbox source_file.

(** The body of the loop over [g.nodes(data=True)]. *)
Definition merge_node (node : str) (attrs : gmap str str) (G : DiGraph) : DiGraph :=
  if negb (has_node G node) then add_node G node attrs
  else update_node G node attrs.

(** The body of the loop over [g.edges(data=True)]. *)
Definition merge_edge (uv : str * str) (attrs : gmap str str) (G : DiGraph) : DiGraph :=
  if negb (has_edge G uv.1 uv.2) then add_edge G uv.1 uv.2 attrs
  else update_edge G uv.1 uv.2 attrs.

(** One turn of the loop over [graphs]. Each key of a dictionary is
    visited once, so the order of the visit does not matter. *)
Definition merge_into (G g : DiGraph) : DiGraph :=
  map_fold merge_edge (map_fold merge_node G (nodes g)) (edges g).

Definition merge_graphs (graphs : list DiGraph) : DiGraph :=
  fold_left merge_into graphs empty_graph.

(** The invariant of the class: the end points of every edge are nodes. *)
Definition closed (G : DiGraph) : Prop :=
  ∀ u v, is_Some (edges G !! (u, v)) → is_Some (nodes G !! u) ∧ is_Some (nodes G !! v).

End GraphBuilder.

(** ** pipeline/rdf_exporter.py *)

Section RdfExporter.

Variable NFC : str -> str.

(** The operating system: [os.makedirs(name, exist_ok=True)], and
    [open(path, "w", encoding="utf-8")] followed by [write]. Whether they
    succeed depends on directories, permissions and the resolution of
    paths, none of which the program looks at. *)
Variable os_makedirs : filesystem -> str -> result filesystem.
Variable os_write : filesystem -> str -> str -> result filesystem.

(** The reversed path from its last slash on. *)
Fixpoint from_slash (r : str) : str :=
  match r with
  | [] => []
  | c :: r' => if c =? 0x2F then r else from_slash r'
  end.

Fixpoint drop_slashes (r : str) : str :=
  match r with
  | [] => []
  | c :: r' => if c =? 0x2F then drop_slashes r' else r
  end.

(** [os.path.dirname(p)] on POSIX: the path up to its last slash, without
    the slashes at its end unless it consists of slashes. *)
Definition dirname (p : str) : str :=
  let head := from_slash (rev p) in
  if forallb (fun c => c =? 0x2F) head then rev head
  else rev (drop_slashes head).

Definition slugify (text : str) : str :=
  let text := NFC text in
  let text := replace 0x20 [0x5F] text in
  let text := replace 0x2F [0x5F] text in
  replace 0x5C [0x5F] text.

Definition canonical_entity (entity : str) : str :=
  let entity := strip entity in
  u8 ":" ++ slugify entity.

Definition canonical_event_id (i : nat) : str := u8 ":Event_" ++ str_of_nat i.

Definition QUOTE : str := [0x22].

Definition header : str :=
  [LF] ++ u8 "@prefix : <http://example.org/resource/> ." ++ [LF]
  ++ u8 "@prefix onto: <http://example.org/ontology/> ." ++ [LF]
  ++ u8 "@prefix dbo: <http://dbpedia.org/ontology/> ." ++ [LF]
  ++ u8 "@prefix rdfs: <http://www.w3.org/2000/01/rdf-schema#> ." ++ [LF]
  ++ [LF].

(** The variables the loop of [export_turtle] changes. *)
Record turtle_state := {
  lines : list str;
  event_map : gmap str str;
  event_counter : nat
}.

Definition get_event_id (subj : str) (st : turtle_state) : str * turtle_state :=
  match event_map st !! subj with
  | Some id => (id, st)
  | None =>
      let id := canonical_event_id (event_counter st) in
      (id, {| lines := lines st;
              event_map := <[subj := id]> (event_map st);
              event_counter := S (event_counter st) |})
  end.

Definition append_lines (ls : list str) (st : turtle_state) : turtle_state :=
  {| lines := lines st ++ ls;
     event_map := event_map st;
     event_counter := event_counter st |}.

(** The body of the loop over [triples]. *)
Definition turtle_triple (tbox_class : str) (st : turtle_state) (t : triple)
    : result turtle_state :=
  subject ← getitem t (u8 "subject");
  let '(subj_id, st) := get_event_id subject st in
  object_ ← getitem t (u8 "object");
  let obj_id := canonical_entity object_ in
  predicate ← getitem t (u8 "predicate");
  let pred := slugify predicate in
  Ok (append_lines
        [ subj_id ++ u8 " a " ++ tbox_class ++ u8 " .";
          subj_id ++ u8 " rdfs:label " ++ QUOTE ++ subject ++ QUOTE ++ u8 "@ar .";
          obj_id ++ u8 " rdfs:label " ++ QUOTE ++ object_ ++ QUOTE ++ u8 "@ar .";
          subj_id ++ u8 " onto:" ++ pred ++ u8 " " ++ obj_id ++ u8 " ." ++ [LF] ]
        st).

Fixpoint turtle_triples (tbox_class : str) (st : turtle_state)
    (triples : list triple) : result turtle_state :=
  match triples with
  | [] => Ok st
  | t :: rest =>
      st' ← turtle_triple tbox_class st t;
      turtle_triples tbox_class st' rest
  end.

(** The string [output] of [export_turtle]. *)
Definition turtle_output (tbox_template tbox_class : str) (triples : list triple)
    : result str :=
  let lines0 :=
    [header] ++ [u8 "# Ontology Template Used"]
    ++ map (fun l => u8 "# " ++ l) (split LF tbox_template) ++ [[]] in
  st ← turtle_triples tbox_class
         {| lines := lines0; event_map := ∅; event_counter := 1 |} triples;
  Ok (join [LF] (lines st)).

(** Returns [save_path] and the file system after the write. *)
Definition export_turtle (fs : filesystem) (triples : list triple)
    (tbox_class theme save_path : str) : result (str * filesystem) :=
  '(tbox_template, _) ← TBoxLoader.load_tbox_template fs theme None;
  output ← turtle_output tbox_template tbox_class triples;
  fs ← os_makedirs fs (dirname save_path);
  fs ← os_write fs save_path output;
  Ok (save_path, fs).

End RdfExporter.

(** ** tbox_loader.py: the predicates of a theme *)

Module TBoxPredicates.

Definition EVENT_PREDICATES : gmap str str :=
  list_to_map
    [ (u8 "occurredIn", u8 "وقع في");
      (u8 "occurredOn", u8 "وقع بتاريخ");
      (u8 "hasParticipant", u8 "شارك فيه");
      (u8 "hasOutcome", u8 "نتج عنه");
      (u8 "relatedToEvent", u8 "مرتبط ب");
      (u8 "precededBy", u8 "سبق");
      (u8 "followedBy", u8 "تلاه") ].

Definition CULTURAL_PREDICATES : gmap str str :=
  list_to_map
    [ (u8 "originatedIn", u8 "نشأت في");
      (u8 "practicedBy", u8 "تمارس من قبل");
      (u8 "belongsToCulture", u8 "ينتمي إلى ثقافة");
      (u8 "relatedTradition", u8 "مرتبط بتقليد");
      (u8 "hasSymbolism", u8 "له دلالة") ].

Definition load_allowed_predicates (theme : str) : gmap str str :=
  if decide (theme = u8 "event") then EVENT_PREDICATES
  else if decide (theme = u8 "cultural") then CULTURAL_PREDICATES
  else ∅.

End TBoxPredicates.

(** ** pipeline/rdf_exporter.py: JSON-LD, N-Triples and [export_rdf] *)

(** The values [export_jsonld] hands to [json.dump]: strings, lists and
    dicts in the order of insertion of their keys. *)
#[local] Unset Elimination Schemes.
Inductive json :=
  | JString (s : str)
  | JArray (items : list json)
  | JObject (members : list (str * json)).
#[local] Set Elimination Schemes.

Section RdfFormats.

Variable NFC : str → str.
Variable os_makedirs : filesystem → str → result filesystem.
Variable os_write : filesystem → str → str → result filesystem.

(** The text [json.dump(value, f, indent=2, ensure_ascii=False)] writes. *)
Variable json_dump : json → str.

(** The dict of one triple in [export_jsonld]. Its third key starts with
    [http] and so differs from the three others: the dict has four
    entries. *)
Definition jsonld_node (tbox_class : str) (i : nat) (t : triple) : result json :=
  let subj := canonical_event_id i in
  object_ ← getitem t (u8 "object");
  let obj := canonical_entity NFC object_ in
  predicate ← getitem t (u8 "predicate");
  let pred := u8 "http://example.org/ontology/" ++ slugify NFC predicate in
  subject ← getitem t (u8 "subject");
  Ok (JObject
        [ (u8 "@id", JString (u8 "http://example.org/resource/" ++ drop 1 subj));
          (u8 "@type", JString tbox_class);
          (pred, JObject
                   [ (u8 "@id",
                      JString (u8 "http://example.org/resource/" ++ drop 1 obj)) ]);
          (u8 "rdfs:label", JString subject) ]).

(** The loop of [export_jsonld] from the index [i] on. *)
Fixpoint jsonld_graph (tbox_class : str) (i : nat) (graph : list json)
    (triples : list triple) : result (list json) :=
  match triples with
  | [] => Ok graph
  | t :: rest =>
      node ← jsonld_node tbox_class i t;
      jsonld_graph tbox_class (S i) (graph ++ [node]) rest
  end.

Definition jsonld_document (tbox_class : str) (triples : list triple)
    : result json :=
  graph ← jsonld_graph tbox_class 1 [] triples;
  Ok (JObject
        [ (u8 "@context",
           JObject [ (u8 "@vocab", JString (u8 "http://example.org/resource/"));
                     (u8 "rdfs",
                      JString (u8 "http://www.w3.org/2000/01/rdf-schema#")) ]);
          (u8 "@graph", JArray graph) ]).

Definition export_jsonld (fs : filesystem) (triples : list triple)
    (tbox_class theme save_path : str) : result (str * filesystem) :=
  jsonld ← jsonld_document tbox_class triples;
  fs ← os_makedirs fs (dirname save_path);
  fs ← os_write fs save_path (json_dump jsonld);
  Ok (save_path, fs).

(** The two lines of one triple in [export_ntriples]. *)
Definition ntriples_triple (tbox_class : str) (i : nat) (t : triple)
    : result (list str) :=
  let subj := u8 "<http://example.org/resource/Event_" ++ str_of_nat i ++ u8 ">" in
  object_ ← getitem t (u8 "object");
  let obj := u8 "<http://example.org/resource/" ++ slugify NFC object_ ++ u8 ">" in
  predicate ← getitem t (u8 "predicate");
  let pred := u8 "<http://example.org/ontology/" ++ slugify NFC predicate ++ u8 ">" in
  Ok [ subj ++ u8 " <http://www.w3.org/1999/02/22-rdf-syntax-ns#type> <"
         ++ tbox_class ++ u8 "> .";
       subj ++ u8 " " ++ pred ++ u8 " " ++ obj ++ u8 " ." ++ [LF] ].

(** The loop of [export_ntriples] from the index [i] on. *)
Fixpoint ntriples_lines (tbox_class : str) (i : nat) (lines : list str)
    (triples : list triple) : result (list str) :=
  match triples with
  | [] => Ok lines
  | t :: rest =>
      ls ← ntriples_triple tbox_class i t;
      ntriples_lines tbox_class (S i) (lines ++ ls) rest
  end.

(** The string [output] of [export_ntriples]. *)
Definition ntriples_output (tbox_class : str) (triples : list triple)
    : result str :=
  lines ← ntriples_lines tbox_class 1 [] triples;
  Ok (join [LF] lines).

Definition export_ntriples (fs : filesystem) (triples : list triple)
    (tbox_class save_path : str) : result (str * filesystem) :=
  output ← ntriples_output tbox_class triples;
  fs ← os_makedirs fs (dirname save_path);
  fs ← os_write fs save_path output;
  Ok (save_path, fs).

(** [export_rdf]; [formats] is [None] when the argument is left out. *)
Definition export_rdf (fs : filesystem) (triples : list triple)
    (tbox_class theme : str) (formats : option (list str)) (folder : str)
    : result (gmap str str * filesystem) :=
  let formats :=
    match formats with
    | None => [u8 "ttl"; u8 "jsonld"; u8 "nt"]
    | Some formats => formats
    end in
  fs ← os_makedirs fs folder;
  let paths : gmap str str := ∅ in
  '(paths, fs) ←
    (if bool_decide (u8 "ttl" ∈ formats) then
       '(p, fs) ← export_turtle NFC os_makedirs os_write fs triples tbox_class
                    theme (path_join folder (u8 "graph.ttl"));
       Ok (<[u8 "ttl" := p]> paths, fs)
     else Ok (paths, fs));
  '(paths, fs) ←
    (if bool_decide (u8 "jsonld" ∈ formats) then
       '(p, fs) ← export_jsonld fs triples tbox_class theme
                    (path_join folder (u8 "graph.jsonld"));
       Ok (<[u8 "jsonld" := p]> paths, fs)
     else Ok (paths, fs));
  '(paths, fs) ←
    (if bool_decide (u8 "nt" ∈ formats) then
       '(p, fs) ← export_ntriples fs triples tbox_class
                    (path_join folder (u8 "graph.nt"));
       Ok (<[u8 "nt" := p]> paths, fs)
     else Ok (paths, fs));
  Ok (paths, fs).

End RdfFormats.

(** ** pipeline/text_normalizer.py: sentences and chunks *)

Section Sentences.

Variable NFC : str → str.

(** [re.sub(r"\n+", " ", text)]: a line feed is written as one blank when
    it ends its run and dropped otherwise. *)
Fixpoint newlines_to_blank (s : str) : str :=
  match s with
  | [] => []
  | c :: r =>
      if c =? LF then
        match r with
        | d :: _ => if d =? LF then newlines_to_blank r else SP :: newlines_to_blank r
        | [] => [SP]
        end
      else c :: newlines_to_blank r
  end.

(** [re.split(r"(?<=[.!?؟])\s+", text)]: the text is cut at every run of
    space characters that follows a sentence mark, and the run is dropped.
    [cur] is the piece being read, in reverse; [skipping] holds inside a
    run that is being dropped. *)
Fixpoint sentence_split (skipping : bool) (cur : str) (s : str) : list str :=
  match s with
  | [] => [rev cur]
  | c :: r =>
      if skipping && isspace c then sentence_split true cur r
      else if isspace c && head_is sentence_mark cur
           then rev cur :: sentence_split true [] r
           else sentence_split false (c :: cur) r
  end.

Definition split_sentences (text : str) : list str :=
  if negb (truthy text) then []
  else
    let text := newlines_to_blank text in
    let sentences := sentence_split false [] text in
    map (clean_text NFC) (List.filter (λ s, truthy (strip s)) sentences).

(** The body of the loop of [chunk_text] on the pair of [chunks] and
    [current]. *)
Definition chunk_step (max_length : Z) (st : list str * str) (sentence : str)
    : list str * str :=
  let '(chunks, current) := st in
  let '(chunks, current) :=
    if (Z.of_nat (length current) + Z.of_nat (length sentence) + 1 >? max_length)%Z
    then if truthy current then (chunks ++ [strip current], [])
         else (chunks, current)
    else (chunks, current) in
  (chunks, current ++ sentence ++ [SP]).

Definition chunk_text (text : str) (max_length : Z) : list str :=
  let sentences := split_sentences text in
  let '(chunks, current) := fold_left (chunk_step max_length) sentences ([], []) in
  if truthy (strip current) then chunks ++ [strip current] else chunks.

(** Whether the pattern [http[s]?://\S+] matches at the start of [s]. *)
Definition url_starts (s : str) : bool :=
  (startswith (u8 "http://") s && head_is (λ c, negb (isspace c)) (drop 7 s))
  || (startswith (u8 "https://") s && head_is (λ c, negb (isspace c)) (drop 8 s)).

(** The substitution that deletes the matches of [http[s]?://\S+]: where
    the pattern matches, the text is dropped up to the next space
    character. [dropping] holds inside a match. *)
Fixpoint remove_urls (dropping : bool) (s : str) : str :=
  match s with
  | [] => []
  | c :: r =>
      if dropping then
        if isspace c then c :: remove_urls false r else remove_urls true r
      else if url_starts s then remove_urls true r
      else c :: remove_urls false r
  end.

(** Whether the pattern [\S+@\S+] matches in a run of characters that
    are no space: the run has an [@] that is neither its first nor its
    last character; the match is then the whole run. *)
Definition email (run : str) : bool :=
  existsb (λ c, c =? 0x40) (removelast (tl run)).

Definition keep_run (run : str) : str := if email run then [] else run.

(** The substitution that deletes the matches of [\S+@\S+]; [cur] is the
    run being read, in reverse. *)
Fixpoint remove_emails (cur : str) (s : str) : str :=
  match s with
  | [] => keep_run (rev cur)
  | c :: r =>
      if isspace c then keep_run (rev cur) ++ c :: remove_emails [] r
      else remove_emails (c :: cur) r
  end.

Definition prepare_for_topic_detection (text : str) : str :=
  let text := clean_text NFC text in
  let text := remove_urls false text in
  let text := remove_emails [] text in
  strip text.

End Sentences.

(** ** pipeline/pdf_reader.py *)

(** [clean_text_block]: tabs become blanks, runs of white space one blank,
    and the ends are stripped. *)
Definition clean_text_block (text : str) : str :=
  if negb (truthy text) then []
  else
    let text := replace 0x09 [SP] text in
    let text := collapse_spaces text in
    strip text.

(** ** Notions used in the statements *)

(** A text that neither starts nor ends with a space character. *)
Definition tidy (s : str) : Prop :=
  head_is isspace s = false ∧ head_is isspace (rev s) = false.

(** The code points outside the Arabic block, in order. *)
Definition non_arabic (s : str) : str :=
  List.filter (λ c, negb (arabic_pattern c)) s.

(** A code point that is neither in the Arabic block nor white space. *)
Definition solid (c : N) : bool := negb (arabic_pattern c) && negb (isspace c).

(** A code point that is neither in the Arabic block, nor white space,
    nor a control character, nor a sentence mark. *)
Definition plain (c : N) : bool :=
  negb (arabic_pattern c) && negb (isspace c) && negb (control c)
  && negb (sentence_mark c).

(** A code point that the rewriting steps of [normalize_arabic] leave as
    it is. *)
Definition folded (c : N) : bool :=
  negb ((c =? TATWEEL) || existsb (λ kv, c =? fst kv) alef_map
        || (c =? 0x649) || (c =? 0x629) || diacritics c).

(** A condition on every character and the text that follows it. *)
Fixpoint adjacent (R : N → str → bool) (s : str) : bool :=
  match s with
  | [] => true
  | c :: r => R c r && adjacent R r
  end.

(** Every space character is a blank that no space character follows. *)
Definition single_blank (c : N) (r : str) : bool :=
  if isspace c then (c =? SP) && negb (head_is isspace r) else true.

(** No space character stands before a punctuation character. *)
Definition no_gap (c : N) (r : str) : bool :=
  negb (isspace c && head_is punctuation r).

(** The passes of [clean_text] that follow [normalize_arabic]. *)
Definition polish (a : str) : str :=
  strip (tighten_punctuation (squeeze_marks (normalize_english a))).

(** How the dictionaries of two graphs combine: the entries of the graph
    merged in win, attribute by attribute. *)
Definition last_wins {K} `{Countable K} (new old : gmap K (gmap str str))
    : gmap K (gmap str str) :=
  union_with (λ x y, Some (dict_update y x)) new old.

(** The end points of a set of edges. *)
Definition endpoints (E : gmap (str * str) (gmap str str)) : gset str :=
  set_map fst (dom E) ∪ set_map snd (dom E).

(** Nodes without attributes for the end points that are not nodes yet. *)
Definition with_endpoints (N : gmap str (gmap str str)) (X : gset str)
    : gmap str (gmap str str) :=
  N ∪ gset_to_gmap ∅ X.

(** The node ids and the edge keys a graph contributes to a merge. *)
Definition node_ids (g : GraphBuilder.DiGraph) : gset str :=
  dom (GraphBuilder.nodes g) ∪ endpoints (GraphBuilder.edges g).
Definition edge_keys (g : GraphBuilder.DiGraph) : gset (str * str) :=
  dom (GraphBuilder.edges g).

(** The triple of the climate conference and the lines [export_turtle]
    writes for it. *)
Definition climate_triple : triple :=
  list_to_map
    [ (u8 "subject", u8 "مؤتمر المناخ"); (u8 "predicate", u8 "occurredIn");
      (u8 "object", u8 "باريس"); (u8 "span", u8 "...") ].

Definition climate_lines : list str :=
  [ u8 ":Event_1 a dbo:Event .";
    u8 ":Event_1 rdfs:label " ++ QUOTE ++ u8 "مؤتمر المناخ" ++ QUOTE ++ u8 "@ar .";
    u8 ":باريس rdfs:label " ++ QUOTE ++ u8 "باريس" ++ QUOTE ++ u8 "@ar .";
    u8 ":Event_1 onto:occurredIn :باريس ." ++ [LF] ].

(** Case analysis on the comparisons of a code point with constants. *)
Ltac char_cases :=
  repeat match goal with
         | |- context [?a =? ?b] => destruct (N.eqb_spec a b); try subst; try lia
         | |- context [?a <=? ?b] => destruct (N.leb_spec a b); try lia
         | |- context [?a <? ?b] => destruct (N.ltb_spec a b); try lia
         end.

(** A word: non-empty and without space characters. *)
Definition wordlike (w : str) : Prop :=
  w ≠ [] ∧ Forall (λ c, isspace c = false) w.

(** A triple that has the three keys [add_triple] reads. *)
Definition complete (t : triple) : Prop :=
  is_Some (t !! u8 "subject") ∧ is_Some (t !! u8 "predicate")
  ∧ is_Some (t !! u8 "object").

(** The key of the edge that [add_triple] writes for a triple. *)
Definition edge_key (t : triple) : option (str * str) :=
  match t !! u8 "subject", t !! u8 "object" with
  | Some s, Some o =>
      Some (GraphBuilder.normalize_label s, GraphBuilder.normalize_label o)
  | _, _ => None
  end.

(** The attributes [add_triple] gives to the edge of a triple. *)
Definition triple_edge_attrs (t : triple) (theme tbox source_file : str)
    : gmap str str :=
  GraphBuilder.edge_attrs
    (GraphBuilder.normalize_label (default [] (t !! u8 "predicate")))
    theme tbox (default [] (t !! u8 "span")) source_file.

(** What [build_graph_from_triples] has established when it has added the
    triples [seen]. *)
Definition built (theme tbox source_file : str) (seen : list triple)
    (G : GraphBuilder.DiGraph) : Prop :=
  GraphBuilder.closed G
  ∧ (∀ n, is_Some (GraphBuilder.nodes G !! n) ↔
       ∃ t x, t ∈ seen ∧ (t !! u8 "subject" = Some x ∨ t !! u8 "object" = Some x)
              ∧ n = GraphBuilder.normalize_label x)
  ∧ (∀ n a, GraphBuilder.nodes G !! n = Some a → a = GraphBuilder.node_attrs n theme tbox source_file)
  ∧ (∀ e a, GraphBuilder.edges G !! e = Some a →
       ∃ t, t ∈ seen ∧ edge_key t = Some e
            ∧ a = triple_edge_attrs t theme tbox source_file)
  ∧ (∀ t, t ∈ seen → ∃ e, edge_key t = Some e ∧ is_Some (GraphBuilder.edges G !! e)).

(** The subjects of a list of triples, in order. *)
Definition subjects (triples : list triple) : list str :=
  omap (λ t : triple, t !! u8 "subject") triples.

(** The distinct elements of a list in the order of their first
    occurrence. *)
Definition note (seen : list str) (x : str) : list str :=
  if bool_decide (x ∈ seen) then seen else seen ++ [x].

Definition first_seen (l : list str) : list str := fold_left note l [].

(** The type statement that [export_turtle] writes for an event id. *)
Definition type_statement (subj_id tbox_class : str) : str :=
  subj_id ++ u8 " a " ++ tbox_class ++ u8 " .".

Fixpoint ascii_only (x : string) : Prop :=
  match x with
  | EmptyString => True
  | String a r => N_of_ascii a < 0x80 ∧ ascii_only r
  end.

(** The event id that a table of ids gives to the subject of a triple. *)
Definition event_of (ids : gmap str str) (t : triple) : str :=
  match t !! u8 "subject" with
  | Some s => default [] (ids !! s)
  | None => []
  end.

(** The four statements that [export_turtle] writes for a triple whose
    subject has the id [subj_id]. *)
Definition turtle_statements (NFC : str → str) (tbox_class subj_id : str)
    (t : triple) : list str :=
  let subject := default [] (t !! u8 "subject") in
  let object_ := default [] (t !! u8 "object") in
  let obj_id := canonical_entity NFC object_ in
  let pred := slugify NFC (default [] (t !! u8 "predicate")) in
  [ type_statement subj_id tbox_class;
    subj_id ++ u8 " rdfs:label " ++ QUOTE ++ subject ++ QUOTE ++ u8 "@ar .";
    obj_id ++ u8 " rdfs:label " ++ QUOTE ++ object_ ++ QUOTE ++ u8 "@ar .";
    subj_id ++ u8 " onto:" ++ pred ++ u8 " " ++ obj_id ++ u8 " ." ++ [LF] ].

(** The table of event ids agrees with a list of distinct subjects: the
    subject at position [k] has the id [:Event_(k+1)], and the counter is
    the next free number. *)
Definition numbered (st : turtle_state) (D : list str) : Prop :=
  NoDup D
  ∧ event_counter st = S (length D)
  ∧ ∀ s id, event_map st !! s = Some id
            ↔ ∃ k, D !! k = Some s ∧ id = canonical_event_id (S k).

(** The first of the keys [keys] that a triple lacks. *)
Definition first_missing (keys : list str) (t : triple) : option str :=
  List.find (λ k, negb (has_key k t)) keys.

(** A triple that has the two keys [export_ntriples] reads. *)
Definition has_statement (t : triple) : Prop :=
  is_Some (t !! u8 "object") ∧ is_Some (t !! u8 "predicate").

(** The code points [slugify] replaces, and the underscore it puts in
    their place. *)
Definition separator (c : N) : bool :=
  (c =? 0x20) || (c =? 0x2F) || (c =? 0x5C).

Definition slug_point (c : N) : N := if separator c then 0x5F else c.

(** No sentence mark stands before a space character. *)
Definition no_break (c : N) (r : str) : bool :=
  negb (sentence_mark c && head_is isspace r).

(** A word up to the first place where a URL starts in it. *)
Fixpoint cut_url (w : str) : str :=
  match w with
  | [] => []
  | c :: r => if url_starts w then [] else c :: cut_url r
  end.

(** The characters of a text before its first space character, and the
    text from that character on. *)
Fixpoint first_word (s : str) : str :=
  match s with
  | [] => []
  | c :: r => if isspace c then [] else c :: first_word r
  end.

Fixpoint after_word (s : str) : str :=
  match s with
  | [] => []
  | c :: r => if isspace c then s else after_word r
  end.

(** The words a text contributes once its URLs are cut off. *)
Definition kept_words (s : str) : list str :=
  List.filter truthy (map cut_url (words s)).

(** The list of a word, empty for the empty word. *)
Definition emit (w : str) : list str := if truthy w then [w] else [].

(** The value of an attribute of a node or of an edge of a graph. *)
Definition node_attr (G : GraphBuilder.DiGraph) (n k : str) : option str :=
  a ← GraphBuilder.nodes G !! n; a !! k.

Definition edge_attr (G : GraphBuilder.DiGraph) (e : str * str) (k : str)
    : option str :=
  a ← GraphBuilder.edges G !! e; a !! k.

(** The value that the last graph of a list with a value gives. *)
Definition last_value {A} (f : GraphBuilder.DiGraph → option A)
    (gs : list GraphBuilder.DiGraph) : option A :=
  fold_left (λ acc g, match f g with Some v => Some v | None => acc end) gs None.

(* ===================================================================== *)
(** * Part II: properties *)
(* ===================================================================== *)

(** ** Ontology profiles *)

Section OntologyRegistry.

Import TBoxLoader.

Implicit Types (fs : filesystem) (theme filename : str) (user_tbox : option str).

Lemma load_tbox_file_missing fs filename :
  fs !! path_join ONTOLOGY_DIR filename = None →
  load_tbox_file fs filename = Ok (missing_placeholder filename).
Proof. unfold load_tbox_file. by intros ->. Qed.

Lemma load_tbox_file_no_ValueError fs filename msg :
  load_tbox_file fs filename ≠ Raise (ValueError msg).
Proof.
  unfold load_tbox_file.
  destruct (fs !! _) as [[]|]; discriminate.
Qed.

Lemma bind_no_ValueError {A B} (m : result A) (f : A → result B) msg :
  (∀ msg', m ≠ Raise (ValueError msg')) →
  (∀ a, f a ≠ Raise (ValueError msg)) →
  m ≫= f ≠ Raise (ValueError msg).
Proof.
  intros Hm Hf. destruct m as [a|e]; simpl; [apply Hf|].
  intros [= ->]. by eapply Hm.
Qed.

(** C5. [load_tbox_template] raises the configuration error [ValueError]
    exactly when the theme is none of "event", "cultural", "other", or the
    theme is "other" and no user class is supplied ([None] or the empty
    string, the values for which [not user_tbox] holds). A template file
    that is missing never raises: [load_tbox_file], and with it
    [load_tbox_template] for each of the three themes, returns the
    placeholder warning string in place of the contents. *)
Theorem load_tbox_template_configuration_error fs theme user_tbox :
  ((∃ msg, load_tbox_template fs theme user_tbox = Raise (ValueError msg)) ↔
     (theme ≠ u8 "event" ∧ theme ≠ u8 "cultural" ∧ theme ≠ u8 "other")
     ∨ (theme = u8 "other" ∧ supplied user_tbox = false))
  ∧ (∀ filename,
       fs !! path_join ONTOLOGY_DIR filename = None →
       load_tbox_file fs filename = Ok (missing_placeholder filename))
  ∧ (fs !! path_join ONTOLOGY_DIR (u8 "event.tbox.ttl") = None →
       load_tbox_template fs (u8 "event") user_tbox
       = Ok (u8 "# WARNING: Missing T-Box file: event.tbox.ttl", u8 "dbo:Event"))
  ∧ (fs !! path_join ONTOLOGY_DIR (u8 "cultural.tbox.ttl") = None →
       load_tbox_template fs (u8 "cultural") user_tbox
       = Ok (u8 "# WARNING: Missing T-Box file: cultural.tbox.ttl",
             u8 "dbo:CulturalHeritageObject"))
  ∧ (∀ c, fs !! path_join ONTOLOGY_DIR (u8 "custom.tbox.ttl") = None →
       truthy c = true →
       load_tbox_template fs (u8 "other") (Some c)
       = Ok (u8 "# WARNING: Missing T-Box file: custom.tbox.ttl", c)).
Proof.
  split; [|split; [|split; [|split]]].
  - unfold load_tbox_template. split.
    + intros [msg Hr].
      destruct (decide (theme = u8 "event")) as [->|Hev].
      { exfalso. revert Hr. apply bind_no_ValueError; [|discriminate].
        intros msg'. apply load_tbox_file_no_ValueError. }
      destruct (decide (theme = u8 "cultural")) as [->|Hcu].
      { exfalso. revert Hr. apply bind_no_ValueError; [|discriminate].
        intros msg'. apply load_tbox_file_no_ValueError. }
      destruct (decide (theme = u8 "other")) as [->|Hot]; [|by left].
      right. split; [done|].
      destruct user_tbox as [c|]; [|done]. simpl.
      destruct (truthy c) eqn:Hc; [|done].
      exfalso. revert Hr. apply bind_no_ValueError; [|discriminate].
      intros msg'. apply load_tbox_file_no_ValueError.
    + intros [(Hev & Hcu & Hot)|[-> Hsup]].
      * rewrite !decide_False by done. eauto.
      * rewrite decide_False by done. rewrite decide_False by done.
        rewrite decide_True by done.
        destruct user_tbox as [c|]; simpl in Hsup; [rewrite Hsup|]; eauto.
  - apply load_tbox_file_missing.
  - intros Hmiss. unfold load_tbox_template. rewrite decide_True by done.
    by rewrite (load_tbox_file_missing _ _ Hmiss).
  - intros Hmiss. unfold load_tbox_template.
    rewrite decide_False by done. rewrite decide_True by done.
    by rewrite (load_tbox_file_missing _ _ Hmiss).
  - intros c Hmiss Hc. unfold load_tbox_template.
    rewrite decide_False by done. rewrite decide_False by done.
    rewrite decide_True by done. rewrite Hc.
    by rewrite (load_tbox_file_missing _ _ Hmiss).
Qed.

End OntologyRegistry.

Lemma load_tbox_template_configuration_error_witness :
  TBoxLoader.load_tbox_template ∅ (u8 "event") None
  = Ok (u8 "# WARNING: Missing T-Box file: event.tbox.ttl", u8 "dbo:Event").
Proof.
  destruct (load_tbox_template_configuration_error ∅ (u8 "event") None)
    as (_ & _ & Hevent & _).
  apply Hevent. reflexivity.
Defined.

(** ** The predicate filter *)

Section TripleFilter.

Implicit Types (allowed : gmap str str) (t : triple) (T : list triple).

Lemma has_key_dom {V} (k : str) (d : gmap str V) :
  has_key k d = true ↔ k ∈ dom d.
Proof.
  unfold has_key. rewrite elem_of_dom.
  destruct (d !! k); split; intros H; try done; by destruct H.
Qed.

Lemma allowed_predicate_spec allowed t :
  allowed_predicate allowed t = true ↔
  ∃ p, t !! u8 "predicate" = Some p ∧ p ∈ dom allowed.
Proof.
  unfold allowed_predicate. destruct (t !! _) as [p|].
  - rewrite has_key_dom. split.
    + intros Hp. by exists p.
    + by intros (p' & [= <-] & Hp).
  - split; [discriminate|]. by intros (p' & [=] & _).
Qed.

Lemma filter_sublist {A} (f : A → bool) (l : list A) :
  List.filter f l `sublist_of` l.
Proof.
  induction l as [|x l IH]; simpl; [constructor|].
  destruct (f x); by constructor.
Qed.

(** C7. The filtering step of [generate_triples] returns a subsequence of
    the candidate list (the elements it keeps are the candidates
    themselves, in their order), and every triple it keeps has a predicate
    that is a key of the allowed-predicate map. *)
Theorem filter_allowed_subsequence allowed T :
  filter_allowed allowed T `sublist_of` T
  ∧ Forall (λ t, ∃ p, t !! u8 "predicate" = Some p ∧ p ∈ dom allowed)
           (filter_allowed allowed T).
Proof.
  split; [apply filter_sublist|].
  apply Forall_forall. intros t Ht.
  apply list_elem_of_In, filter_In in Ht as [_ Ht].
  by apply allowed_predicate_spec.
Qed.

End TripleFilter.

(** ** The theme "other" *)

Section OtherTheme.

Variable NFC : str → str.
Variable generate_triples_for_segment :
  nat → str → list str → str → str → list triple.

Lemma filter_allowed_empty (T : list triple) : filter_allowed ∅ T = [].
Proof.
  induction T as [|t T IH]; [done|]. unfold filter_allowed in *. simpl.
  unfold allowed_predicate at 1. destruct (t !! _); [|done].
  unfold has_key. by rewrite lookup_empty.
Qed.

(** C10. For the theme "other" the allowed-predicate map is empty. With a
    user class supplied (and a template file that is missing or readable)
    [generate_triples] returns, and the list under "triples" is empty
    whatever candidates the language model produced; more generally every
    result returned for the theme "other" has an empty "triples" list. *)
Theorem generate_triples_other_empty (fs : filesystem) (text : str)
    (topics : list str) (c : str) :
  truthy c = true →
  TBoxLoader.can_read fs
    (path_join TBoxLoader.ONTOLOGY_DIR (u8 "custom.tbox.ttl")) = true →
  get_allowed_predicates (u8 "other") = ∅
  ∧ (∃ r, generate_triples NFC generate_triples_for_segment fs text topics
            (u8 "other") (Some c) = Ok r
          ∧ gen_tbox r = c ∧ gen_triples r = [])
  ∧ (∀ user_tbox r,
       generate_triples NFC generate_triples_for_segment fs text topics
         (u8 "other") user_tbox = Ok r →
       gen_triples r = []).
Proof.
  intros Hc Hfile. split; [done|]. split.
  - unfold generate_triples, TBoxLoader.load_tbox_template.
    rewrite decide_False by done. rewrite decide_False by done.
    rewrite decide_True by done. rewrite Hc.
    unfold TBoxLoader.load_tbox_file. unfold TBoxLoader.can_read in Hfile.
    destruct (fs !! _) as [[content| |]|]; [| done | done |]; simpl;
      (eexists; split; [reflexivity|]; simpl; split; [done|]);
      apply filter_allowed_empty.
  - intros user_tbox r. unfold generate_triples.
    destruct (TBoxLoader.load_tbox_template fs _ user_tbox) as [[tmpl cls]|e];
      simpl; [|discriminate].
    intros [= <-]. simpl. apply filter_allowed_empty.
Qed.

End OtherTheme.

Lemma generate_triples_other_empty_witness :
  ∃ r, generate_triples UCD.nfc (λ _ _ _ _ _, [ {[ u8 "predicate" := u8 "occurredIn" ]} ])
         ∅ (u8 "وقعت معركة") [] (u8 "other") (Some (u8 "ex:Thing")) = Ok r
       ∧ gen_tbox r = u8 "ex:Thing" ∧ gen_triples r = [].
Proof.
  apply (generate_triples_other_empty UCD.nfc
           (λ _ _ _ _ _, [ {[ u8 "predicate" := u8 "occurredIn" ]} ])
           ∅ (u8 "وقعت معركة") [] (u8 "ex:Thing")).
  - reflexivity.
  - reflexivity.
Defined.

(** ** Facts about the string primitives *)

Section Strings.

Implicit Types (s l m : str) (ls : list str) (c sep : N).

Lemma split_nonempty sep s : split sep s ≠ [].
Proof.
  destruct s as [|c r]; simpl; [done|].
  destruct (c =? sep); [done|]. by destruct (split sep r).
Qed.

Lemma split_cons_ne sep c r :
  (c =? sep) = false →
  ∃ l ls, split sep r = l :: ls ∧ split sep (c :: r) = (c :: l) :: ls.
Proof.
  intros Hc. simpl. rewrite Hc.
  destruct (split sep r) as [|l ls] eqn:Hs; [by apply split_nonempty in Hs|].
  by exists l, ls.
Qed.

Lemma join_cons (j : str) l l' ls :
  join j (l :: l' :: ls) = l ++ j ++ join j (l' :: ls).
Proof. done. Qed.

Lemma join_split sep s : join [sep] (split sep s) = s.
Proof.
  induction s as [|c r IH]; [done|].
  destruct (c =? sep) eqn:Hc.
  - simpl. rewrite Hc. apply N.eqb_eq in Hc as ->.
    destruct (split sep r) as [|l ls] eqn:Hs; [by apply split_nonempty in Hs|].
    rewrite join_cons, IH. done.
  - destruct (split_cons_ne sep c r Hc) as (l & ls & Hs & ->).
    rewrite Hs in IH. destruct ls; simpl in *; by rewrite IH.
Qed.

Lemma split_app_sep sep a b :
  split sep (a ++ sep :: b) = split sep a ++ split sep b.
Proof.
  induction a as [|c a IH]; simpl.
  - by rewrite N.eqb_refl.
  - destruct (c =? sep); [by rewrite IH|].
    rewrite IH. destruct (split sep a) as [|l ls] eqn:Hs; [|done].
    by apply split_nonempty in Hs.
Qed.

Lemma split_join sep ls :
  ls ≠ [] → split sep (join [sep] ls) = concat (map (split sep) ls).
Proof.
  induction ls as [|l ls IH]; [done|]. intros _.
  destruct ls as [|l' ls].
  - simpl. by rewrite app_nil_r.
  - rewrite join_cons.
    change (l ++ [sep] ++ join [sep] (l' :: ls))
      with (l ++ sep :: join [sep] (l' :: ls)).
    rewrite split_app_sep, IH by done. done.
Qed.

Lemma split_free sep s : sep ∉ s → split sep s = [s].
Proof.
  induction s as [|c r IH]; [done|]. intros Hs.
  apply not_elem_of_cons in Hs as [Hne Hr]. simpl.
  destruct (N.eqb_spec c sep) as [->|_]; [done|]. by rewrite IH.
Qed.

Lemma split_lines_free sep s : Forall (λ l, sep ∉ l) (split sep s).
Proof.
  induction s as [|c r IH]; simpl.
  - constructor; [apply not_elem_of_nil|constructor].
  - destruct (N.eqb_spec c sep) as [->|Hne].
    + constructor; [apply not_elem_of_nil|done].
    + destruct (split sep r) as [|l ls].
      { constructor; [|constructor]. apply not_elem_of_cons.
        split; [congruence|apply not_elem_of_nil]. }
      inversion IH as [|? ? Hl Hls]; subst. constructor; [|done].
      apply not_elem_of_cons. split; [congruence|done].
Qed.

Lemma split_join_free sep ls :
  ls ≠ [] → Forall (λ l, sep ∉ l) ls → split sep (join [sep] ls) = ls.
Proof.
  intros Hne Hfree. rewrite split_join by done. clear Hne.
  induction Hfree as [|l ls Hl _ IH]; [done|].
  simpl. by rewrite split_free, IH.
Qed.

Lemma split_head_prefix sep s l ls :
  split sep s = l :: ls → ∃ b, s = l ++ b.
Proof.
  revert l ls. induction s as [|c r IH]; intros l ls; simpl.
  - intros [= <- <-]. by exists [].
  - destruct (c =? sep).
    + intros [= <- <-]. by eexists.
    + destruct (split sep r) as [|l' ls'] eqn:Hs; intros [= <- <-].
      * by exists r.
      * destruct (IH _ _ eq_refl) as [b ->]. by exists b.
Qed.

Lemma split_infix sep s l :
  l ∈ split sep s → ∃ a b, s = a ++ l ++ b.
Proof.
  revert l. induction s as [|c r IH]; intros l; simpl.
  - intros ->%list_elem_of_singleton. by exists [], [].
  - destruct (c =? sep).
    + intros [->|Hin]%elem_of_cons; [by exists [], (c :: r)|].
      destruct (IH _ Hin) as (a & b & ->). by exists (c :: a), b.
    + destruct (split sep r) as [|l' ls'] eqn:Hs.
      * intros ->%list_elem_of_singleton. exists [], r. done.
      * intros [->|Hin]%elem_of_cons.
        -- destruct (split_head_prefix _ _ _ _ Hs) as [b ->]. by exists [], b.
        -- destruct (IH l) as (a & b & ->); [by right|]. by exists (c :: a), b.
Qed.

Lemma startswith_app m s b :
  startswith m s = true → startswith m (s ++ b) = true.
Proof.
  revert s. induction m as [|x m IH]; intros [|y s]; simpl; try done.
  intros [-> Hm]%andb_true_iff. by rewrite IH.
Qed.

Lemma contains_app_r m s b : contains m s = true → contains m (s ++ b) = true.
Proof.
  induction s as [|y s IH].
  - destruct m; [|done]. by destruct b.
  - cbn [contains app]. intros [H|H]%orb_true_iff.
    + apply (startswith_app _ _ b) in H.
      change ((y :: s) ++ b) with (y :: s ++ b) in H. by rewrite H.
    + rewrite IH by done. apply orb_true_r.
Qed.

Lemma contains_app_l m a s : contains m s = true → contains m (a ++ s) = true.
Proof.
  intros H. induction a as [|y a IH]; [done|].
  cbn [contains app]. rewrite IH. apply orb_true_r.
Qed.

Lemma contains_infix m a l b :
  contains m l = true → contains m (a ++ l ++ b) = true.
Proof. intros H. by apply contains_app_l, contains_app_r. Qed.

(** *** Stripping *)

Lemma lstrip_head s : head_is isspace (lstrip s) = false.
Proof.
  induction s as [|c r IH]; [done|]. simpl.
  destruct (isspace c) eqn:Hc; [done|]. simpl. done.
Qed.

Lemma lstrip_fixed s : head_is isspace s = false → lstrip s = s.
Proof. destruct s as [|c r]; [done|]. simpl. by intros ->. Qed.

Lemma lstrip_suffix s : ∃ ws, s = ws ++ lstrip s.
Proof.
  induction s as [|c r [ws IH]]; [by exists []|]. simpl.
  destruct (isspace c); [|by exists []].
  exists (c :: ws). simpl. by rewrite <- IH.
Qed.

Lemma rstrip_head s : head_is isspace s = false → head_is isspace (rstrip s) = false.
Proof.
  intros Hs. unfold rstrip.
  destruct (lstrip_suffix (rev s)) as [ws Hws].
  apply (f_equal (@rev N)) in Hws. rewrite rev_involutive, rev_app_distr in Hws.
  destruct (rev (lstrip (rev s))) as [|c r]; [done|].
  rewrite Hws in Hs. done.
Qed.

Lemma strip_tidy s : tidy (strip s).
Proof.
  split.
  - apply rstrip_head, lstrip_head.
  - unfold strip, rstrip. rewrite rev_involutive. apply lstrip_head.
Qed.

Lemma tidy_strip s : tidy s → strip s = s.
Proof.
  intros [Hh Hl]. unfold strip, rstrip.
  rewrite (lstrip_fixed s Hh), (lstrip_fixed _ Hl). apply rev_involutive.
Qed.

Lemma strip_fixed_tidy s : strip s = s → tidy s.
Proof. intros <-. apply strip_tidy. Qed.

Lemma strip_strip s : strip (strip s) = strip s.
Proof. apply tidy_strip, strip_tidy. Qed.

End Strings.

(** ** Event segmentation *)

Section EventSegmenter.

Implicit Types (text line : str) (ls cur : list str) (G : list (list str)).

Lemma has_marker_infix a line b :
  has_marker line = true → has_marker (a ++ line ++ b) = true.
Proof.
  unfold has_marker. rewrite !existsb_exists.
  intros (m & Hm & Hc). exists m. split; [done|]. by apply contains_infix.
Qed.

Lemma no_marker_lines text :
  has_marker text = false → Forall (λ l, has_marker l = false) (split LF text).
Proof.
  intros Hno. apply Forall_forall. intros l Hl.
  destruct (split_infix _ _ _ Hl) as (a & b & ->).
  destruct (has_marker l) eqn:Hm; [|done].
  by rewrite (has_marker_infix a l b Hm) in Hno.
Qed.

Lemma segment_loop_no_marker ls : ∀ segs cur,
  Forall (λ l, has_marker l = false) ls →
  fold_left segment_step ls (segs, cur) = (segs, cur ++ ls).
Proof.
  induction ls as [|l ls IH]; intros segs cur Hls; simpl.
  - by rewrite app_nil_r.
  - inversion Hls as [|? ? Hl Hls']; subst. rewrite Hl.
    rewrite IH by done. by rewrite <- app_assoc.
Qed.

Lemma raw_segments_no_marker text :
  has_marker text = false → raw_segments text = [text].
Proof.
  intros Hno. unfold raw_segments.
  rewrite segment_loop_no_marker by by apply no_marker_lines.
  simpl. destruct (split LF text) as [|l ls] eqn:Hs; [by apply split_nonempty in Hs|].
  simpl nonempty. cbv iota. rewrite <- Hs, join_split. done.
Qed.

Lemma clean_text_tidy NFC raw : strip (clean_text NFC raw) = clean_text NFC raw.
Proof.
  unfold clean_text. destruct (negb (truthy raw)); [done|]. apply strip_strip.
Qed.

(** C9 (as amended). A text that contains no marker keyword gives exactly
    one segment, the text with its outer white space stripped, when that
    is non-empty, and no segment at all when the text is empty or blank.
    When the text is a non-empty result of [clean_text], as it is in
    [generate_triples], the one segment is that cleaned text. *)
Theorem segment_without_markers NFC text :
  has_marker text = false →
  segment_into_events text = (if truthy (strip text) then [strip text] else [])
  ∧ (∀ raw, text = clean_text NFC raw → text ≠ [] →
       segment_into_events text = [text]).
Proof.
  intros Hno.
  assert (segment_into_events text
          = if truthy (strip text) then [strip text] else []) as Hseg.
  { unfold segment_into_events. rewrite raw_segments_no_marker by done.
    simpl. by destruct (truthy (strip text)). }
  split; [done|]. intros raw -> Hne.
  rewrite Hseg, clean_text_tidy. by destruct (clean_text NFC raw).
Qed.

Lemma segment_without_markers_witness :
  segment_into_events (u8 "  peace treaty ")
  = [u8 "peace treaty"].
Proof.
  apply (segment_without_markers UCD.nfc (u8 "  peace treaty ")). reflexivity.
Defined.

(** C9, as the specification states it, fails on the empty text: it has
    no marker keyword, and no segment is returned for it. *)
Lemma segment_without_markers_empty :
  has_marker [] = false
  ∧ segment_into_events [] = []
  ∧ segment_into_events [] ≠ [clean_text UCD.nfc []].
Proof. repeat split; discriminate. Qed.

(** The loop keeps the lines in groups: the segments appended so far are
    the joined groups [G], and the groups followed by [current] are the
    lines read so far. *)
Lemma segment_loop_groups ls : ∀ G cur,
  ∃ G' cur',
    fold_left segment_step ls (map (join [LF]) G, cur) = (map (join [LF]) G', cur')
    ∧ concat G' ++ cur' = concat G ++ cur ++ ls
    ∧ (Forall (λ g, g ≠ []) G → Forall (λ g, g ≠ []) G').
Proof.
  induction ls as [|l ls IH]; intros G cur.
  - exists G, cur. by rewrite app_nil_r.
  - simpl. destruct (has_marker l).
    + destruct cur as [|l0 cur].
      * simpl. destruct (IH G [l]) as (G' & cur' & -> & Hcat & Hne).
        exists G', cur'. done.
      * simpl nonempty. cbv iota.
        change [join [LF] (l0 :: cur)] with (map (join [LF]) [l0 :: cur]).
        rewrite <- map_app.
        destruct (IH (G ++ [l0 :: cur]) [l]) as (G' & cur' & -> & Hcat & Hne).
        exists G', cur'. split; [done|]. split.
        -- rewrite Hcat, concat_app. simpl. rewrite app_nil_r.
           by rewrite <- !app_assoc.
        -- intros HG. apply Hne, Forall_app. split; [done|].
           by repeat constructor.
    + destruct (IH G (cur ++ [l])) as (G' & cur' & -> & Hcat & Hne).
      exists G', cur'. split; [done|]. split; [|done].
      by rewrite Hcat, <- !app_assoc.
Qed.

Lemma raw_segments_groups text :
  ∃ G, raw_segments text = map (join [LF]) G
       ∧ concat G = split LF text
       ∧ Forall (λ g, g ≠ []) G.
Proof.
  unfold raw_segments.
  destruct (segment_loop_groups (split LF text) [] []) as (G & cur & Hf & Hcat & Hne).
  simpl in Hf, Hcat. rewrite Hf. destruct cur as [|l cur]; simpl.
  - exists G. rewrite app_nil_r in Hcat. split; [done|]. split; [done|].
    apply Hne. constructor.
  - exists (G ++ [l :: cur]). split; [by rewrite map_app|]. split.
    + rewrite concat_app. simpl. by rewrite app_nil_r.
    + apply Forall_app. split; [apply Hne; constructor|]. by repeat constructor.
Qed.

Lemma split_join_groups G :
  Forall (λ g, g ≠ []) G → Forall (λ l, LF ∉ l) (concat G) →
  concat (map (split LF) (map (join [LF]) G)) = concat G.
Proof.
  induction G as [|g G IH]; [done|]. intros Hne Hfree.
  inversion Hne as [|? ? Hg HG]; subst. simpl in *.
  apply Forall_app in Hfree as [Hfg HfG].
  by rewrite split_join_free, IH.
Qed.

Lemma tidy_app a b :
  a ≠ [] → b ≠ [] → head_is isspace a = false → head_is isspace (rev b) = false →
  a ++ b ≠ [] ∧ tidy (a ++ b).
Proof.
  intros Ha Hb Hha Hlb. split; [by destruct a|]. split.
  - by destruct a.
  - rewrite rev_app_distr. destruct (rev b) as [|c r] eqn:Hr; [|done].
    apply (f_equal (@rev N)) in Hr. rewrite rev_involutive in Hr. done.
Qed.

Lemma join_tidy (g : list str) :
  g ≠ [] → Forall (λ l, l ≠ [] ∧ tidy l) g →
  join [LF] g ≠ [] ∧ tidy (join [LF] g).
Proof.
  induction g as [|l g IH]; [done|]. intros _ Hg.
  inversion Hg as [|? ? [Hl [Hh Ht]] Hg']; subst.
  destruct g as [|l' g]; [done|].
  rewrite join_cons. destruct IH as [Hne [_ Hlast]]; [done|done|].
  rewrite app_assoc.
  apply tidy_app; [by destruct l| done | by destruct l | done].
Qed.

Lemma keep_tidy_segments (segs : list str) :
  Forall (λ s, s ≠ [] ∧ tidy s) segs →
  map strip (List.filter (λ seg, truthy (strip seg)) segs) = segs.
Proof.
  induction 1 as [|s segs [Hne Ht] _ IH]; [done|].
  cbn [List.filter]. rewrite (tidy_strip _ Ht).
  destruct s as [|c r]; [done|]. cbn [truthy map].
  by rewrite (tidy_strip _ Ht), IH.
Qed.

(** C2 (as amended). The segments as the loop accumulates them, before
    the final comprehension strips them and drops the blank ones,
    reproduce the line sequence of the text when they are split into lines
    again and concatenated in order. The returned segments are these same
    segments, and so reproduce the line sequence, whenever none of them is
    empty or has white space at either end; this is so in particular when
    every line of the text is non-empty and has no white space at either
    end. *)
Theorem segments_reproduce_lines text :
  concat (map (split LF) (raw_segments text)) = split LF text
  ∧ (Forall (λ seg, seg ≠ [] ∧ strip seg = seg) (raw_segments text) →
       segment_into_events text = raw_segments text
       ∧ concat (map (split LF) (segment_into_events text)) = split LF text)
  ∧ (Forall (λ l, l ≠ [] ∧ strip l = l) (split LF text) →
       Forall (λ seg, seg ≠ [] ∧ strip seg = seg) (raw_segments text)).
Proof.
  destruct (raw_segments_groups text) as (G & HG & Hcat & Hne).
  assert (concat (map (split LF) (raw_segments text)) = split LF text) as Hraw.
  { rewrite HG, split_join_groups, Hcat; [done|done|].
    rewrite Hcat. apply split_lines_free. }
  split; [done|]. split.
  - intros Hsegs.
    assert (segment_into_events text = raw_segments text) as Heq.
    { unfold segment_into_events. apply keep_tidy_segments.
      eapply Forall_impl; [exact Hsegs|]. intros seg [Hseg Hs].
      split; [done|]. by apply strip_fixed_tidy. }
    by rewrite Heq.
  - intros Hlines. rewrite HG. rewrite <- Hcat in Hlines. clear HG Hcat Hraw.
    induction G as [|g G IH]; [constructor|].
    inversion Hne as [|? ? Hg HG]; subst.
    simpl in Hlines. apply Forall_app in Hlines as [Hlg HlG].
    cbn [map]. constructor; [|by apply IH].
    destruct (join_tidy g Hg) as [Hjne Hjt].
    { eapply Forall_impl; [exact Hlg|]. intros l [Hl Hs].
      split; [done|]. by apply strip_fixed_tidy. }
    split; [done|]. by apply tidy_strip.
Qed.

Lemma segments_reproduce_lines_witness :
  segment_into_events (u8 "intro" ++ [LF] ++ u8 "وقعت معركة" ++ [LF] ++ u8 "after")
  = raw_segments (u8 "intro" ++ [LF] ++ u8 "وقعت معركة" ++ [LF] ++ u8 "after")
  ∧ concat (map (split LF)
      (segment_into_events (u8 "intro" ++ [LF] ++ u8 "وقعت معركة" ++ [LF] ++ u8 "after")))
    = split LF (u8 "intro" ++ [LF] ++ u8 "وقعت معركة" ++ [LF] ++ u8 "after").
Proof.
  destruct (segments_reproduce_lines
              (u8 "intro" ++ [LF] ++ u8 "وقعت معركة" ++ [LF] ++ u8 "after"))
    as (_ & Hsegments & Hlines).
  apply Hsegments, Hlines.
  vm_compute. repeat constructor; discriminate.
Defined.

(** C2, as the specification states it, fails when a segment ends in a
    blank line: the blank line before the marker line is stripped away. *)
Lemma segments_lose_blank_line :
  split LF (u8 "a" ++ [LF; LF] ++ u8 "وقعت معركة") = [u8 "a"; []; u8 "وقعت معركة"]
  ∧ segment_into_events (u8 "a" ++ [LF; LF] ++ u8 "وقعت معركة")
    = [u8 "a"; u8 "وقعت معركة"]
  ∧ concat (map (split LF)
      (segment_into_events (u8 "a" ++ [LF; LF] ++ u8 "وقعت معركة")))
    ≠ split LF (u8 "a" ++ [LF; LF] ++ u8 "وقعت معركة").
Proof. repeat split; vm_compute; discriminate. Qed.

End EventSegmenter.

(** ** Graph construction and merging *)

Section Graphs.

Import GraphBuilder.

Implicit Types (G g : DiGraph) (n u v : str) (a attr : gmap str str)
  (N : gmap str (gmap str str)) (E : gmap (str * str) (gmap str str)).

Lemma DiGraph_eq G G' : nodes G = nodes G' → edges G = edges G' → G = G'.
Proof. destruct G, G'; simpl; by intros -> ->. Qed.

Lemma has_key_true {K} `{Countable K} {V} (k : K) (d : gmap K V) :
  has_key k d = true ↔ is_Some (d !! k).
Proof.
  unfold has_key. destruct (d !! k); split; try done; by intros [? ?].
Qed.

Lemma has_key_false {K} `{Countable K} {V} (k : K) (d : gmap K V) :
  has_key k d = false ↔ d !! k = None.
Proof. unfold has_key. by destruct (d !! k). Qed.

Lemma dict_update_empty a : dict_update ∅ a = a.
Proof. unfold dict_update. apply (right_id_L ∅ (∪)). Qed.

Lemma lookup_last_wins {K} `{Countable K} (new old : gmap K (gmap str str)) k :
  last_wins new old !! k =
    match new !! k, old !! k with
    | Some x, Some y => Some (dict_update y x)
    | Some x, None => Some x
    | None, o => o
    end.
Proof.
  unfold last_wins. rewrite lookup_union_with.
  by destruct (new !! k), (old !! k).
Qed.

Lemma dom_last_wins {K} `{Countable K} (new old : gmap K (gmap str str)) :
  dom (last_wins new old) = dom new ∪ dom old.
Proof.
  apply set_eq. intros k. rewrite elem_of_union, !elem_of_dom, lookup_last_wins.
  destruct (new !! k), (old !! k); split; try (intros [[? [=]]|[? [=]]]);
    try (intros [? [=]]); eauto.
Qed.

Lemma last_wins_empty_r {K} `{Countable K} (new : gmap K (gmap str str)) :
  last_wins new ∅ = new.
Proof.
  apply map_eq. intros k. rewrite lookup_last_wins, lookup_empty.
  by destruct (new !! k).
Qed.

Lemma last_wins_empty_l {K} `{Countable K} (old : gmap K (gmap str str)) :
  last_wins ∅ old = old.
Proof. apply map_eq. intros k. by rewrite lookup_last_wins, lookup_empty. Qed.

Lemma last_wins_insert_absent {K} `{Countable K}
    (new old : gmap K (gmap str str)) k x :
  new !! k = None → old !! k = None →
  <[k := x]> (last_wins new old) = last_wins (<[k := x]> new) old.
Proof.
  intros Hn Ho. apply map_eq. intros k'. destruct (decide (k = k')) as [<-|Hk].
  - by rewrite lookup_insert_eq, lookup_last_wins, lookup_insert_eq, Ho.
  - by rewrite lookup_insert_ne, !lookup_last_wins, lookup_insert_ne.
Qed.

Lemma last_wins_insert_present {K} `{Countable K}
    (new old : gmap K (gmap str str)) k x y :
  new !! k = None → old !! k = Some y →
  alter (λ o, dict_update o x) k (last_wins new old)
  = last_wins (<[k := x]> new) old.
Proof.
  intros Hn Ho. apply map_eq. intros k'. rewrite lookup_alter.
  case_decide as Hk.
  - subst k'. by rewrite !lookup_last_wins, Hn, lookup_insert_eq, Ho.
  - by rewrite !lookup_last_wins, lookup_insert_ne.
Qed.

Lemma last_wins_lookup_fresh {K} `{Countable K}
    (new old : gmap K (gmap str str)) k :
  new !! k = None → last_wins new old !! k = old !! k.
Proof. intros Hn. by rewrite lookup_last_wins, Hn. Qed.

(** The loop over the nodes of [g]. *)
Lemma merge_nodes_spec G N :
  map_fold merge_node G N
  = {| nodes := last_wins N (nodes G); edges := edges G |}.
Proof.
  apply (map_fold_weak_ind
           (λ r m, r = {| nodes := last_wins m (nodes G); edges := edges G |})).
  - apply DiGraph_eq; simpl; [|done]. by rewrite last_wins_empty_l.
  - intros i x m r Hi ->. unfold merge_node, has_node. cbn [nodes].
    destruct (has_key i (last_wins m (nodes G))) eqn:Hk; cbn [negb].
    + apply has_key_true in Hk as [old Hold].
      rewrite last_wins_lookup_fresh in Hold by done.
      unfold update_node. cbn [nodes edges].
      by rewrite (last_wins_insert_present _ _ _ _ old).
    + apply has_key_false in Hk. unfold add_node. cbn [nodes edges].
      rewrite Hk. cbn [default]. rewrite dict_update_empty.
      rewrite last_wins_lookup_fresh in Hk by done.
      by rewrite last_wins_insert_absent.
Qed.

Lemma endpoints_empty : endpoints ∅ = ∅.
Proof. unfold endpoints. rewrite dom_empty_L. set_solver. Qed.

Lemma elem_of_endpoints E n :
  n ∈ endpoints E ↔ ∃ u v, is_Some (E !! (u, v)) ∧ (n = u ∨ n = v).
Proof.
  unfold endpoints. rewrite elem_of_union, !elem_of_map. split.
  - intros [([u v] & -> & Huv)|([u v] & -> & Huv)];
      apply elem_of_dom in Huv; exists u, v; eauto.
  - intros (u & v & Huv & [->| ->]); apply elem_of_dom in Huv;
      [left|right]; by exists (u, v).
Qed.

Lemma elem_of_pair n u v : n ∈ ({[u; v]} : gset str) ↔ n = u ∨ n = v.
Proof. by rewrite elem_of_union, !elem_of_singleton. Qed.

Lemma endpoints_insert E u v a :
  endpoints (<[(u, v) := a]> E) = {[u; v]} ∪ endpoints E.
Proof.
  apply set_eq. intros n.
  rewrite elem_of_union, !elem_of_endpoints, elem_of_pair. split.
  - intros (u' & v' & Hs & Hn).
    apply lookup_insert_is_Some in Hs as [[= <- <-]|[_ Hs]]; [by left|].
    right. by exists u', v'.
  - intros [Hn|(u' & v' & Hs & Hn)].
    + exists u, v. split; [|done]. rewrite lookup_insert_eq. by eexists.
    + exists u', v'. split; [|done]. apply lookup_insert_is_Some'. by right.
Qed.

Lemma lookup_with_endpoints N X n :
  with_endpoints N X !! n =
    match N !! n with
    | Some a => Some a
    | None => if decide (n ∈ X) then Some ∅ else None
    end.
Proof.
  unfold with_endpoints. rewrite lookup_union, lookup_gset_to_gmap.
  destruct (N !! n); simpl; [by destruct (guard _)|].
  case_decide; [by rewrite option_guard_True|by rewrite option_guard_False].
Qed.

Lemma ensure_node_lookup G u n :
  nodes (if has_node G u then G else add_node G u ∅) !! n =
    match nodes G !! n with
    | Some a => Some a
    | None => if decide (n = u) then Some ∅ else None
    end.
Proof.
  unfold has_node. destruct (has_key u (nodes G)) eqn:Hu.
  - apply has_key_true in Hu as [au Hu].
    destruct (nodes G !! n) eqn:Hn; [done|].
    rewrite decide_False; [done|]. intros ->. congruence.
  - apply has_key_false in Hu. unfold add_node. simpl.
    rewrite Hu. simpl. rewrite dict_update_empty.
    destruct (decide (n = u)) as [->|Hne].
    + by rewrite lookup_insert_eq, Hu.
    + rewrite lookup_insert_ne by done. by destruct (nodes G !! n).
Qed.

Lemma add_edge_nodes G u v a :
  nodes (add_edge G u v a) = with_endpoints (nodes G) {[u; v]}.
Proof.
  apply map_eq. intros n. unfold add_edge. cbn [nodes].
  rewrite !ensure_node_lookup, lookup_with_endpoints.
  destruct (nodes G !! n); [done|].
  destruct (decide (n = u)) as [->|Hu].
  { rewrite decide_True; [done|]. apply elem_of_pair. by left. }
  destruct (decide (n = v)) as [->|Hv].
  { rewrite decide_True; [done|]. apply elem_of_pair. by right. }
  rewrite decide_False; [done|]. rewrite elem_of_pair. by intros [|].
Qed.

Lemma add_edge_edges G u v a :
  edges (add_edge G u v a)
  = <[(u, v) := dict_update (default ∅ (edges G !! (u, v))) a]> (edges G).
Proof.
  unfold add_edge, has_node, add_node. cbn [edges].
  by destruct (has_key u (nodes G)), (has_key v _).
Qed.

Lemma with_endpoints_empty N : with_endpoints N ∅ = N.
Proof.
  apply map_eq. intros n. rewrite lookup_with_endpoints.
  destruct (N !! n); [done|]. by rewrite decide_False by apply not_elem_of_empty.
Qed.

Lemma with_endpoints_union N (X Y : gset str) :
  with_endpoints (with_endpoints N X) Y = with_endpoints N (Y ∪ X).
Proof.
  apply map_eq. intros n. rewrite !lookup_with_endpoints.
  destruct (N !! n); [done|].
  destruct (decide (n ∈ X)) as [HX|HX].
  - rewrite decide_True; [done|]. apply elem_of_union. by right.
  - destruct (decide (n ∈ Y)) as [HY|HY].
    + rewrite decide_True; [done|]. apply elem_of_union. by left.
    + rewrite decide_False; [done|]. by intros [|]%elem_of_union.
Qed.

Lemma with_endpoints_present N (X Y : gset str) :
  (∀ n, n ∈ Y → is_Some (N !! n)) →
  with_endpoints N (Y ∪ X) = with_endpoints N X.
Proof.
  intros HY. apply map_eq. intros n. rewrite !lookup_with_endpoints.
  destruct (N !! n) eqn:Hn; [done|].
  destruct (decide (n ∈ X)) as [HX|HX].
  - rewrite decide_True; [done|]. apply elem_of_union. by right.
  - rewrite decide_False; [done|]. intros [Hy|]%elem_of_union; [|done].
    apply HY in Hy as [? Hy]. congruence.
Qed.

Lemma dom_with_endpoints N (X : gset str) :
  dom (with_endpoints N X) = dom N ∪ X.
Proof. unfold with_endpoints. by rewrite dom_union_L, dom_gset_to_gmap. Qed.

(** The loop over the edges of [g]. *)
Lemma merge_edges_spec G E :
  closed G →
  map_fold merge_edge G E
  = {| nodes := with_endpoints (nodes G) (endpoints E);
       edges := last_wins E (edges G) |}.
Proof.
  intros Hclosed.
  apply (map_fold_weak_ind
           (λ r m, r = {| nodes := with_endpoints (nodes G) (endpoints m);
                          edges := last_wins m (edges G) |})).
  - apply DiGraph_eq; simpl.
    + by rewrite endpoints_empty, with_endpoints_empty.
    + by rewrite last_wins_empty_l.
  - intros [u v] x m r Hi ->. unfold merge_edge, has_edge. cbn [fst snd edges].
    rewrite endpoints_insert.
    destruct (has_key (u, v) (last_wins m (edges G))) eqn:Hk; cbn [negb].
    + apply has_key_true in Hk as [old Hold].
      rewrite last_wins_lookup_fresh in Hold by done.
      unfold update_edge. cbn [nodes edges].
      rewrite (last_wins_insert_present _ _ _ _ old) by done.
      rewrite with_endpoints_present; [done|].
      intros n [->| ->]%elem_of_pair; by apply (Hclosed u v).
    + apply has_key_false in Hk. apply DiGraph_eq.
      * rewrite add_edge_nodes. cbn [nodes]. apply with_endpoints_union.
      * rewrite add_edge_edges. cbn [edges]. rewrite Hk. cbn [default].
        rewrite dict_update_empty.
        rewrite last_wins_lookup_fresh in Hk by done.
        by rewrite last_wins_insert_absent.
Qed.

Lemma merge_into_spec G g :
  closed G →
  merge_into G g
  = {| nodes := with_endpoints (last_wins (nodes g) (nodes G)) (endpoints (edges g));
       edges := last_wins (edges g) (edges G) |}.
Proof.
  intros Hclosed. unfold merge_into. rewrite merge_nodes_spec.
  rewrite merge_edges_spec; [done|].
  intros u v Huv. cbn [nodes edges] in *.
  destruct (Hclosed u v Huv) as [Hu Hv].
  rewrite <- !elem_of_dom, dom_last_wins, !elem_of_union, !elem_of_dom. eauto.
Qed.

Lemma merge_into_closed G g : closed G → closed (merge_into G g).
Proof.
  intros Hclosed. rewrite merge_into_spec by done.
  intros u v Huv. cbn [nodes edges] in *.
  apply elem_of_dom in Huv. rewrite dom_last_wins in Huv.
  rewrite <- !elem_of_dom, dom_with_endpoints, dom_last_wins.
  apply elem_of_union in Huv as [Hg|HG].
  - apply elem_of_dom in Hg.
    split; apply elem_of_union; right; apply elem_of_endpoints;
      exists u, v; eauto.
  - apply elem_of_dom in HG. destruct (Hclosed u v HG) as [Hu Hv].
    split; apply elem_of_union; left; apply elem_of_union; right;
      by apply elem_of_dom.
Qed.

Lemma empty_graph_closed : closed empty_graph.
Proof. intros u v [a Ha]. cbn [edges empty_graph] in Ha. by rewrite lookup_empty in Ha. Qed.

Lemma merge_fold_closed gs G : closed G → closed (fold_left merge_into gs G).
Proof.
  revert G. induction gs as [|g gs IH]; intros G HG; [done|].
  simpl. by apply IH, merge_into_closed.
Qed.

Lemma merge_graphs_closed gs : closed (merge_graphs gs).
Proof. apply merge_fold_closed, empty_graph_closed. Qed.

Lemma merge_graphs_snoc gs g :
  merge_graphs (gs ++ [g]) = merge_into (merge_graphs gs) g.
Proof. unfold merge_graphs. by rewrite fold_left_app. Qed.

Lemma merge_fold_dom gs : ∀ G,
  closed G →
  dom (nodes (fold_left merge_into gs G)) = dom (nodes G) ∪ ⋃ (node_ids <$> gs)
  ∧ dom (edges (fold_left merge_into gs G)) = dom (edges G) ∪ ⋃ (edge_keys <$> gs).
Proof.
  induction gs as [|g gs IH]; intros G HG.
  - simpl. by rewrite !(right_id_L ∅ (∪)).
  - cbn [fold_left fmap list_fmap]. rewrite !union_list_cons.
    destruct (IH (merge_into G g)) as [-> ->]; [by apply merge_into_closed|].
    rewrite merge_into_spec by done. cbn [nodes edges].
    rewrite dom_with_endpoints, !dom_last_wins. unfold node_ids, edge_keys.
    split; apply set_eq; intros x; rewrite !elem_of_union; tauto.
Qed.

Lemma union_list_fmap_perm {A} `{Countable B} (f : A → gset B) (l l' : list A) :
  l ≡ₚ l' → ⋃ (f <$> l) = ⋃ (f <$> l').
Proof.
  intros Hp. apply set_eq. intros x. rewrite !elem_of_union_list.
  split; intros (X & HX & Hx); exists X; (split; [|done]);
    apply list_elem_of_fmap in HX as (y & -> & Hy); apply list_elem_of_fmap;
    exists y; (split; [done|]).
  - by rewrite <- Hp.
  - by rewrite Hp.
Qed.

(** C4. Merging no graph gives the empty graph; merging one graph gives
    that graph back, attributes included; the node set and the edge set of
    a merge do not depend on the order of the graphs; the attribute values
    do: every attribute of a node or an edge of the last graph is in the
    merge with the value that graph gives it, and two graphs that disagree
    on an attribute merge differently in the two orders. *)
Theorem merge_graphs_properties :
  merge_graphs [] = empty_graph
  ∧ (∀ G, closed G → merge_graphs [G] = G)
  ∧ (∀ gs gs', gs ≡ₚ gs' →
       dom (nodes (merge_graphs gs)) = dom (nodes (merge_graphs gs'))
       ∧ dom (edges (merge_graphs gs)) = dom (edges (merge_graphs gs')))
  ∧ (∀ gs g,
       (∀ n a, nodes g !! n = Some a →
          ∃ a', nodes (merge_graphs (gs ++ [g])) !! n = Some a' ∧ a ⊆ a')
       ∧ (∀ e a, edges g !! e = Some a →
          ∃ a', edges (merge_graphs (gs ++ [g])) !! e = Some a' ∧ a ⊆ a'))
  ∧ (∃ G1 G2, closed G1 ∧ closed G2
       ∧ dom (nodes (merge_graphs [G1; G2])) = dom (nodes (merge_graphs [G2; G1]))
       ∧ merge_graphs [G1; G2] ≠ merge_graphs [G2; G1]).
Proof.
  split; [done|]. split; [|split; [|split]].
  - intros G HG. unfold merge_graphs. cbn [fold_left].
    rewrite merge_into_spec by apply empty_graph_closed.
    apply DiGraph_eq; cbn [nodes edges empty_graph].
    + rewrite last_wins_empty_r.
      rewrite <- (right_id_L ∅ (∪) (endpoints (edges G))).
      rewrite with_endpoints_present; [apply with_endpoints_empty|].
      intros n (u & v & Huv & [->| ->])%elem_of_endpoints; by apply (HG u v).
    + apply last_wins_empty_r.
  - intros gs gs' Hp. unfold merge_graphs.
    destruct (merge_fold_dom gs empty_graph empty_graph_closed) as [-> ->].
    destruct (merge_fold_dom gs' empty_graph empty_graph_closed) as [-> ->].
    by rewrite (union_list_fmap_perm node_ids _ _ Hp),
               (union_list_fmap_perm edge_keys _ _ Hp).
  - intros gs g. rewrite merge_graphs_snoc.
    rewrite merge_into_spec by apply merge_graphs_closed. cbn [nodes edges].
    split.
    + intros n a Ha. rewrite lookup_with_endpoints, lookup_last_wins, Ha.
      destruct (nodes (merge_graphs gs) !! n) as [old|]; eexists; split; try done.
      apply map_union_subseteq_l.
    + intros e a Ha. rewrite lookup_last_wins, Ha.
      destruct (edges (merge_graphs gs) !! e) as [old|]; eexists; split; try done.
      apply map_union_subseteq_l.
  - exists {| nodes := {[ u8 "A" := {[ u8 "theme" := u8 "event" ]} ]}; edges := ∅ |},
           {| nodes := {[ u8 "A" := {[ u8 "theme" := u8 "cultural" ]} ]}; edges := ∅ |}.
    split; [|split; [|split]].
    + intros u v [a Ha]. cbn [edges] in Ha. by rewrite lookup_empty in Ha.
    + intros u v [a Ha]. cbn [edges] in Ha. by rewrite lookup_empty in Ha.
    + by vm_compute.
    + intros Heq.
      apply (f_equal (λ G, nodes G !! u8 "A" ≫= (.!! u8 "theme"))) in Heq.
      vm_compute in Heq. discriminate.
Qed.

Lemma add_node_closed G n a : closed G → closed (add_node G n a).
Proof.
  intros HG u v Huv. cbn [add_node nodes edges] in *.
  destruct (HG u v Huv). split; apply lookup_insert_is_Some';  by right.
Qed.

Lemma add_edge_closed G u v a : closed G → closed (add_edge G u v a).
Proof.
  intros HG u' v' Huv. rewrite add_edge_edges in Huv. rewrite add_edge_nodes.
  assert (∀ n, (n = u ∨ n = v) ∨ is_Some (nodes G !! n) →
               is_Some (with_endpoints (nodes G) {[u; v]} !! n)) as Hin.
  { intros n Hn. apply elem_of_dom. rewrite dom_with_endpoints.
    apply elem_of_union. destruct Hn as [Hn|Hn].
    - right. by apply elem_of_pair.
    - left. by apply elem_of_dom. }
  apply lookup_insert_is_Some in Huv as [[= <- <-]|[_ Huv]].
  - split; apply Hin; left; eauto.
  - destruct (HG u' v' Huv). split; apply Hin; by right.
Qed.

Lemma add_triple_closed G t theme tbox source_file G' :
  add_triple G t theme tbox source_file = Ok G' → closed G → closed G'.
Proof.
  unfold add_triple, getitem.
  destruct (t !! u8 "subject") as [s|]; [|discriminate].
  destruct (t !! u8 "predicate") as [p|]; [|discriminate].
  destruct (t !! u8 "object") as [o|]; [|discriminate].
  cbn [mbind result_bind]. intros [= <-] HG.
  apply add_edge_closed.
  repeat match goal with
         | |- closed (if ?b then _ else _) => destruct b
         | |- closed (add_node _ _ _) => apply add_node_closed
         end; done.
Qed.

Lemma add_triples_closed triples : ∀ G theme tbox source_file G',
  add_triples G triples theme tbox source_file = Ok G' → closed G → closed G'.
Proof.
  induction triples as [|t rest IH]; intros G theme tbox src G'; simpl.
  - by intros [= <-].
  - destruct (add_triple G t theme tbox src) as [G1|e] eqn:H1; [|discriminate].
    cbn [mbind result_bind]. intros Hrest HG.
    eapply IH; [exact Hrest|]. by eapply add_triple_closed.
Qed.

Lemma merge_graphs_properties_witness :
  merge_graphs
    [add_edge empty_graph (u8 "A") (u8 "B") {[ u8 "predicate" := u8 "occurredIn" ]}]
  = add_edge empty_graph (u8 "A") (u8 "B") {[ u8 "predicate" := u8 "occurredIn" ]}.
Proof.
  destruct merge_graphs_properties as (_ & Hone & _).
  apply Hone. apply add_edge_closed, empty_graph_closed.
Defined.

(** The guarded [add_node] of [add_triple]. *)
Lemma create_node_lookup G n0 attr n :
  nodes (if negb (has_node G n0) then add_node G n0 attr else G) !! n =
    match nodes G !! n with
    | Some a => Some a
    | None => if decide (n = n0) then Some attr else None
    end.
Proof.
  unfold has_node. destruct (has_key n0 (nodes G)) eqn:Hk; cbn [negb].
  - apply has_key_true in Hk as [a0 Hk].
    destruct (nodes G !! n) eqn:Hn; [done|].
    rewrite decide_False; [done|]. intros ->. congruence.
  - apply has_key_false in Hk. unfold add_node. cbn [nodes].
    rewrite Hk. cbn [default]. rewrite dict_update_empty.
    destruct (decide (n = n0)) as [->|Hne].
    + by rewrite lookup_insert_eq, Hk.
    + rewrite lookup_insert_ne by done. by destruct (nodes G !! n).
Qed.

Lemma add_triple_nodes_lookup G t theme tbox source_file s p o :
  t !! u8 "subject" = Some s → t !! u8 "predicate" = Some p →
  t !! u8 "object" = Some o →
  ∃ G', add_triple G t theme tbox source_file = Ok G'
    ∧ ∀ n, nodes G' !! n =
        match nodes G !! n with
        | Some a => Some a
        | None =>
            if decide (n = normalize_label s)
            then Some (node_attrs (normalize_label s) theme tbox source_file)
            else if decide (n = normalize_label o)
            then Some (node_attrs (normalize_label o) theme tbox source_file)
            else None
        end.
Proof.
  intros Hs Hp Ho. unfold add_triple, getitem. rewrite Hs, Hp, Ho.
  cbn [mbind result_bind]. eexists. split; [reflexivity|]. intros n.
  rewrite add_edge_nodes, lookup_with_endpoints, !create_node_lookup.
  destruct (nodes G !! n); [done|].
  destruct (decide (n = normalize_label s)) as [->|Hns]; [done|].
  destruct (decide (n = normalize_label o)) as [->|Hno]; [done|].
  rewrite decide_False; [done|]. rewrite elem_of_pair. by intros [|].
Qed.

(** C1 (as amended). [add_triple] on a triple with its three keys
    returns a graph in which every node that was already present, the
    subject and the object among them, has exactly the attributes it had:
    theme, ontology class, source and label are set on the nodes the call
    creates and on no other. The nodes are keyed by their id: the node set
    grows by the normalised subject and object labels only, and when both
    are present already the node dictionary is unchanged. *)
Theorem add_triple_keeps_existing_nodes G t theme tbox source_file s p o :
  t !! u8 "subject" = Some s → t !! u8 "predicate" = Some p →
  t !! u8 "object" = Some o →
  ∃ G', add_triple G t theme tbox source_file = Ok G'
    ∧ (∀ n a, nodes G !! n = Some a → nodes G' !! n = Some a)
    ∧ dom (nodes G') = dom (nodes G) ∪ {[normalize_label s; normalize_label o]}
    ∧ (nodes G !! normalize_label s = None →
         nodes G' !! normalize_label s
         = Some (node_attrs (normalize_label s) theme tbox source_file))
    ∧ (nodes G !! normalize_label o = None →
         nodes G' !! normalize_label o
         = Some (node_attrs (normalize_label o) theme tbox source_file))
    ∧ (is_Some (nodes G !! normalize_label s) →
       is_Some (nodes G !! normalize_label o) → nodes G' = nodes G).
Proof.
  intros Hs Hp Ho.
  destruct (add_triple_nodes_lookup G t theme tbox source_file s p o Hs Hp Ho)
    as (G' & HG' & Hlook).
  exists G'. split; [done|]. split; [|split; [|split; [|split]]].
  - intros n a Hn. by rewrite Hlook, Hn.
  - apply set_eq. intros n.
    rewrite elem_of_union, elem_of_pair, !elem_of_dom, Hlook.
    destruct (nodes G !! n) as [a|].
    + split; [by left|by eauto].
    + destruct (decide (n = normalize_label s)) as [->|Hns];
        [split; [by right; left|by eauto]|].
      destruct (decide (n = normalize_label o)) as [->|Hno];
        [split; [by right; right|by eauto]|].
      split; [by intros [? [=]]|]. by intros [[? [=]]|[|]].
  - intros Hnone. by rewrite Hlook, Hnone, decide_True.
  - intros Hnone. rewrite Hlook, Hnone.
    destruct (decide (normalize_label o = normalize_label s)) as [->|]; [done|].
    by rewrite decide_True.
  - intros [as_ Has] [ao Hao]. apply map_eq. intros n. rewrite Hlook.
    destruct (nodes G !! n) eqn:Hn; [done|].
    rewrite !decide_False; [done| |]; intros ->; congruence.
Qed.

Lemma add_triple_keeps_existing_nodes_witness :
  ∃ G', add_triple
          (add_node empty_graph (u8 "Paris") {[ u8 "theme" := u8 "event" ]})
          (list_to_map [(u8 "subject", u8 " Climate   summit ");
                        (u8 "predicate", u8 "occurredIn");
                        (u8 "object", u8 "Paris")])
          (u8 "cultural") (u8 "dbo:CulturalHeritageObject") (u8 "b.pdf") = Ok G'
    ∧ nodes G' !! u8 "Paris" = Some {[ u8 "theme" := u8 "event" ]}
    ∧ nodes G' !! u8 "Climate summit"
      = Some (node_attrs (u8 "Climate summit") (u8 "cultural")
                (u8 "dbo:CulturalHeritageObject") (u8 "b.pdf")).
Proof.
  destruct (add_triple_keeps_existing_nodes
              (add_node empty_graph (u8 "Paris") {[ u8 "theme" := u8 "event" ]})
              (list_to_map [(u8 "subject", u8 " Climate   summit ");
                            (u8 "predicate", u8 "occurredIn");
                            (u8 "object", u8 "Paris")])
              (u8 "cultural") (u8 "dbo:CulturalHeritageObject") (u8 "b.pdf")
              (u8 " Climate   summit ") (u8 "occurredIn") (u8 "Paris"))
    as (G' & HG' & Hkeep & _ & Hnew & _); [reflexivity..|].
  exists G'. split; [exact HG'|]. split.
  - apply Hkeep. reflexivity.
  - apply Hnew. reflexivity.
Defined.

(** C1, as the specification states it, fails: a node that is already
    present is not updated. The graph built from a triple with the theme
    "event" keeps that theme, class and source on the node of its subject
    when the same subject is added again with the theme "cultural". *)
Lemma add_triple_does_not_update_node :
  ∃ G G',
    build_graph_from_triples
      [list_to_map [(u8 "subject", u8 "Petra"); (u8 "predicate", u8 "occurredIn");
                    (u8 "object", u8 "Jordan")]]
      (u8 "event") (u8 "dbo:Event") (u8 "a.pdf") = Ok G
    ∧ has_node G (u8 "Petra") = true
    ∧ add_triple G
        (list_to_map [(u8 "subject", u8 "Petra"); (u8 "predicate", u8 "originatedIn");
                      (u8 "object", u8 "Nabataea")])
        (u8 "cultural") (u8 "dbo:CulturalHeritageObject") (u8 "b.pdf") = Ok G'
    ∧ nodes G' !! u8 "Petra"
      = Some (node_attrs (u8 "Petra") (u8 "event") (u8 "dbo:Event") (u8 "a.pdf"))
    ∧ nodes G' !! u8 "Petra"
      ≠ Some (node_attrs (u8 "Petra") (u8 "cultural")
                (u8 "dbo:CulturalHeritageObject") (u8 "b.pdf")).
Proof.
  eexists. eexists. split; [vm_compute; reflexivity|].
  split; [vm_compute; reflexivity|].
  split; [vm_compute; reflexivity|].
  split; vm_compute; [reflexivity|discriminate].
Qed.

End Graphs.

(** ** The Turtle export of one event triple *)

Section TurtleExample.

Import TBoxLoader.

Lemma turtle_triple_climate (ls : list str) :
  turtle_triple UCD.nfc (u8 "dbo:Event")
    {| lines := ls; event_map := ∅; event_counter := 1 |} climate_triple
  = Ok {| lines := ls ++ climate_lines;
          event_map := {[ u8 "مؤتمر المناخ" := u8 ":Event_1" ]};
          event_counter := 2 |}.
Proof. vm_compute. reflexivity. Qed.

Lemma turtle_output_climate (tbox_template : str) :
  turtle_output UCD.nfc tbox_template (u8 "dbo:Event") [climate_triple]
  = Ok (join [LF]
          (([header; u8 "# Ontology Template Used"]
            ++ map (λ l, u8 "# " ++ l) (split LF tbox_template) ++ [[]])
           ++ climate_lines)).
Proof.
  unfold turtle_output. cbn [turtle_triples].
  rewrite turtle_triple_climate. reflexivity.
Qed.

Lemma climate_lines_split :
  concat (map (split LF) climate_lines)
  = [ u8 ":Event_1 a dbo:Event .";
      u8 ":Event_1 rdfs:label " ++ QUOTE ++ u8 "مؤتمر المناخ" ++ QUOTE ++ u8 "@ar .";
      u8 ":باريس rdfs:label " ++ QUOTE ++ u8 "باريس" ++ QUOTE ++ u8 "@ar .";
      u8 ":Event_1 onto:occurredIn :باريس ."; [] ].
Proof. vm_compute. reflexivity. Qed.

Lemma climate_lines_in_output (front : list str) (line : str) :
  line ∈ concat (map (split LF) climate_lines) →
  line ∈ split LF (join [LF] (front ++ climate_lines)).
Proof.
  intros Hin. rewrite split_join by (by destruct front).
  rewrite map_app, concat_app. apply elem_of_app. by right.
Qed.

(** C6. For the single triple with subject "مؤتمر المناخ", predicate
    "occurredIn" and object "باريس", the theme "event" and its class
    dbo:Event, the text that [export_turtle] produces has the lines
    [:Event_1 a dbo:Event .], [:Event_1 onto:occurredIn :باريس .] and
    [:Event_1 rdfs:label "مؤتمر المناخ"@ar .], whether the template file
    is there or missing; [export_turtle] hands this text to the operating
    system and returns the path when the directory and the file can be
    written. *)
Theorem export_turtle_climate_example
    (os_makedirs : filesystem → str → result filesystem)
    (os_write : filesystem → str → str → result filesystem)
    (fs : filesystem) (save_path : str) :
  can_read fs (path_join ONTOLOGY_DIR (u8 "event.tbox.ttl")) = true →
  ∃ tbox_template output,
    load_tbox_template fs (u8 "event") None = Ok (tbox_template, u8 "dbo:Event")
    ∧ turtle_output UCD.nfc tbox_template (u8 "dbo:Event") [climate_triple]
      = Ok output
    ∧ u8 ":Event_1 a dbo:Event ." ∈ split LF output
    ∧ u8 ":Event_1 onto:occurredIn :باريس ." ∈ split LF output
    ∧ u8 ":Event_1 rdfs:label " ++ QUOTE ++ u8 "مؤتمر المناخ" ++ QUOTE ++ u8 "@ar ."
      ∈ split LF output
    ∧ ∀ fs1 fs2,
        os_makedirs fs (dirname save_path) = Ok fs1 →
        os_write fs1 save_path output = Ok fs2 →
        export_turtle UCD.nfc os_makedirs os_write fs [climate_triple]
          (u8 "dbo:Event") (u8 "event") save_path
        = Ok (save_path, fs2).
Proof.
  intros Htemplate.
  assert (∃ tbox_template, load_tbox_file fs (u8 "event.tbox.ttl") = Ok tbox_template)
    as [tbox_template Hload].
  { unfold load_tbox_file. unfold can_read in Htemplate.
    destruct (fs !! _) as [[content| |]|]; by eauto. }
  exists tbox_template. eexists.
  unfold export_turtle, load_tbox_template. rewrite decide_True by done.
  rewrite Hload. cbn [mbind result_bind]. rewrite turtle_output_climate.
  split; [done|]. split; [reflexivity|].
  split; [|split; [|split]].
  1-3: apply climate_lines_in_output; rewrite climate_lines_split.
  - apply list_elem_of_here.
  - do 3 apply list_elem_of_further. apply list_elem_of_here.
  - apply list_elem_of_further, list_elem_of_here.
  - intros fs1 fs2 Hmk Hwr. cbn [mbind result_bind].
    rewrite Hmk. cbn [mbind result_bind]. by rewrite Hwr.
Qed.

Lemma export_turtle_climate_example_witness :
  ∃ output,
    export_turtle UCD.nfc
      (λ fs d, Ok fs) (λ fs p content, Ok (<[p := File content]> fs))
      ∅ [climate_triple] (u8 "dbo:Event") (u8 "event") (u8 "triples/graph.ttl")
    = Ok (u8 "triples/graph.ttl", <[u8 "triples/graph.ttl" := File output]> ∅)
    ∧ u8 ":Event_1 a dbo:Event ." ∈ split LF output.
Proof.
  assert (can_read ∅ (path_join ONTOLOGY_DIR (u8 "event.tbox.ttl")) = true)
    as Hread by reflexivity.
  destruct (export_turtle_climate_example
              (λ fs d, Ok fs) (λ fs p content, Ok (<[p := File content]> fs))
              ∅ (u8 "triples/graph.ttl") Hread)
    as (tbox_template & output & _ & _ & Hline & _ & _ & Hreturn).
  exists output. split; [|exact Hline].
  by apply (Hreturn ∅).
Defined.

End TurtleExample.

(** ** Text normalisation *)

Section Sublists.

Implicit Types (s : str) (P Q : N → bool).

Lemma sublist_Forall_bool P (l k : str) :
  l `sublist_of` k → Forall (λ c, P c = true) k → Forall (λ c, P c = true) l.
Proof.
  induction 1 as [|x l k _ IH|x l k _ IH]; intros Hk; [done| |].
  - inversion Hk; subst. constructor; [done|]. by apply IH.
  - inversion Hk; subst. by apply IH.
Qed.

Lemma filter_mono_sublist P (l k : str) :
  l `sublist_of` k → List.filter P l `sublist_of` List.filter P k.
Proof.
  induction 1 as [|x l k _ IH|x l k _ IH]; simpl; [constructor| |].
  - destruct (P x); [by constructor|done].
  - destruct (P x); [by constructor|done].
Qed.

Lemma filter_filter_implied P Q s :
  (∀ c, P c = true → Q c = true) →
  List.filter P (List.filter Q s) = List.filter P s.
Proof.
  intros HPQ. induction s as [|c r IH]; [done|]. simpl.
  destruct (Q c) eqn:HQ; simpl.
  - by rewrite IH.
  - destruct (P c) eqn:HP; [|done]. apply HPQ in HP. congruence.
Qed.

Lemma filter_replace_other P old new s :
  P old = false → List.filter P new = [] →
  List.filter P (replace old new s) = List.filter P s.
Proof.
  intros Hold Hnew. unfold replace. induction s as [|c r IH]; [done|].
  cbn [flat_map]. rewrite List.filter_app, IH.
  destruct (N.eqb_spec c old) as [->|_].
  - rewrite Hnew. simpl. by rewrite Hold.
  - simpl. by destruct (P c).
Qed.

Lemma lstrip_sublist s : lstrip s `sublist_of` s.
Proof.
  destruct (lstrip_suffix s) as [ws Hws]. rewrite Hws at 2.
  by apply sublist_inserts_l.
Qed.

Lemma rstrip_prefix s : ∃ ws, s = rstrip s ++ ws.
Proof.
  unfold rstrip. destruct (lstrip_suffix (rev s)) as [ws Hws].
  exists (rev ws). apply (f_equal (@rev N)) in Hws.
  by rewrite rev_involutive, rev_app_distr in Hws.
Qed.

Lemma strip_infix s : ∃ a b, s = a ++ strip s ++ b.
Proof.
  unfold strip. destruct (lstrip_suffix s) as [a Ha].
  destruct (rstrip_prefix (lstrip s)) as [b Hb].
  exists a, b. by rewrite <- Hb.
Qed.

Lemma strip_sublist s : strip s `sublist_of` s.
Proof.
  destruct (strip_infix s) as (a & b & Hs). rewrite Hs at 2.
  by apply sublist_inserts_l, sublist_inserts_r.
Qed.

Lemma squeeze_marks_sublist s : squeeze_marks s `sublist_of` s.
Proof.
  induction s as [|c r IH]; [constructor|]. simpl.
  destruct (sentence_mark c); [|by constructor].
  destruct r as [|d r']; [by constructor|].
  destruct (d =? c); by constructor.
Qed.

Lemma tighten_punctuation_sublist s : tighten_punctuation s `sublist_of` s.
Proof.
  induction s as [|c r IH]; [constructor|]. simpl.
  destruct (isspace c && head_is punctuation (tighten_punctuation r));
    by constructor.
Qed.

Lemma collapse_spaces_filter P s :
  (∀ c, P c = true → isspace c = false) →
  List.filter P (collapse_spaces s) = List.filter P s.
Proof.
  intros HP.
  assert (∀ c, isspace c = true → P c = false) as Hsp.
  { intros c Hc. destruct (P c) eqn:E; [|done]. apply HP in E. congruence. }
  induction s as [|c r IH]; [done|]. cbn [collapse_spaces].
  destruct (isspace c) eqn:Hc.
  - cbn [List.filter]. rewrite (Hsp c Hc).
    destruct r as [|d r']; [by cbn; rewrite Hsp|].
    destruct (isspace d) eqn:Hd; [done|].
    cbn [List.filter]. rewrite (Hsp SP) by done. done.
  - cbn [List.filter]. by rewrite IH.
Qed.

End Sublists.

Section ArabicSteps.

Implicit Types (s : str) (P : N → bool).

Lemma arabic_steps_filter P s :
  (∀ c, P c = true → arabic_pattern c = false) →
  List.filter P (arabic_steps s) = List.filter P s.
Proof.
  intros HP.
  assert (∀ c, arabic_pattern c = true → P c = false) as Har.
  { intros c Hc. destruct (P c) eqn:E; [|done]. apply HP in E. congruence. }
  unfold arabic_steps. cbn [fold_left alef_map fst snd].
  rewrite filter_filter_implied.
  - rewrite !filter_replace_other; try done; try (by apply Har);
      cbn [List.filter]; by rewrite Har.
  - intros c Hc. apply HP in Hc. revert Hc.
    unfold arabic_pattern, diacritics. char_cases; done.
Qed.

Lemma normalize_arabic_filter NFC P x :
  (∀ c, P c = true → arabic_pattern c = false) →
  List.filter P (normalize_arabic NFC x) = List.filter P (NFC x).
Proof.
  intros HP. unfold normalize_arabic.
  destruct (negb (existsb arabic_pattern (NFC x))); [done|].
  by apply arabic_steps_filter.
Qed.

End ArabicSteps.

(** *** What [clean_text] keeps *)

Section Kept.

Implicit Types (s : str) (P : N → bool).

Lemma lstrip_filter P s :
  (∀ c, P c = true → isspace c = false) →
  List.filter P (lstrip s) = List.filter P s.
Proof.
  intros HP. induction s as [|c r IH]; [done|]. cbn [lstrip].
  destruct (isspace c) eqn:Hc; [|done]. rewrite IH. cbn [List.filter].
  destruct (P c) eqn:E; [|done]. apply HP in E. congruence.
Qed.

Lemma strip_filter P s :
  (∀ c, P c = true → isspace c = false) →
  List.filter P (strip s) = List.filter P s.
Proof.
  intros HP. unfold strip, rstrip.
  rewrite List.filter_rev, lstrip_filter, <- List.filter_rev by done.
  rewrite rev_involutive. by apply lstrip_filter.
Qed.

Lemma tighten_punctuation_filter P s :
  (∀ c, P c = true → isspace c = false) →
  List.filter P (tighten_punctuation s) = List.filter P s.
Proof.
  intros HP. induction s as [|c r IH]; [done|]. cbn [tighten_punctuation].
  destruct (isspace c && head_is punctuation (tighten_punctuation r)) eqn:E.
  - apply andb_true_iff in E as [Hc _]. rewrite IH. cbn [List.filter].
    destruct (P c) eqn:E; [|done]. apply HP in E. congruence.
  - cbn [List.filter]. by rewrite IH.
Qed.

Lemma squeeze_marks_filter P s :
  (∀ c, P c = true → sentence_mark c = false) →
  List.filter P (squeeze_marks s) = List.filter P s.
Proof.
  intros HP.
  assert (∀ c, sentence_mark c = true → P c = false) as Hm.
  { intros c Hc. destruct (P c) eqn:E; [|done]. apply HP in E. congruence. }
  induction s as [|c r IH]; [done|]. cbn [squeeze_marks].
  destruct (sentence_mark c) eqn:Hc.
  - destruct r as [|d r'].
    + done.
    + destruct (d =? c).
      * rewrite IH. cbn [List.filter]. by rewrite (Hm c Hc).
      * cbn [List.filter]. rewrite (Hm c Hc). apply IH.
  - cbn [List.filter]. by rewrite IH.
Qed.

Lemma clean_text_plain NFC x :
  List.filter plain (clean_text NFC x)
  = if truthy x then List.filter plain (NFC x) else [].
Proof.
  assert (∀ c, plain c = true → arabic_pattern c = false) as Har.
  { intros c [[[H _]%andb_true_iff _]%andb_true_iff _]%andb_true_iff.
    by apply negb_true_iff. }
  assert (∀ c, plain c = true → isspace c = false) as Hsp.
  { intros c [[[_ H]%andb_true_iff _]%andb_true_iff _]%andb_true_iff.
    by apply negb_true_iff. }
  assert (∀ c, plain c = true → negb (control c) = true) as Hctl.
  { by intros c [[_ H]%andb_true_iff _]%andb_true_iff. }
  assert (∀ c, plain c = true → sentence_mark c = false) as Hmk.
  { intros c [_ H]%andb_true_iff. by apply negb_true_iff. }
  unfold clean_text. destruct (truthy x); [|done]. cbn [negb].
  rewrite strip_filter, tighten_punctuation_filter, squeeze_marks_filter by done.
  unfold normalize_english.
  rewrite strip_filter, collapse_spaces_filter, filter_filter_implied by done.
  by apply normalize_arabic_filter.
Qed.

End Kept.

(** C3 (as amended). [normalize_arabic] changes text outside the Arabic
    block U+0600-U+06FF only through its NFC step: the code points outside
    the block are, in order, those of the NFC form of the input, and so
    those of the input when it is in NFC already. [clean_text] deletes
    characters and rewrites white space in text of any script; what it
    keeps of the characters that are neither Arabic nor white space is a
    subsequence of those of the NFC form of the input, and of the
    characters that are neither Arabic, nor white space, nor control
    characters, nor sentence marks it keeps every one: they are, in
    order, exactly those of the NFC form of the input. *)
Theorem normalization_outside_arabic (NFC : str → str) (x : str) :
  non_arabic (normalize_arabic NFC x) = non_arabic (NFC x)
  ∧ (NFC x = x → non_arabic (normalize_arabic NFC x) = non_arabic x)
  ∧ List.filter solid (clean_text NFC x) `sublist_of` List.filter solid (NFC x)
  ∧ List.filter plain (clean_text NFC x)
    = (if truthy x then List.filter plain (NFC x) else []).
Proof.
  assert (non_arabic (normalize_arabic NFC x) = non_arabic (NFC x)) as Hna.
  { apply normalize_arabic_filter. intros c Hc. by apply negb_true_iff. }
  split; [done|]. split; [intros Hx; by rewrite Hna, Hx|].
  split; [|apply clean_text_plain].
  unfold clean_text. destruct (negb (truthy x)); [apply sublist_nil_l|].
  rewrite <- (normalize_arabic_filter NFC solid x).
  2:{ intros c [Hc _]%andb_true_iff. by apply negb_true_iff. }
  etrans.
  { apply filter_mono_sublist.
    etrans; [apply strip_sublist|].
    etrans; [apply tighten_punctuation_sublist|].
    apply squeeze_marks_sublist. }
  unfold normalize_english.
  etrans; [apply filter_mono_sublist, strip_sublist|].
  rewrite collapse_spaces_filter.
  2:{ intros c [_ Hc]%andb_true_iff. by apply negb_true_iff. }
  apply filter_mono_sublist, filter_sublist.
Qed.

Lemma normalization_outside_arabic_witness :
  non_arabic (normalize_arabic UCD.nfc (u8 "قال hello ـ"))
  = non_arabic (u8 "قال hello ـ").
Proof.
  apply (normalization_outside_arabic UCD.nfc (u8 "قال hello ـ")).
  reflexivity.
Defined.

(** C3, as the specification states it, fails. The NFC step of
    [normalize_arabic] composes the Latin letter e with a following
    combining acute accent, and [clean_text] collapses the two blanks
    between two Latin letters. *)
Lemma normalization_alters_latin_text :
  (normalize_arabic UCD.nfc [0x65; 0x301] = [0xE9]
   ∧ non_arabic (normalize_arabic UCD.nfc [0x65; 0x301]) ≠ non_arabic [0x65; 0x301])
  ∧ (clean_text UCD.nfc (u8 "a  b") = u8 "a b"
     ∧ non_arabic (clean_text UCD.nfc (u8 "a  b")) ≠ non_arabic (u8 "a  b")).
Proof. repeat split; vm_compute; discriminate. Qed.

(** *** The composition model on Basic Latin *)

Section UCDFacts.

Implicit Types (s : str) (c : N).

Lemma combining_ascii c : c < 0x80 → UCD.combining c = 0.
Proof. intros Hc. unfold UCD.combining. char_cases; done. Qed.

Lemma decomposition_ascii c : c < 0x80 → UCD.decomposition c = [c].
Proof. intros Hc. unfold UCD.decomposition. char_cases; done. Qed.

Lemma composite_ascii l c : c < 0x80 → UCD.composite l c = None.
Proof.
  intros Hc. unfold UCD.composite.
  repeat match goal with
         | |- context [c =? ?b] => destruct (N.eqb_spec c b); [lia|]
         end.
  by rewrite !andb_false_r.
Qed.

Lemma decompose_ascii s : Forall (λ c, c < 0x80) s → UCD.decompose s = s.
Proof.
  unfold UCD.decompose. induction 1 as [|c r Hc _ IH]; [done|].
  cbn [flat_map]. by rewrite decomposition_ascii, IH.
Qed.

Lemma reorder_ascii s : Forall (λ c, c < 0x80) s → UCD.reorder s = s.
Proof.
  unfold UCD.reorder. induction 1 as [|c r Hc Hr IH]; [done|].
  cbn [foldr]. rewrite IH. destruct Hr as [|d r' Hd _]; [done|].
  cbn [UCD.insert_mark]. by rewrite (combining_ascii d Hd).
Qed.

Lemma compose_go_ascii s : ∀ done st,
  Forall (λ c, c < 0x80) s →
  UCD.compose_go done st [] s = done ++ option_list st ++ s.
Proof.
  induction s as [|c r IH]; intros done st Hs; [simpl; by rewrite app_nil_r|].
  inversion Hs as [|? ? Hc Hr]; subst. cbn [UCD.compose_go existsb].
  rewrite (combining_ascii c Hc). cbn [N.eqb].
  destruct st as [l|].
  - rewrite (composite_ascii l c Hc), IH by done. cbn [option_list].
    by rewrite <- !app_assoc.
  - rewrite IH by done. cbn [option_list]. by rewrite app_nil_r.
Qed.

Lemma nfc_ascii s : Forall (λ c, c < 0x80) s → UCD.nfc s = s.
Proof.
  intros Hs. unfold UCD.nfc, UCD.compose.
  rewrite decompose_ascii, reorder_ascii by done.
  by rewrite compose_go_ascii.
Qed.

End UCDFacts.

(** *** Fixed points of the normalisers *)

Section FixedPoints.

Implicit Types (s a b : str) (c : N) (P : N → bool) (R : N → str → bool).

Lemma replace_app old new a b :
  replace old new (a ++ b) = replace old new a ++ replace old new b.
Proof. apply flat_map_app. Qed.

Lemma arabic_steps_app a b :
  arabic_steps (a ++ b) = arabic_steps a ++ arabic_steps b.
Proof.
  unfold arabic_steps. cbn [fold_left alef_map fst snd].
  by rewrite !replace_app, List.filter_app.
Qed.

Lemma arabic_steps_single c :
  Forall (λ d, folded d = true) (arabic_steps [c])
  ∧ (folded c = true → arabic_steps [c] = [c]).
Proof.
  unfold folded, TATWEEL, ALEF. cbn [existsb alef_map fst].
  destruct (N.eqb_spec c 0x640) as [->|H1]; [by vm_compute|].
  destruct (N.eqb_spec c 0x625) as [->|H2]; [by vm_compute; repeat constructor|].
  destruct (N.eqb_spec c 0x623) as [->|H3]; [by vm_compute; repeat constructor|].
  destruct (N.eqb_spec c 0x622) as [->|H4]; [by vm_compute; repeat constructor|].
  destruct (N.eqb_spec c 0x671) as [->|H5]; [by vm_compute; repeat constructor|].
  destruct (N.eqb_spec c 0x649) as [->|H6]; [by vm_compute; repeat constructor|].
  destruct (N.eqb_spec c 0x629) as [->|H7]; [by vm_compute; repeat constructor|].
  cbn [orb].
  assert (arabic_steps [c] = if diacritics c then [] else [c]) as ->.
  { unfold arabic_steps, replace, TATWEEL, ALEF.
    cbn [fold_left alef_map fst snd flat_map app].
    repeat match goal with
           | |- context [c =? ?k] =>
               rewrite (proj2 (N.eqb_neq c k)) by done; cbn [flat_map app]
           end.
    cbn [List.filter]. by destruct (diacritics c). }
  destruct (diacritics c) eqn:Hd; cbn [negb].
  - split; [constructor|done].
  - split; [|done]. repeat constructor.
    unfold folded, TATWEEL. cbn [existsb alef_map fst]. rewrite Hd.
    repeat match goal with
           | |- context [c =? ?k] => rewrite (proj2 (N.eqb_neq c k)) by done
           end.
    done.
Qed.

Lemma arabic_steps_folded s : Forall (λ c, folded c = true) (arabic_steps s).
Proof.
  induction s as [|c r IH]; [constructor|].
  change (c :: r) with ([c] ++ r). rewrite arabic_steps_app.
  apply Forall_app. split; [apply arabic_steps_single|done].
Qed.

Lemma arabic_steps_fixed s :
  Forall (λ c, folded c = true) s → arabic_steps s = s.
Proof.
  induction 1 as [|c r Hc _ IH]; [done|].
  change (c :: r) with ([c] ++ r). rewrite arabic_steps_app, IH.
  by rewrite (proj2 (arabic_steps_single c) Hc).
Qed.

Lemma arabic_steps_idempotent s : arabic_steps (arabic_steps s) = arabic_steps s.
Proof. apply arabic_steps_fixed, arabic_steps_folded. Qed.

Lemma folded_outside_arabic c : arabic_pattern c = false → folded c = true.
Proof.
  unfold arabic_pattern, folded, diacritics, TATWEEL.
  cbn [existsb alef_map fst]. char_cases; done.
Qed.

Lemma no_arabic_folded s :
  existsb arabic_pattern s = false → Forall (λ c, folded c = true) s.
Proof.
  induction s as [|c r IH]; [constructor|]. cbn [existsb].
  intros [Hc Hr]%orb_false_iff. constructor; [|by apply IH].
  by apply folded_outside_arabic.
Qed.

Lemma normalize_arabic_folded NFC x :
  Forall (λ c, folded c = true) (normalize_arabic NFC x).
Proof.
  unfold normalize_arabic.
  destruct (existsb arabic_pattern (NFC x)) eqn:Har; cbn [negb].
  - apply arabic_steps_folded.
  - by apply no_arabic_folded.
Qed.

Lemma normalize_arabic_fixed NFC y :
  NFC y = y → Forall (λ c, folded c = true) y → normalize_arabic NFC y = y.
Proof.
  intros Hn Hy. unfold normalize_arabic. rewrite Hn.
  destruct (negb (existsb arabic_pattern y)); [done|].
  by apply arabic_steps_fixed.
Qed.

Lemma ascii_no_arabic s :
  Forall (λ c, c < 0x80) s → existsb arabic_pattern s = false.
Proof.
  induction 1 as [|c r Hc _ IH]; [done|]. cbn [existsb]. rewrite IH.
  unfold arabic_pattern. char_cases; done.
Qed.

(** **** What the later passes keep *)

Lemma filter_Forall P s : Forall (λ c, P c = true) (List.filter P s).
Proof.
  apply Forall_forall. intros c Hc.
  by apply list_elem_of_In, filter_In in Hc as [_ Hc].
Qed.

Lemma filter_fixed P s : Forall (λ c, P c = true) s → List.filter P s = s.
Proof.
  induction 1 as [|c r Hc _ IH]; [done|]. simpl. by rewrite Hc, IH.
Qed.

Lemma collapse_spaces_Forall P s :
  P SP = true → Forall (λ c, P c = true) s →
  Forall (λ c, P c = true) (collapse_spaces s).
Proof.
  intros HSP. induction 1 as [|c r Hc Hr IH]; [constructor|].
  cbn [collapse_spaces]. destruct (isspace c).
  - destruct r as [|d r']; [by repeat constructor|].
    destruct (isspace d); [done|]. by constructor.
  - by constructor.
Qed.

Lemma normalize_english_Forall P s :
  P SP = true → Forall (λ c, P c = true) s →
  Forall (λ c, P c = true) (normalize_english s).
Proof.
  intros HSP Hs. unfold normalize_english.
  eapply sublist_Forall_bool; [apply strip_sublist|].
  apply collapse_spaces_Forall; [done|].
  eapply sublist_Forall_bool; [apply filter_sublist|done].
Qed.

Lemma adjacent_suffix R a b : adjacent R (a ++ b) = true → adjacent R b = true.
Proof.
  induction a as [|c a IH]; [done|]. cbn [app adjacent].
  intros [_ H]%andb_true_iff. by apply IH.
Qed.

Lemma adjacent_prefix R a b :
  (∀ c r, R c (r ++ b) = true → R c r = true) →
  adjacent R (a ++ b) = true → adjacent R a = true.
Proof.
  intros HR. induction a as [|c a IH]; [done|]. cbn [app adjacent].
  intros [Hc H]%andb_true_iff. by rewrite (HR c a Hc), IH.
Qed.

Lemma head_is_app P r b : head_is P r = true → head_is P (r ++ b) = true.
Proof. by destruct r. Qed.

Lemma single_blank_prefix c r b :
  single_blank c (r ++ b) = true → single_blank c r = true.
Proof.
  unfold single_blank. destruct (isspace c); [|done].
  intros [-> Hh]%andb_true_iff. cbn [andb].
  destruct (head_is isspace r) eqn:Hr; [|done].
  by rewrite (head_is_app _ _ b Hr) in Hh.
Qed.

Lemma no_gap_prefix c r b : no_gap c (r ++ b) = true → no_gap c r = true.
Proof.
  unfold no_gap. destruct (isspace c); [|done]. cbn [andb].
  destruct (head_is punctuation r) eqn:Hr; [|done].
  by rewrite (head_is_app _ _ b Hr).
Qed.

Lemma adjacent_strip R s :
  (∀ c r b, R c (r ++ b) = true → R c r = true) →
  adjacent R s = true → adjacent R (strip s) = true.
Proof.
  intros HR Hs. destruct (strip_infix s) as (a & b & Heq).
  rewrite Heq in Hs. apply adjacent_suffix in Hs.
  eapply adjacent_prefix; [|exact Hs]. intros c r. apply HR.
Qed.

Lemma collapse_spaces_single s :
  adjacent single_blank (collapse_spaces s) = true.
Proof.
  induction s as [|c r IH]; [done|]. cbn [collapse_spaces].
  destruct (isspace c) eqn:Hc.
  - destruct r as [|d r']; [done|].
    destruct (isspace d) eqn:Hd; [done|].
    cbn [adjacent]. rewrite IH, andb_true_r.
    cbn [collapse_spaces]. rewrite Hd. unfold single_blank. cbn. by rewrite Hd.
  - cbn [adjacent]. rewrite IH, andb_true_r. unfold single_blank. by rewrite Hc.
Qed.

Lemma collapse_spaces_fixed s :
  adjacent single_blank s = true → collapse_spaces s = s.
Proof.
  induction s as [|c r IH]; [done|]. cbn [adjacent collapse_spaces].
  intros [Hc Hr]%andb_true_iff. rewrite (IH Hr). unfold single_blank in Hc.
  destruct (isspace c); [|done].
  apply andb_true_iff in Hc as [->%N.eqb_eq Hh].
  destruct r as [|d r']; [done|]. cbn in Hh.
  by destruct (isspace d).
Qed.

Lemma squeeze_marks_head s :
  head_is isspace (squeeze_marks s) = head_is isspace s.
Proof.
  induction s as [|c r IH]; [done|]. cbn [squeeze_marks].
  destruct (sentence_mark c); [|done].
  destruct r as [|d r']; [done|].
  destruct (N.eqb_spec d c) as [->|_]; [|done].
  by rewrite IH.
Qed.

Lemma squeeze_marks_single s :
  adjacent single_blank s = true → adjacent single_blank (squeeze_marks s) = true.
Proof.
  induction s as [|c r IH]; [done|]. cbn [adjacent].
  intros [Hc Hr]%andb_true_iff. specialize (IH Hr).
  assert (adjacent single_blank (c :: squeeze_marks r) = true) as Hkeep.
  { cbn [adjacent]. rewrite IH, andb_true_r.
    unfold single_blank in *. by rewrite squeeze_marks_head. }
  cbn [squeeze_marks]. destruct (sentence_mark c); [|done].
  destruct r as [|d r']; [done|].
  by destruct (d =? c).
Qed.

Lemma tighten_punctuation_head s :
  head_is isspace s = false → head_is isspace (tighten_punctuation s) = false.
Proof.
  destruct s as [|c r]; [done|]. cbn [head_is tighten_punctuation].
  intros Hc. rewrite Hc. cbn [andb head_is]. exact Hc.
Qed.

Lemma tighten_punctuation_single s :
  adjacent single_blank s = true →
  adjacent single_blank (tighten_punctuation s) = true.
Proof.
  induction s as [|c r IH]; [done|]. cbn [adjacent tighten_punctuation].
  intros [Hc Hr]%andb_true_iff. specialize (IH Hr).
  destruct (isspace c && head_is punctuation (tighten_punctuation r)); [done|].
  cbn [adjacent]. rewrite IH, andb_true_r. unfold single_blank in *.
  destruct (isspace c); [|done].
  apply andb_true_iff in Hc as [-> Hh]. cbn [andb].
  apply negb_true_iff in Hh. by rewrite tighten_punctuation_head.
Qed.

Lemma tighten_punctuation_tight s :
  adjacent no_gap (tighten_punctuation s) = true.
Proof.
  induction s as [|c r IH]; [done|]. cbn [tighten_punctuation].
  destruct (isspace c && head_is punctuation (tighten_punctuation r)) eqn:Hc;
    [done|].
  cbn [adjacent]. rewrite IH, andb_true_r. unfold no_gap. by rewrite Hc.
Qed.

Lemma tighten_punctuation_fixed s :
  adjacent no_gap s = true → tighten_punctuation s = s.
Proof.
  induction s as [|c r IH]; [done|]. cbn [adjacent tighten_punctuation].
  intros [Hc Hr]%andb_true_iff. rewrite (IH Hr).
  unfold no_gap in Hc. apply negb_true_iff in Hc. by rewrite Hc.
Qed.

Lemma polish_Forall P a :
  P SP = true → Forall (λ c, P c = true) a → Forall (λ c, P c = true) (polish a).
Proof.
  intros HSP Ha. unfold polish.
  eapply sublist_Forall_bool; [apply strip_sublist|].
  eapply sublist_Forall_bool; [apply tighten_punctuation_sublist|].
  eapply sublist_Forall_bool; [apply squeeze_marks_sublist|].
  by apply normalize_english_Forall.
Qed.

Lemma polish_no_control a :
  Forall (λ c, negb (control c) = true) (polish a).
Proof.
  unfold polish, normalize_english.
  eapply sublist_Forall_bool; [apply strip_sublist|].
  eapply sublist_Forall_bool; [apply tighten_punctuation_sublist|].
  eapply sublist_Forall_bool; [apply squeeze_marks_sublist|].
  eapply sublist_Forall_bool; [apply strip_sublist|].
  apply (collapse_spaces_Forall (λ c, negb (control c))); [done|].
  apply (filter_Forall (λ c, negb (control c))).
Qed.

Lemma polish_single a : adjacent single_blank (polish a) = true.
Proof.
  unfold polish, normalize_english.
  apply adjacent_strip; [apply single_blank_prefix|].
  apply tighten_punctuation_single, squeeze_marks_single.
  apply adjacent_strip; [apply single_blank_prefix|].
  apply collapse_spaces_single.
Qed.

Lemma polish_tight a : adjacent no_gap (polish a) = true.
Proof.
  unfold polish. apply adjacent_strip; [apply no_gap_prefix|].
  apply tighten_punctuation_tight.
Qed.

Lemma polish_fixed y a :
  y = polish a → squeeze_marks y = y → polish y = y.
Proof.
  intros -> Hsq. unfold polish at 1, normalize_english.
  rewrite (filter_fixed (λ c, negb (control c))) by apply polish_no_control.
  rewrite collapse_spaces_fixed by apply polish_single.
  assert (strip (polish a) = polish a) as Hst by apply strip_strip.
  rewrite Hst, Hsq.
  rewrite tighten_punctuation_fixed by apply polish_tight.
  exact Hst.
Qed.

Lemma clean_text_polish NFC x :
  clean_text NFC x = if truthy x then polish (normalize_arabic NFC x) else [].
Proof. unfold clean_text, polish. by destruct (truthy x). Qed.

Lemma clean_text_folded NFC x : Forall (λ c, folded c = true) (clean_text NFC x).
Proof.
  rewrite clean_text_polish. destruct (truthy x); [|constructor].
  apply polish_Forall; [done|]. apply normalize_arabic_folded.
Qed.

Lemma clean_text_fixed NFC x :
  NFC (clean_text NFC x) = clean_text NFC x →
  squeeze_marks (clean_text NFC x) = clean_text NFC x →
  clean_text NFC (clean_text NFC x) = clean_text NFC x.
Proof.
  intros Hn Hsq. rewrite (clean_text_polish NFC (clean_text NFC x)).
  destruct (truthy (clean_text NFC x)) eqn:Hy.
  - rewrite (normalize_arabic_fixed NFC _ Hn (clean_text_folded NFC x)).
    rewrite (clean_text_polish NFC x) in *.
    destruct (truthy x); [|done].
    by apply (polish_fixed _ (normalize_arabic NFC x)).
  - by destruct (clean_text NFC x).
Qed.

Lemma clean_text_ascii NFC x :
  (∀ s, Forall (λ c, c < 0x80) s → NFC s = s) →
  Forall (λ c, c < 0x80) x → Forall (λ c, c < 0x80) (clean_text NFC x).
Proof.
  intros HNFC Hx. rewrite clean_text_polish. destruct (truthy x); [|constructor].
  unfold normalize_arabic. rewrite (HNFC x Hx), (ascii_no_arabic x Hx).
  cbn [negb].
  assert (∀ s, Forall (λ c, c < 0x80) s ↔ Forall (λ c, (c <? 0x80) = true) s) as Hb.
  { intros s. apply Forall_proper; [|done]. intros c. symmetry. apply N.ltb_lt. }
  apply Hb. apply (polish_Forall (λ c, c <? 0x80)); [done|]. by apply Hb.
Qed.

End FixedPoints.

Section Idempotence.

Variable NFC : str → str.

(** Basic Latin text is in NFC. *)
Hypothesis NFC_ascii : ∀ s, Forall (λ c, c < 0x80) s → NFC s = s.

(** C8 (as amended). [normalize_arabic] is the identity on pure-ASCII
    input. Its rewriting steps are idempotent, and
    [normalize_arabic (normalize_arabic x) = normalize_arabic x] whenever
    [normalize_arabic x] is in NFC. [clean_text (clean_text x) = clean_text x]
    whenever [clean_text x] is in NFC and has no sentence mark repeated
    immediately; for pure-ASCII input the second condition alone
    suffices. *)
Theorem normalizers_fixed_points (x : str) :
  (Forall (λ c, c < 0x80) x → normalize_arabic NFC x = x)
  ∧ arabic_steps (arabic_steps x) = arabic_steps x
  ∧ (NFC (normalize_arabic NFC x) = normalize_arabic NFC x →
       normalize_arabic NFC (normalize_arabic NFC x) = normalize_arabic NFC x)
  ∧ (NFC (clean_text NFC x) = clean_text NFC x →
     squeeze_marks (clean_text NFC x) = clean_text NFC x →
       clean_text NFC (clean_text NFC x) = clean_text NFC x)
  ∧ (Forall (λ c, c < 0x80) x →
     squeeze_marks (clean_text NFC x) = clean_text NFC x →
       clean_text NFC (clean_text NFC x) = clean_text NFC x).
Proof.
  split; [|split; [|split; [|split]]].
  - intros Hx. unfold normalize_arabic.
    by rewrite (NFC_ascii x Hx), (ascii_no_arabic x Hx).
  - apply arabic_steps_idempotent.
  - intros Hn. apply normalize_arabic_fixed; [done|].
    apply normalize_arabic_folded.
  - apply clean_text_fixed.
  - intros Hx Hsq. apply clean_text_fixed; [|done].
    by apply NFC_ascii, clean_text_ascii.
Qed.

End Idempotence.

Lemma normalizers_fixed_points_witness :
  normalize_arabic UCD.nfc (u8 "Hello,  world !") = u8 "Hello,  world !"
  ∧ clean_text UCD.nfc (clean_text UCD.nfc (u8 "Hello,  world !"))
    = clean_text UCD.nfc (u8 "Hello,  world !").
Proof.
  destruct (normalizers_fixed_points UCD.nfc nfc_ascii (u8 "Hello,  world !"))
    as (Hid & _ & _ & _ & Hclean).
  split.
  - apply Hid. vm_compute. repeat constructor.
  - apply Hclean; [vm_compute; repeat constructor|reflexivity].
Defined.

(** C8, as the specification states it, fails twice. Removing the Tatweel
    between Alef and a combining Madda leaves a pair that the NFC step of a
    second [normalize_arabic] composes and then folds to a bare Alef; and
    [clean_text] first squeezes repeated marks and then deletes the blank
    between two full stops, so that a second pass squeezes again. *)
Lemma normalizers_not_idempotent :
  (normalize_arabic UCD.nfc [0x627; 0x640; 0x653] = [0x627; 0x653]
   ∧ normalize_arabic UCD.nfc (normalize_arabic UCD.nfc [0x627; 0x640; 0x653])
     = [0x627]
   ∧ normalize_arabic UCD.nfc (normalize_arabic UCD.nfc [0x627; 0x640; 0x653])
     ≠ normalize_arabic UCD.nfc [0x627; 0x640; 0x653])
  ∧ (clean_text UCD.nfc (u8 "a. .") = u8 "a.."
     ∧ clean_text UCD.nfc (clean_text UCD.nfc (u8 "a. .")) = u8 "a."
     ∧ clean_text UCD.nfc (clean_text UCD.nfc (u8 "a. ."))
       ≠ clean_text UCD.nfc (u8 "a. .")).
Proof. repeat split; vm_compute; discriminate. Qed.

(** ** Labels *)

Section Labels.

Import GraphBuilder.

Implicit Types (s w cur : str) (ws : list str) (c : N).

Lemma words_go_end cur :
  words_go cur [] = match cur with [] => [] | _ :: _ => [rev cur] end.
Proof. done. Qed.

Lemma words_go_app_space cur a c b :
  isspace c = true →
  words_go cur (a ++ c :: b) = words_go cur a ++ words_go [] b.
Proof.
  intros Hc. revert cur. induction a as [|x a IH]; intros cur.
  - cbn [app words_go]. rewrite Hc. by destruct cur.
  - cbn [app words_go]. destruct (isspace x).
    + destruct cur; by rewrite IH.
    + apply IH.
Qed.

Lemma words_app_space a c b :
  isspace c = true → words (a ++ c :: b) = words a ++ words b.
Proof. apply words_go_app_space. Qed.

Lemma words_go_word cur w s :
  Forall (λ c, isspace c = false) w →
  words_go cur (w ++ s) = words_go (rev w ++ cur) s.
Proof.
  intros Hw. revert cur. induction Hw as [|c w Hc _ IH]; intros cur; [done|].
  cbn [app words_go]. rewrite Hc, IH. cbn [rev]. by rewrite <- app_assoc.
Qed.

Lemma words_word w : wordlike w → words w = [w].
Proof.
  intros [Hne Hw]. unfold words.
  rewrite <- (app_nil_r w) at 1. rewrite words_go_word by done.
  rewrite app_nil_r, words_go_end.
  destruct (rev w) eqn:Hr.
  - apply (f_equal (@rev N)) in Hr. rewrite rev_involutive in Hr. done.
  - by rewrite <- Hr, rev_involutive.
Qed.

Lemma words_go_wordlike s : ∀ cur,
  Forall (λ c, isspace c = false) cur →
  Forall wordlike (words_go cur s).
Proof.
  assert (∀ cur, cur ≠ [] → Forall (λ c, isspace c = false) cur →
                 wordlike (rev cur)) as Hrev.
  { intros cur Hne Hcur. split.
    - intros Hr. apply (f_equal (@rev N)) in Hr. rewrite rev_involutive in Hr.
      by apply Hne.
    - apply Forall_forall. intros c Hc%list_elem_of_In%in_rev%list_elem_of_In.
      by eapply Forall_forall in Hcur. }
  induction s as [|c r IH]; intros cur Hcur.
  - cbn [words_go]. destruct cur; [constructor|].
    constructor; [|constructor]. by apply Hrev.
  - cbn [words_go]. destruct (isspace c) eqn:Hc.
    + destruct cur as [|x cur]; [by apply IH|].
      constructor; [by apply Hrev|]. by apply IH.
    + apply IH. by constructor.
Qed.

Lemma words_wordlike s : Forall wordlike (words s).
Proof. apply words_go_wordlike. constructor. Qed.

Lemma words_join ws : Forall wordlike ws → words (join [SP] ws) = ws.
Proof.
  induction 1 as [|w ws Hw Hws IH]; [done|].
  destruct ws as [|w' ws]; [by apply words_word|].
  rewrite join_cons. change (w ++ [SP] ++ join [SP] (w' :: ws))
    with (w ++ SP :: join [SP] (w' :: ws)).
  rewrite words_app_space by done. by rewrite IH, words_word.
Qed.

Lemma join_words_tidy ws : Forall wordlike ws → tidy (join [SP] ws).
Proof.
  induction 1 as [|w ws [Hne Hw] Hws IH]; [done|].
  assert (tidy w) as Hwt.
  { split.
    - destruct Hw; [done|]. done.
    - destruct (rev w) as [|c r] eqn:Hr; [done|]. cbn.
      eapply Forall_forall in Hw; [exact Hw|].
      apply list_elem_of_In, in_rev. rewrite Hr. by left. }
  destruct ws as [|w' ws]; [done|].
  rewrite join_cons, app_assoc.
  inversion Hws as [|? ? [Hne' _] _]; subst.
  apply (tidy_app (w ++ [SP]) (join [SP] (w' :: ws))).
  - by destruct w.
  - destruct w'; [done|]. by destruct ws.
  - destruct w; [done|]. apply Hwt.
  - apply IH.
Qed.

Lemma normalize_label_join l : normalize_label l = join [SP] (words l).
Proof.
  unfold normalize_label. apply tidy_strip, join_words_tidy, words_wordlike.
Qed.

(** X1. [normalize_label] is idempotent; its result has no white space at
    either end, and two labels get the same result exactly when they have
    the same words. *)
Theorem normalize_label_normal_form (l l' : str) :
  normalize_label (normalize_label l) = normalize_label l
  ∧ tidy (normalize_label l)
  ∧ words (normalize_label l) = words l
  ∧ (normalize_label l = normalize_label l' ↔ words l = words l').
Proof.
  assert (∀ x, words (normalize_label x) = words x) as Hw.
  { intros x. rewrite normalize_label_join. apply words_join, words_wordlike. }
  split; [|split; [|split]].
  - rewrite (normalize_label_join (normalize_label l)), Hw.
    symmetry. apply normalize_label_join.
  - rewrite normalize_label_join. apply join_words_tidy, words_wordlike.
  - apply Hw.
  - split.
    + intros Heq. by rewrite <- (Hw l), <- (Hw l'), Heq.
    + intros Heq. by rewrite !normalize_label_join, Heq.
Qed.

End Labels.

(** ** More on graph construction *)

Section GraphConstruction.

Import GraphBuilder.

Implicit Types (G : DiGraph) (t : triple) (n u v s p o : str)
  (theme tbox source_file : str).

Lemma add_triple_result G t theme tbox source_file s p o :
  t !! u8 "subject" = Some s → t !! u8 "predicate" = Some p →
  t !! u8 "object" = Some o →
  ∃ G', add_triple G t theme tbox source_file = Ok G'
    ∧ (∀ n, nodes G' !! n =
         match nodes G !! n with
         | Some a => Some a
         | None =>
             if decide (n = normalize_label s)
             then Some (node_attrs (normalize_label s) theme tbox source_file)
             else if decide (n = normalize_label o)
             then Some (node_attrs (normalize_label o) theme tbox source_file)
             else None
         end)
    ∧ edges G'
      = <[(normalize_label s, normalize_label o) :=
            dict_update
              (default ∅ (edges G !! (normalize_label s, normalize_label o)))
              (triple_edge_attrs t theme tbox source_file)]> (edges G).
Proof.
  intros Hs Hp Ho.
  destruct (add_triple_nodes_lookup G t theme tbox source_file s p o Hs Hp Ho)
    as (G' & HG' & Hnodes).
  exists G'. split; [done|]. split; [done|].
  revert HG'. unfold add_triple, getitem, triple_edge_attrs.
  rewrite Hs, Hp, Ho. cbn [mbind result_bind default]. intros [= <-].
  rewrite add_edge_edges. unfold has_node, add_node.
  by destruct (has_key _ (nodes G)); cbn [negb edges nodes];
    destruct (has_key (normalize_label o) _).
Qed.

(** X2. [add_triple] raises [KeyError] for the first of the keys
    "subject", "predicate", "object" that the triple lacks, and returns a
    graph exactly when the triple has all three; the key "span" may be
    missing. *)
Theorem add_triple_key_errors G t theme tbox source_file :
  (t !! u8 "subject" = None →
     add_triple G t theme tbox source_file = Raise (KeyError (u8 "subject")))
  ∧ (is_Some (t !! u8 "subject") → t !! u8 "predicate" = None →
     add_triple G t theme tbox source_file = Raise (KeyError (u8 "predicate")))
  ∧ (is_Some (t !! u8 "subject") → is_Some (t !! u8 "predicate") →
     t !! u8 "object" = None →
     add_triple G t theme tbox source_file = Raise (KeyError (u8 "object")))
  ∧ ((∃ G', add_triple G t theme tbox source_file = Ok G') ↔ complete t).
Proof.
  unfold add_triple, getitem, complete.
  destruct (t !! u8 "subject") as [s|]; cbn [mbind result_bind];
    destruct (t !! u8 "predicate") as [p|]; cbn [mbind result_bind];
    destruct (t !! u8 "object") as [o|]; cbn [mbind result_bind];
    repeat split; intros; try done; try (by eexists);
    repeat match goal with
           | H : is_Some None |- _ => by destruct H
           | H : ∃ _, Raise _ = Ok _ |- _ => by destruct H
           | H : _ ∧ _ |- _ => destruct H
           end.
Qed.

Lemma add_triple_key_errors_witness :
  add_triple empty_graph {[ u8 "subject" := u8 "Petra" ]}
    (u8 "event") (u8 "dbo:Event") (u8 "a.pdf")
  = Raise (KeyError (u8 "predicate")).
Proof.
  destruct (add_triple_key_errors empty_graph {[ u8 "subject" := u8 "Petra" ]}
              (u8 "event") (u8 "dbo:Event") (u8 "a.pdf")) as (_ & Hpred & _).
  apply Hpred; [by eexists|reflexivity].
Defined.

(** X3. [add_triple] writes one edge, keyed by the normalised subject and
    object: after the call that edge carries every attribute of the triple
    (predicate, label, theme, class, span, source) with the new value,
    whatever it carried before, and every other edge is as it was. *)
Theorem add_triple_writes_one_edge G t theme tbox source_file s p o :
  t !! u8 "subject" = Some s → t !! u8 "predicate" = Some p →
  t !! u8 "object" = Some o →
  ∃ G' a,
    add_triple G t theme tbox source_file = Ok G'
    ∧ edges G' !! (normalize_label s, normalize_label o) = Some a
    ∧ triple_edge_attrs t theme tbox source_file ⊆ a
    ∧ a !! u8 "predicate" = Some (normalize_label p)
    ∧ (∀ e, e ≠ (normalize_label s, normalize_label o) →
         edges G' !! e = edges G !! e)
    ∧ dom (edges G') = {[(normalize_label s, normalize_label o)]} ∪ dom (edges G).
Proof.
  intros Hs Hp Ho.
  destruct (add_triple_result G t theme tbox source_file s p o Hs Hp Ho)
    as (G' & HG' & _ & Hedges).
  exists G'. eexists. split; [done|]. rewrite Hedges.
  split; [apply lookup_insert_eq|]. split; [apply map_union_subseteq_l|].
  split.
  - unfold dict_update. apply lookup_union_Some_l.
    unfold triple_edge_attrs, edge_attrs. rewrite Hp. cbn [default].
    by vm_compute.
  - split; [|apply dom_insert_L].
    intros e He. by rewrite lookup_insert_ne.
Qed.

Lemma add_triple_writes_one_edge_witness :
  ∃ G' a,
    add_triple
      (add_edge empty_graph (u8 "Petra") (u8 "Jordan")
         {[ u8 "predicate" := u8 "old" ]})
      (list_to_map [(u8 "subject", u8 "Petra"); (u8 "predicate", u8 "occurredIn");
                    (u8 "object", u8 "Jordan")])
      (u8 "event") (u8 "dbo:Event") (u8 "a.pdf") = Ok G'
    ∧ edges G' !! (u8 "Petra", u8 "Jordan") = Some a
    ∧ a !! u8 "predicate" = Some (u8 "occurredIn").
Proof.
  destruct (add_triple_writes_one_edge
              (add_edge empty_graph (u8 "Petra") (u8 "Jordan")
                 {[ u8 "predicate" := u8 "old" ]})
              (list_to_map [(u8 "subject", u8 "Petra");
                            (u8 "predicate", u8 "occurredIn");
                            (u8 "object", u8 "Jordan")])
              (u8 "event") (u8 "dbo:Event") (u8 "a.pdf")
              (u8 "Petra") (u8 "occurredIn") (u8 "Jordan"))
    as (G' & a & HG' & Ha & _ & Hp & _); [reflexivity..|].
  exists G', a. split; [exact HG'|]. split; [exact Ha|exact Hp].
Defined.

Lemma edge_attrs_dom p theme tbox span source_file :
  dom (edge_attrs p theme tbox span source_file)
  = {[ u8 "label"; u8 "predicate"; u8 "theme"; u8 "tbox"; u8 "span"; u8 "source" ]}.
Proof.
  unfold edge_attrs. cbn [list_to_map foldr uncurry fst snd].
  rewrite !dom_insert_L, dom_empty_L. set_solver.
Qed.

Lemma dict_update_same_keys (old new : gmap str str) :
  dom old ⊆ dom new → dict_update old new = new.
Proof.
  intros Hdom. unfold dict_update. apply map_eq. intros k.
  rewrite lookup_union. destruct (new !! k) eqn:Hn; [by destruct (old !! k)|].
  destruct (old !! k) eqn:Ho; [|done].
  assert (k ∈ dom new) as Hk by (apply Hdom, elem_of_dom; eauto).
  apply elem_of_dom in Hk as [? Hk]. congruence.
Qed.

Lemma add_triples_app (ts1 ts2 : list triple) : ∀ G theme tbox source_file,
  add_triples G (ts1 ++ ts2) theme tbox source_file
  = (G' ← add_triples G ts1 theme tbox source_file;
     add_triples G' ts2 theme tbox source_file).
Proof.
  induction ts1 as [|t ts1 IH]; intros G theme tbox src; [done|].
  cbn [app add_triples].
  destruct (add_triple G t theme tbox src) as [G1|e]; cbn [mbind result_bind];
    [apply IH|done].
Qed.

Lemma built_empty theme tbox source_file : built theme tbox source_file [] empty_graph.
Proof.
  split; [apply empty_graph_closed|]. split; [|split; [|split]].
  - intros n. cbn [nodes empty_graph]. rewrite lookup_empty. split.
    + by intros [? ?].
    + intros (t & x & Ht%elem_of_nil & _). done.
  - intros n a. cbn [nodes empty_graph]. by rewrite lookup_empty.
  - intros e a. cbn [edges empty_graph]. by rewrite lookup_empty.
  - by intros t Ht%elem_of_nil.
Qed.

Lemma built_add_triple theme tbox source_file seen G t :
  built theme tbox source_file seen G → complete t →
  ∃ G', add_triple G t theme tbox source_file = Ok G'
        ∧ built theme tbox source_file (seen ++ [t]) G'.
Proof.
  intros (Hclosed & Hnodes & Hattrs & Hedges & Hseen) ([s Hs] & [p Hp] & [o Ho]).
  destruct (add_triple_result G t theme tbox source_file s p o Hs Hp Ho)
    as (G' & HG' & Hlook & Hed).
  exists G'. split; [done|].
  assert (edge_key t = Some (normalize_label s, normalize_label o)) as Hkey.
  { unfold edge_key. by rewrite Hs, Ho. }
  split; [by eapply add_triple_closed|]. split; [|split; [|split]].
  - intros n. rewrite Hlook. split.
    + destruct (nodes G !! n) as [a|] eqn:Hn.
      * intros _. destruct (proj1 (Hnodes n)) as (t' & x & Ht' & Hx & ->);
          [by rewrite Hn|].
        exists t', x. split; [|done]. apply elem_of_app. by left.
      * destruct (decide (n = normalize_label s)) as [->|Hns].
        { intros _. exists t, s. split; [|by eauto].
          apply elem_of_app. right. apply list_elem_of_singleton. done. }
        destruct (decide (n = normalize_label o)) as [->|Hno]; [|by intros [? ?]].
        intros _. exists t, o. split; [|by eauto].
        apply elem_of_app. right. by apply list_elem_of_singleton.
    + intros (t' & x & [Ht'| ->%list_elem_of_singleton]%elem_of_app & Hx & ->).
      * destruct (proj2 (Hnodes (normalize_label x))) as [a Ha]; [by eauto|].
        by rewrite Ha.
      * destruct (nodes G !! normalize_label x); [done|].
        destruct Hx as [Hx|Hx].
        -- assert (x = s) as -> by congruence. by rewrite decide_True.
        -- assert (x = o) as -> by congruence.
           destruct (decide (normalize_label o = normalize_label s)); [done|].
           by rewrite decide_True.
  - intros n a. rewrite Hlook. destruct (nodes G !! n) as [a'|] eqn:Hn.
    + intros [= <-]. by apply Hattrs.
    + destruct (decide (n = normalize_label s)) as [->|Hns]; [by intros [= <-]|].
      destruct (decide (n = normalize_label o)) as [->|Hno]; [by intros [= <-]|].
      done.
  - intros e a. rewrite Hed.
    destruct (decide ((normalize_label s, normalize_label o) = e)) as [<-|Hne].
    + rewrite lookup_insert_eq. intros [= <-]. exists t.
      split; [apply elem_of_app; right; by apply list_elem_of_singleton|].
      split; [done|]. apply dict_update_same_keys.
      destruct (edges G !! _) as [old|] eqn:Hold; cbn [default].
      * destruct (Hedges _ _ Hold) as (t' & _ & _ & ->).
        unfold triple_edge_attrs. by rewrite !edge_attrs_dom.
      * rewrite dom_empty_L. apply empty_subseteq.
    + rewrite lookup_insert_ne by done. intros Ha.
      destruct (Hedges _ _ Ha) as (t' & Ht' & Hk' & ->).
      exists t'. split; [apply elem_of_app; by left|done].
  - intros t' [Ht'| ->%list_elem_of_singleton]%elem_of_app.
    + destruct (Hseen t' Ht') as (e & He & Hse). exists e. split; [done|].
      rewrite Hed. apply lookup_insert_is_Some'. by right.
    + eexists. split; [exact Hkey|]. rewrite Hed, lookup_insert_eq. by eexists.
Qed.

Lemma built_add_triples theme tbox source_file (ts : list triple) : ∀ seen G,
  built theme tbox source_file seen G → Forall complete ts →
  ∃ G', add_triples G ts theme tbox source_file = Ok G'
        ∧ built theme tbox source_file (seen ++ ts) G'.
Proof.
  induction ts as [|t ts IH]; intros seen G HG Hts.
  - exists G. by rewrite app_nil_r.
  - inversion Hts as [|? ? Ht Hts']; subst.
    destruct (built_add_triple _ _ _ _ _ _ HG Ht) as (G1 & HG1 & Hb1).
    destruct (IH _ _ Hb1 Hts') as (G' & HG' & Hb').
    exists G'. cbn [add_triples]. rewrite HG1. cbn [mbind result_bind].
    split; [done|]. by rewrite <- app_assoc in Hb'.
Qed.

(** X4. For triples that all have their three keys,
    [build_graph_from_triples] returns a graph whose nodes are exactly the
    normalised subject and object labels of the triples, each with exactly
    the attributes of this call (its own id as label, the theme, the class
    and the source), whose every edge joins the subject and object of one of
    the triples and carries that triple's attributes, in which every
    triple has its edge, and in which the end points of every edge are
    nodes. *)
Theorem build_graph_from_triples_shape (triples : list triple)
    theme tbox source_file :
  Forall complete triples →
  ∃ G, build_graph_from_triples triples theme tbox source_file = Ok G
    ∧ closed G
    ∧ (∀ n, is_Some (nodes G !! n) ↔
         ∃ t x, t ∈ triples
                ∧ (t !! u8 "subject" = Some x ∨ t !! u8 "object" = Some x)
                ∧ n = normalize_label x)
    ∧ (∀ n a, nodes G !! n = Some a → a = node_attrs n theme tbox source_file)
    ∧ (∀ e a, edges G !! e = Some a →
         ∃ t, t ∈ triples ∧ edge_key t = Some e
              ∧ a = triple_edge_attrs t theme tbox source_file)
    ∧ (∀ t, t ∈ triples → ∃ e, edge_key t = Some e ∧ is_Some (edges G !! e)).
Proof.
  intros Hts.
  destruct (built_add_triples theme tbox source_file triples [] empty_graph)
    as (G & HG & Hb); [apply built_empty|done|].
  exists G. split; [exact HG|]. exact Hb.
Qed.

Lemma build_graph_from_triples_shape_witness :
  ∃ G, build_graph_from_triples
         [list_to_map [(u8 "subject", u8 "Petra"); (u8 "predicate", u8 "occurredIn");
                       (u8 "object", u8 "Jordan")]]
         (u8 "event") (u8 "dbo:Event") (u8 "a.pdf") = Ok G
    ∧ closed G.
Proof.
  destruct (build_graph_from_triples_shape
              [list_to_map [(u8 "subject", u8 "Petra");
                            (u8 "predicate", u8 "occurredIn");
                            (u8 "object", u8 "Jordan")]]
              (u8 "event") (u8 "dbo:Event") (u8 "a.pdf"))
    as (G & HG & Hclosed & _).
  - repeat constructor; by eexists.
  - exists G. split; [exact HG|exact Hclosed].
Defined.

Lemma built_add_triple_edge theme tbox source_file seen G t e :
  built theme tbox source_file seen G → complete t → edge_key t = Some e →
  ∃ G', add_triple G t theme tbox source_file = Ok G'
        ∧ edges G' = <[e := triple_edge_attrs t theme tbox source_file]> (edges G).
Proof.
  intros (_ & _ & _ & Hedges & _) ([s Hs] & [p Hp] & [o Ho]) Hkey.
  destruct (add_triple_result G t theme tbox source_file s p o Hs Hp Ho)
    as (G' & HG' & _ & Hed).
  exists G'. split; [done|]. rewrite Hed.
  unfold edge_key in Hkey. rewrite Hs, Ho in Hkey. injection Hkey as <-.
  f_equal. apply dict_update_same_keys.
  destruct (edges G !! _) as [old|] eqn:Hold; cbn [default].
  - destruct (Hedges _ _ Hold) as (t' & _ & _ & ->).
    unfold triple_edge_attrs. by rewrite !edge_attrs_dom.
  - rewrite dom_empty_L. apply empty_subseteq.
Qed.

Lemma built_add_triples_other_edges theme tbox source_file (ts : list triple) e :
  ∀ seen G,
  built theme tbox source_file seen G → Forall complete ts →
  Forall (λ t, edge_key t ≠ Some e) ts →
  ∃ G', add_triples G ts theme tbox source_file = Ok G'
        ∧ edges G' !! e = edges G !! e.
Proof.
  induction ts as [|t ts IH]; intros seen G HG Hts Hkeys.
  - by exists G.
  - inversion Hts as [|? ? Ht Hts']; subst.
    inversion Hkeys as [|? ? Hk Hkeys']; subst.
    destruct (built_add_triple _ _ _ _ _ _ HG Ht) as (G1 & HG1 & Hb1).
    destruct Ht as ([s Hs] & Hp & [o Ho]).
    assert (edge_key t = Some (normalize_label s, normalize_label o)) as Hkey.
    { unfold edge_key. by rewrite Hs, Ho. }
    destruct (built_add_triple_edge _ _ _ _ _ t
                (normalize_label s, normalize_label o) HG)
      as (G1' & HG1' & Hed); [by repeat split; eauto|exact Hkey|].
    assert (G1' = G1) as -> by congruence.
    destruct (IH _ _ Hb1 Hts' Hkeys') as (G' & HG' & He).
    exists G'. cbn [add_triples]. rewrite HG1. cbn [mbind result_bind].
    split; [done|]. rewrite He, Hed. apply lookup_insert_ne. congruence.
Qed.

(** X5. Edges are keyed by the pair of end points, so of several triples
    with the same normalised subject and object the last one decides the
    edge: the graph built from a list has, for a triple that no later
    triple of the list shares its pair with, exactly that triple's
    attributes on the edge. *)
Theorem build_graph_last_triple_wins (ts1 ts2 : list triple) t e
    theme tbox source_file :
  Forall complete (ts1 ++ t :: ts2) →
  edge_key t = Some e →
  Forall (λ t', edge_key t' ≠ Some e) ts2 →
  ∃ G, build_graph_from_triples (ts1 ++ t :: ts2) theme tbox source_file = Ok G
    ∧ edges G !! e = Some (triple_edge_attrs t theme tbox source_file).
Proof.
  intros Hall Hkey Hlater.
  apply Forall_app in Hall as [H1 Hrest].
  inversion Hrest as [|? ? Ht H2]; subst.
  unfold build_graph_from_triples. rewrite add_triples_app.
  destruct (built_add_triples theme tbox source_file ts1 [] empty_graph)
    as (G1 & HG1 & Hb1); [apply built_empty|done|].
  rewrite HG1. cbn [mbind result_bind add_triples].
  destruct (built_add_triple _ _ _ _ _ _ Hb1 Ht) as (G2 & HG2 & Hb2).
  destruct (built_add_triple_edge _ _ _ _ _ t e Hb1 Ht Hkey) as (G2' & HG2' & Hed).
  assert (G2' = G2) as -> by congruence.
  rewrite HG2. cbn [mbind result_bind].
  destruct (built_add_triples_other_edges _ _ _ ts2 e _ _ Hb2 H2 Hlater)
    as (G & HG & He).
  exists G. split; [done|]. by rewrite He, Hed, lookup_insert_eq.
Qed.

Lemma build_graph_last_triple_wins_witness :
  ∃ G, build_graph_from_triples
         ([list_to_map [(u8 "subject", u8 "Petra"); (u8 "predicate", u8 "occurredIn");
                        (u8 "object", u8 "Jordan")]]
          ++ list_to_map [(u8 "subject", u8 "Petra  ");
                          (u8 "predicate", u8 "relatedToEvent");
                          (u8 "object", u8 "Jordan")] :: [])
         (u8 "event") (u8 "dbo:Event") (u8 "a.pdf") = Ok G
    ∧ edges G !! (u8 "Petra", u8 "Jordan")
      = Some (edge_attrs (u8 "relatedToEvent") (u8 "event") (u8 "dbo:Event")
                [] (u8 "a.pdf")).
Proof.
  destruct (build_graph_last_triple_wins
              [list_to_map [(u8 "subject", u8 "Petra");
                            (u8 "predicate", u8 "occurredIn");
                            (u8 "object", u8 "Jordan")]]
              []
              (list_to_map [(u8 "subject", u8 "Petra  ");
                            (u8 "predicate", u8 "relatedToEvent");
                            (u8 "object", u8 "Jordan")])
              (u8 "Petra", u8 "Jordan")
              (u8 "event") (u8 "dbo:Event") (u8 "a.pdf"))
    as (G & HG & He).
  - repeat constructor; by eexists.
  - vm_compute. reflexivity.
  - constructor.
  - exists G. split; [exact HG|]. rewrite He. vm_compute. reflexivity.
Defined.

End GraphConstruction.

(** ** More on merging *)

Section Merging.

Import GraphBuilder.

Implicit Types (G H g h : DiGraph) (n : str) (gs hs : list DiGraph).

Lemma lookup_merge_into_nodes G g n :
  closed G →
  nodes (merge_into G g) !! n =
    match nodes g !! n, nodes G !! n with
    | Some x, Some y => Some (x ∪ y)
    | Some x, None => Some x
    | None, Some y => Some y
    | None, None => if decide (n ∈ endpoints (edges g)) then Some ∅ else None
    end.
Proof.
  intros HG. rewrite merge_into_spec by done. cbn [nodes].
  rewrite lookup_with_endpoints, lookup_last_wins.
  by destruct (nodes g !! n), (nodes G !! n).
Qed.

Lemma lookup_merge_into_edges G g e :
  closed G →
  edges (merge_into G g) !! e =
    match edges g !! e, edges G !! e with
    | Some x, Some y => Some (x ∪ y)
    | Some x, None => Some x
    | None, o => o
    end.
Proof.
  intros HG. rewrite merge_into_spec by done. cbn [edges].
  rewrite lookup_last_wins. by destruct (edges g !! e), (edges G !! e).
Qed.

Lemma endpoints_merge_into G g :
  closed G → endpoints (edges (merge_into G g)) = endpoints (edges g) ∪ endpoints (edges G).
Proof.
  intros HG. rewrite merge_into_spec by done. cbn [edges].
  apply set_eq. intros n. rewrite elem_of_union, !elem_of_endpoints. split.
  - intros (u & v & Huv & Hn). apply elem_of_dom in Huv.
    rewrite dom_last_wins in Huv. apply elem_of_union in Huv as [Huv|Huv];
      apply elem_of_dom in Huv; [left|right]; by exists u, v.
  - intros [(u & v & Huv & Hn)|(u & v & Huv & Hn)]; exists u, v;
      (split; [|done]); apply elem_of_dom; rewrite dom_last_wins;
      apply elem_of_union; [left|right]; by apply elem_of_dom.
Qed.

Lemma last_value_snoc {A} (f : DiGraph → option A) gs g :
  last_value f (gs ++ [g])
  = match f g with Some v => Some v | None => last_value f gs end.
Proof. unfold last_value. by rewrite fold_left_app. Qed.

Lemma lookup_union_first (x y : gmap str str) k :
  (x ∪ y) !! k = match x !! k with Some v => Some v | None => y !! k end.
Proof.
  rewrite lookup_union. by destruct (x !! k), (y !! k).
Qed.

Lemma merge_graphs_node_attr gs n k :
  node_attr (merge_graphs gs) n k = last_value (λ g, node_attr g n k) gs.
Proof.
  induction gs as [|h gs IH] using rev_ind; [done|].
  rewrite last_value_snoc, <- IH, merge_graphs_snoc. unfold node_attr.
  rewrite lookup_merge_into_nodes by apply merge_graphs_closed.
  destruct (nodes h !! n) as [x|], (nodes (merge_graphs gs) !! n) as [y|];
    cbn [mbind option_bind].
  - apply lookup_union_first.
  - by destruct (x !! k).
  - done.
  - by destruct (decide _).
Qed.

Lemma merge_graphs_edge_attr gs e k :
  edge_attr (merge_graphs gs) e k = last_value (λ g, edge_attr g e k) gs.
Proof.
  induction gs as [|h gs IH] using rev_ind; [done|].
  rewrite last_value_snoc, <- IH, merge_graphs_snoc. unfold edge_attr.
  rewrite lookup_merge_into_edges by apply merge_graphs_closed.
  destruct (edges h !! e) as [x|], (edges (merge_graphs gs) !! e) as [y|];
    cbn [mbind option_bind].
  - apply lookup_union_first.
  - by destruct (x !! k).
  - done.
  - done.
Qed.

Lemma merge_graphs_nodes gs n :
  Forall closed gs →
  is_Some (nodes (merge_graphs gs) !! n) ↔ ∃ g, g ∈ gs ∧ is_Some (nodes g !! n).
Proof.
  induction gs as [|h gs IH] using rev_ind; intros Hall.
  - cbn [merge_graphs fold_left empty_graph nodes]. rewrite lookup_empty. split.
    + by intros [? ?].
    + by intros (g & Hg%elem_of_nil & _).
  - apply Forall_app in Hall as [Hgs [Hh _]%Forall_cons].
    rewrite merge_graphs_snoc.
    rewrite lookup_merge_into_nodes by apply merge_graphs_closed.
    specialize (IH Hgs). split.
    + destruct (nodes h !! n) as [x|] eqn:Ex.
      * intros _. exists h. split; [|by rewrite Ex].
        apply elem_of_app. right. apply list_elem_of_here.
      * destruct (nodes (merge_graphs gs) !! n) as [y|] eqn:Ey.
        -- intros _. destruct (proj1 IH) as (g & Hg & Hn); [by eexists|].
           exists g. split; [|done]. apply elem_of_app. by left.
        -- destruct (decide (n ∈ endpoints (edges h))) as [Hin|]; [|by intros [? ?]].
           apply elem_of_endpoints in Hin as (u & v & Huv & Hn).
           destruct (Hh u v Huv) as [Hu Hv]. intros _. exfalso.
           destruct Hn as [->| ->]; rewrite Ex in *;
             [by destruct Hu|by destruct Hv].
    + intros (g & [Hg| ->%list_elem_of_singleton]%elem_of_app & Hn).
      * assert (is_Some (nodes (merge_graphs gs) !! n)) as [y ->]
          by (apply IH; eauto).
        by destruct (nodes h !! n).
      * destruct Hn as [x ->]. by destruct (nodes (merge_graphs gs) !! n).
Qed.

Lemma merge_graphs_edges gs e :
  is_Some (edges (merge_graphs gs) !! e) ↔ ∃ g, g ∈ gs ∧ is_Some (edges g !! e).
Proof.
  induction gs as [|h gs IH] using rev_ind.
  - cbn [merge_graphs fold_left empty_graph edges]. rewrite lookup_empty. split.
    + by intros [? ?].
    + by intros (g & Hg%elem_of_nil & _).
  - rewrite merge_graphs_snoc.
    rewrite lookup_merge_into_edges by apply merge_graphs_closed. split.
    + destruct (edges h !! e) as [x|] eqn:Ex.
      * intros _. exists h. split; [|by rewrite Ex].
        apply elem_of_app. right. apply list_elem_of_here.
      * intros Hy. destruct (proj1 IH Hy) as (g & Hg & Hn).
        exists g. split; [|done]. apply elem_of_app. by left.
    + intros (g & [Hg| ->%list_elem_of_singleton]%elem_of_app & Hn).
      * assert (is_Some (edges (merge_graphs gs) !! e)) as [y ->]
          by (apply IH; eauto).
        by destruct (edges h !! e).
      * destruct Hn as [x ->]. by destruct (edges (merge_graphs gs) !! e).
Qed.

(** X6. For graphs in which the end points of every edge are nodes, as
    in every [DiGraph], [merge_graphs] is determined attribute by
    attribute: the nodes and the edges of the merge are those of the
    arguments, no other node is made, and every attribute of a node or of
    an edge has the value that the last argument with that attribute on
    that node or edge gives it. *)
Theorem merge_graphs_attributes gs :
  Forall closed gs →
  (∀ n, is_Some (nodes (merge_graphs gs) !! n)
        ↔ ∃ g, g ∈ gs ∧ is_Some (nodes g !! n))
  ∧ (∀ n k, node_attr (merge_graphs gs) n k
            = last_value (λ g, node_attr g n k) gs)
  ∧ (∀ e, is_Some (edges (merge_graphs gs) !! e)
          ↔ ∃ g, g ∈ gs ∧ is_Some (edges g !! e))
  ∧ (∀ e k, edge_attr (merge_graphs gs) e k
            = last_value (λ g, edge_attr g e k) gs).
Proof.
  intros Hall. split; [|split; [|split]].
  - intros n. by apply merge_graphs_nodes.
  - apply merge_graphs_node_attr.
  - apply merge_graphs_edges.
  - apply merge_graphs_edge_attr.
Qed.

Lemma merge_graphs_attributes_witness :
  node_attr
    (GraphBuilder.merge_graphs
       [ {| GraphBuilder.nodes := {[ u8 "A" := {[ u8 "theme" := u8 "event" ]} ]};
            GraphBuilder.edges := ∅ |};
         {| GraphBuilder.nodes :=
              {[ u8 "A" := {[ u8 "theme" := u8 "cultural" ]}; u8 "B" := ∅ ]};
            GraphBuilder.edges := {[ (u8 "A", u8 "B") := ∅ ]} |} ])
    (u8 "A") (u8 "theme")
  = Some (u8 "cultural").
Proof.
  destruct (merge_graphs_attributes
    [ {| GraphBuilder.nodes := {[ u8 "A" := {[ u8 "theme" := u8 "event" ]} ]};
         GraphBuilder.edges := ∅ |};
      {| GraphBuilder.nodes :=
           {[ u8 "A" := {[ u8 "theme" := u8 "cultural" ]}; u8 "B" := ∅ ]};
         GraphBuilder.edges := {[ (u8 "A", u8 "B") := ∅ ]} |} ])
    as (_ & Hattr & _).
  - apply Forall_cons_2; [|apply Forall_cons_2; [|apply Forall_nil_2]].
    + intros u v [a Ha]. cbn [GraphBuilder.edges] in Ha.
      by rewrite lookup_empty in Ha.
    + intros u v [a Ha]. cbn [GraphBuilder.edges] in Ha.
      apply lookup_singleton_Some in Ha as [[= <- <-] _].
      split; vm_compute; by eexists.
  - rewrite Hattr. vm_compute. reflexivity.
Defined.

Lemma merge_into_empty_r G : closed G → merge_into G empty_graph = G.
Proof.
  intros HG. apply DiGraph_eq; apply map_eq.
  - intros n. rewrite lookup_merge_into_nodes by done.
    cbn [nodes edges empty_graph]. rewrite lookup_empty.
    destruct (nodes G !! n); [done|].
    rewrite decide_False; [done|]. rewrite endpoints_empty. apply not_elem_of_empty.
  - intros e. rewrite lookup_merge_into_edges by done.
    cbn [edges empty_graph]. by rewrite lookup_empty.
Qed.

Lemma merge_into_assoc G H h :
  closed G → closed H →
  merge_into (merge_into G H) h = merge_into G (merge_into H h).
Proof.
  intros HG HH.
  assert (closed (merge_into G H)) as HGH by by apply merge_into_closed.
  apply DiGraph_eq; apply map_eq.
  - intros n. rewrite !lookup_merge_into_nodes by done.
    rewrite endpoints_merge_into by done.
    destruct (nodes h !! n) as [x|], (nodes H !! n) as [y|],
      (nodes G !! n) as [z|];
      repeat match goal with
             | |- context [decide (?a ∈ ?X)] => destruct (decide (a ∈ X))
             end;
      rewrite ?(assoc_L (∪)), ?(left_id_L ∅ (∪)), ?(right_id_L ∅ (∪));
      try done; exfalso; set_solver.
  - intros e. rewrite !lookup_merge_into_edges by done.
    destruct (edges h !! e) as [x|], (edges H !! e) as [y|],
      (edges G !! e) as [z|]; try done.
    by rewrite (assoc_L (∪)).
Qed.

(** X7. Merging may be grouped: merging a list of graphs gives the same
    graph, attributes included, as merging a first part of the list,
    merging the rest, and merging the two results in this order. *)
Theorem merge_graphs_app gs hs :
  merge_graphs (gs ++ hs) = merge_graphs [merge_graphs gs; merge_graphs hs].
Proof.
  assert (∀ G, closed G → merge_graphs [G] = G) as Hone.
  { intros G HG. unfold merge_graphs. cbn [fold_left].
    apply DiGraph_eq; apply map_eq.
    - intros n. rewrite lookup_merge_into_nodes by apply empty_graph_closed.
      cbn [nodes empty_graph]. rewrite lookup_empty.
      destruct (nodes G !! n) eqn:Hn; [done|].
      rewrite decide_False; [done|].
      intros (u & v & Huv & Hor)%elem_of_endpoints.
      destruct (HG u v Huv) as [[? Hu] [? Hv]]. destruct Hor; congruence.
    - intros e. rewrite lookup_merge_into_edges by apply empty_graph_closed.
      cbn [edges empty_graph]. rewrite lookup_empty.
      by destruct (edges G !! e). }
  change [merge_graphs gs; merge_graphs hs]
    with ([merge_graphs gs] ++ [merge_graphs hs]).
  rewrite merge_graphs_snoc, Hone by apply merge_graphs_closed.
  induction hs as [|h hs IH] using rev_ind.
  - rewrite app_nil_r. symmetry. apply merge_into_empty_r, merge_graphs_closed.
  - rewrite app_assoc, !merge_graphs_snoc, IH.
    apply merge_into_assoc; apply merge_graphs_closed.
Qed.

(** X8. Merging a graph in twice in a row is the same as merging it in
    once. *)
Theorem merge_graphs_repeat gs g :
  merge_graphs (gs ++ [g; g]) = merge_graphs (gs ++ [g]).
Proof.
  change (gs ++ [g; g]) with (gs ++ [g] ++ [g]).
  rewrite app_assoc, (merge_graphs_snoc (gs ++ [g])).
  assert (closed (merge_graphs (gs ++ [g]))) as Hc by apply merge_graphs_closed.
  apply DiGraph_eq; apply map_eq.
  - intros n. rewrite lookup_merge_into_nodes by done.
    rewrite merge_graphs_snoc.
    rewrite lookup_merge_into_nodes by apply merge_graphs_closed.
    destruct (nodes g !! n) as [x|], (nodes (merge_graphs gs) !! n) as [y|];
      repeat match goal with
             | |- context [decide (?a ∈ ?X)] => destruct (decide (a ∈ X))
             end;
      rewrite ?(assoc_L (∪)), ?(idemp_L (∪)); done.
  - intros e. rewrite lookup_merge_into_edges by done.
    rewrite merge_graphs_snoc.
    rewrite lookup_merge_into_edges by apply merge_graphs_closed.
    destruct (edges g !! e) as [x|], (edges (merge_graphs gs) !! e) as [y|];
      try done.
    + by rewrite (assoc_L (∪)), (idemp_L (∪)).
    + by rewrite (idemp_L (∪)).
Qed.

End Merging.

(** ** More on cleaning and segmentation *)

Section Cleaning.

Implicit Types (s m : str) (c : N).

Lemma clean_text_no_control (NFC : str → str) (x : str) :
  Forall (λ c, control c = false) (clean_text NFC x).
Proof.
  rewrite clean_text_polish. destruct (truthy x); [|constructor].
  eapply Forall_impl; [apply polish_no_control|].
  intros c Hc. by apply negb_true_iff.
Qed.

Lemma clean_text_no_line_break (NFC : str → str) (x : str) :
  LF ∉ (clean_text NFC x).
Proof.
  intros Hin. pose proof (clean_text_no_control NFC x) as Hctl.
  eapply Forall_forall in Hctl; [|exact Hin]. done.
Qed.

(** X9. A text returned by [clean_text] has no control character (so no
    line break and no tab), no white space at either end, no space
    character other than single blanks, no blank before a punctuation
    character, and none of the letters or marks that [normalize_arabic]
    rewrites or removes. *)
Theorem clean_text_normal_form (NFC : str → str) (x : str) :
  Forall (λ c, control c = false) (clean_text NFC x)
  ∧ (LF ∉ clean_text NFC x)
  ∧ tidy (clean_text NFC x)
  ∧ adjacent single_blank (clean_text NFC x) = true
  ∧ adjacent no_gap (clean_text NFC x) = true
  ∧ Forall (λ c, folded c = true) (clean_text NFC x).
Proof.
  split; [apply clean_text_no_control|]. split; [|split; [|split; [|split]]].
  - apply clean_text_no_line_break.
  - apply strip_fixed_tidy, clean_text_tidy.
  - rewrite clean_text_polish. destruct (truthy x); [apply polish_single|done].
  - rewrite clean_text_polish. destruct (truthy x); [apply polish_tight|done].
  - apply clean_text_folded.
Qed.

Lemma raw_segments_one_line s : LF ∉ s → raw_segments s = [s].
Proof.
  intros Hs. unfold raw_segments. rewrite split_free by done.
  cbn [fold_left segment_step]. by destruct (has_marker s).
Qed.

Lemma segment_one_line s :
  LF ∉ s → tidy s →
  segment_into_events s = if truthy s then [s] else [].
Proof.
  intros Hs Ht. unfold segment_into_events. rewrite raw_segments_one_line by done.
  cbn [List.filter]. rewrite (tidy_strip s Ht).
  destruct (truthy s); [|done]. cbn [map]. by rewrite (tidy_strip s Ht).
Qed.

(** X10. What [generate_triples] passes to [segment_into_events] is a
    cleaned text, which has no line break: the segmentation then returns the
    whole cleaned text as the only segment, marker keywords or not, and no
    segment when the cleaned text is empty. *)
Theorem cleaned_text_is_one_segment (NFC : str → str) (text : str) :
  segment_into_events (clean_text NFC text)
  = if truthy (clean_text NFC text) then [clean_text NFC text] else [].
Proof.
  apply segment_one_line.
  - apply clean_text_no_line_break.
  - apply strip_fixed_tidy, clean_text_tidy.
Qed.

Lemma contains_elem m s c : contains m s = true → c ∈ m → c ∈ s.
Proof.
  assert (∀ p t, startswith p t = true → c ∈ p → c ∈ t) as Hsw.
  { induction p as [|a p IH]; intros [|b t]; cbn [startswith]; try done.
    - by intros _ ?%elem_of_nil.
    - intros [->%N.eqb_eq Hp]%andb_true_iff [->|Hc]%elem_of_cons.
      + apply list_elem_of_here.
      + apply list_elem_of_further. by apply IH. }
  induction s as [|b s IH]; cbn [contains].
  - rewrite orb_false_r. apply Hsw.
  - intros [H|H]%orb_true_iff Hc; [by eapply Hsw|].
    apply list_elem_of_further. by apply IH.
Qed.

(** X11. Three of the marker keywords, معركة, أحداث and عملية, are spelt
    with Ta Marbuta or Hamza on Alef, which [clean_text] rewrites: they
    never occur in a text returned by [clean_text], so in
    [generate_triples] they never mark a line. *)
Theorem markers_absent_from_clean_text (NFC : str → str) (raw m : str) :
  m ∈ [u8 "معركة"; u8 "أحداث"; u8 "عملية"] →
  m ∈ markers ∧ contains m (clean_text NFC raw) = false.
Proof.
  intros Hm.
  assert (m ∈ markers ∧ ∃ c, c ∈ m ∧ folded c = false) as [Hin (c & Hc & Hf)].
  { unfold markers.
    repeat (apply elem_of_cons in Hm as [->|Hm]);
      [ split; [by repeat constructor|]; exists 0x629;
        split; [by repeat constructor|done]
      | split; [by repeat constructor|]; exists 0x623;
        split; [by repeat constructor|done]
      | split; [by repeat constructor|]; exists 0x629;
        split; [by repeat constructor|done]
      | by apply elem_of_nil in Hm ]. }
  split; [done|].
  destruct (contains m (clean_text NFC raw)) eqn:Hcont; [|done].
  pose proof (contains_elem _ _ c Hcont Hc) as Hcs.
  pose proof (clean_text_folded NFC raw) as Hfold.
  eapply Forall_forall in Hfold; [|exact Hcs]. congruence.
Qed.

Lemma markers_absent_from_clean_text_witness :
  contains (u8 "معركة") (clean_text UCD.nfc (u8 "وقعت معركة الكرامة")) = false.
Proof.
  apply (markers_absent_from_clean_text UCD.nfc (u8 "وقعت معركة الكرامة")).
  apply list_elem_of_here.
Defined.

Lemma single_blank_spaces s :
  adjacent single_blank s = true → Forall (λ c, isspace c = true → c = SP) s.
Proof.
  induction s as [|c r IH]; [constructor|]. cbn [adjacent].
  intros [Hc Hr]%andb_true_iff. constructor; [|by apply IH].
  intros Hsp. unfold single_blank in Hc. rewrite Hsp in Hc.
  by apply andb_true_iff in Hc as [?%N.eqb_eq _].
Qed.

Lemma replace_absent old new s : old ∉ s → replace old new s = s.
Proof.
  unfold replace. induction s as [|c r IH]; [done|].
  intros [Hne Hr]%not_elem_of_cons. cbn [flat_map].
  destruct (N.eqb_spec c old) as [->|_]; [done|]. by rewrite IH.
Qed.

(** X12. [clean_text_block] of the PDF reader is idempotent, and the text
    it returns has no white space at either end and no space character
    other than single blanks. *)
Theorem clean_text_block_idempotent (text : str) :
  clean_text_block (clean_text_block text) = clean_text_block text
  ∧ tidy (clean_text_block text)
  ∧ adjacent single_blank (clean_text_block text) = true.
Proof.
  assert (tidy (clean_text_block text)
          ∧ adjacent single_blank (clean_text_block text) = true) as [Ht Hs].
  { unfold clean_text_block. destruct (negb (truthy text)); [done|].
    split; [apply strip_tidy|].
    apply adjacent_strip; [apply single_blank_prefix|apply collapse_spaces_single]. }
  split; [|done].
  unfold clean_text_block at 1.
  destruct (negb (truthy (clean_text_block text))) eqn:He.
  { by destruct (clean_text_block text). }
  rewrite replace_absent.
  - rewrite collapse_spaces_fixed by done. by apply tidy_strip.
  - intros Hin. apply single_blank_spaces in Hs.
    eapply Forall_forall in Hs; [|exact Hin]. by specialize (Hs eq_refl).
Qed.

End Cleaning.

(** ** More on triple generation *)

Section Generation.

Variable NFC : str → str.
Variable generate_triples_for_segment :
  nat → str → list str → str → str → list triple.

Implicit Types (fs : filesystem) (text theme : str) (topics : list str)
  (user_tbox : option str).

(** X13. [generate_triples] raises the exception of [load_tbox_template]
    whenever that call raises, whatever the text and the answers of the
    model. The answers of the model being lists of triples, a result that
    [generate_triples] returns has the theme it was given and the class of
    the template that loaded, at most one segment (the cleaned text), and
    triples that are, in order, those answers of the model for that
    segment whose predicate is a key of the allowed predicates of the
    theme. *)
Theorem generate_triples_result fs text topics theme user_tbox :
  (∀ e, TBoxLoader.load_tbox_template fs theme user_tbox = Raise e →
        generate_triples NFC generate_triples_for_segment fs text topics theme
          user_tbox = Raise e)
  ∧ (∀ r, generate_triples NFC generate_triples_for_segment fs text topics
            theme user_tbox = Ok r →
       ∃ tbox_template tbox_class,
         TBoxLoader.load_tbox_template fs theme user_tbox
         = Ok (tbox_template, tbox_class)
         ∧ gen_theme r = theme ∧ gen_tbox r = tbox_class
         ∧ gen_segments r
           = (if truthy (clean_text NFC text) then [clean_text NFC text] else [])
         ∧ gen_triples r
           = filter_allowed (get_allowed_predicates theme)
               (if truthy (clean_text NFC text)
                then generate_triples_for_segment 0%nat (clean_text NFC text)
                       topics theme tbox_template
                else [])
         ∧ Forall (λ t, ∃ p, t !! u8 "predicate" = Some p
                             ∧ p ∈ dom (get_allowed_predicates theme))
                  (gen_triples r)).
Proof.
  unfold generate_triples. split.
  - by intros e ->.
  - intros r.
    destruct (TBoxLoader.load_tbox_template fs theme user_tbox)
      as [[tbox_template tbox_class]|e]; cbn [mbind result_bind]; [|done].
    intros [= <-]. exists tbox_template, tbox_class. split; [done|].
    cbn [gen_theme gen_tbox gen_segments gen_triples].
    rewrite segment_one_line;
      [|apply clean_text_no_line_break|apply strip_fixed_tidy, clean_text_tidy].
    split; [done|]. split; [done|]. split; [done|]. split.
    + destruct (truthy (clean_text NFC text)); [|done].
      cbn. by rewrite app_nil_r.
    + apply Forall_forall. intros t Ht.
      apply list_elem_of_In, filter_In in Ht as [_ Ht].
      by apply allowed_predicate_spec.
Qed.

End Generation.

Lemma generate_triples_result_witness :
  ∃ r, generate_triples UCD.nfc
         (λ _ _ _ _ _, [ {[ u8 "predicate" := u8 "occurredIn" ]};
                         {[ u8 "predicate" := u8 "likes" ]} ])
         ∅ (u8 "The  summit .") [] (u8 "event") None = Ok r
       ∧ gen_segments r = [u8 "The summit."]
       ∧ gen_triples r = [ {[ u8 "predicate" := u8 "occurredIn" ]} ].
Proof.
  destruct (generate_triples UCD.nfc
              (λ _ _ _ _ _, [ {[ u8 "predicate" := u8 "occurredIn" ]};
                              {[ u8 "predicate" := u8 "likes" ]} ])
              ∅ (u8 "The  summit .") [] (u8 "event") None) as [r|e] eqn:E.
  - destruct (generate_triples_result UCD.nfc
                (λ _ _ _ _ _, [ {[ u8 "predicate" := u8 "occurredIn" ]};
                                {[ u8 "predicate" := u8 "likes" ]} ])
                ∅ (u8 "The  summit .") [] (u8 "event") None) as [_ Hret].
    destruct (Hret r E) as (tpl & cls & _ & _ & _ & Hseg & Htr & _).
    exists r. split; [reflexivity|]. split.
    + rewrite Hseg. vm_compute. reflexivity.
    + rewrite Htr. vm_compute. reflexivity.
  - exfalso. vm_compute in E. discriminate E.
Defined.

(** ** More on the Turtle export *)

Section TurtleIds.

Variable NFC : str → str.

Implicit Types (st : turtle_state) (t : triple) (D : list str) (s : str)
  (tbox_class : str).

Lemma utf8_go_ascii (a : ascii) (r : string) :
  (N_of_ascii a < 0x80) →
  utf8_go (String a r) 0 0 = N_of_ascii a :: utf8_go r 0 0.
Proof.
  intros Ha. cbn [utf8_go]. apply N.ltb_lt in Ha. by rewrite Ha.
Qed.

Lemma utf8_ascii_inj (x y : string) :
  ascii_only x → ascii_only y → utf8 x = utf8 y → x = y.
Proof.
  unfold utf8. revert y. induction x as [|a x IH]; intros [|b y]; cbn [ascii_only].
  - done.
  - intros _ [Hb _]. by rewrite utf8_go_ascii.
  - intros [Ha _] _. by rewrite utf8_go_ascii.
  - intros [Ha Hx] [Hb Hy]. rewrite !utf8_go_ascii by done.
    intros [= Hab Hxy]. f_equal; [|by apply IH].
    rewrite <- (ascii_N_embedding a), <- (ascii_N_embedding b). by rewrite Hab.
Qed.

Lemma string_of_uint_ascii (d : Decimal.uint) :
  ascii_only (NilEmpty.string_of_uint d).
Proof. induction d; cbn; (split; [by vm_compute|done]) || done. Qed.

Lemma to_uint_not_nil (n : nat) : Nat.to_uint n ≠ Decimal.Nil.
Proof.
  rewrite <- (DecimalNat.Unsigned.of_to n) at 1.
  rewrite DecimalNat.Unsigned.to_of. unfold Decimal.unorm.
  by destruct (Decimal.nzhead (Nat.to_uint n)).
Qed.

Lemma str_of_nat_inj (i j : nat) : str_of_nat i = str_of_nat j → i = j.
Proof.
  unfold str_of_nat. intros Heq.
  apply DecimalNat.Unsigned.to_uint_inj.
  pose proof (to_uint_not_nil i) as Hi. pose proof (to_uint_not_nil j) as Hj.
  apply utf8_ascii_inj in Heq.
  - pose proof (NilZero.usu _ Hi) as Ui. pose proof (NilZero.usu _ Hj) as Uj.
    rewrite Heq in Ui. congruence.
  - unfold NilZero.string_of_uint. destruct (Nat.to_uint i); try done;
      apply (string_of_uint_ascii (_ _)).
  - unfold NilZero.string_of_uint. destruct (Nat.to_uint j); try done;
      apply (string_of_uint_ascii (_ _)).
Qed.

Lemma canonical_event_id_inj (i j : nat) :
  canonical_event_id i = canonical_event_id j → i = j.
Proof.
  unfold canonical_event_id. intros Heq%app_inv_head. by apply str_of_nat_inj.
Qed.

Lemma note_NoDup D s : NoDup D → NoDup (note D s).
Proof.
  intros HD. unfold note. case_bool_decide as Hin; [done|].
  apply NoDup_app. split; [done|]. split; [|apply NoDup_singleton].
  intros x Hx ->%list_elem_of_singleton. done.
Qed.

Lemma note_prefix D s : D `prefix_of` note D s.
Proof.
  unfold note. case_bool_decide; [done|]. by apply prefix_app_r.
Qed.

Lemma fold_note_prefix l D : D `prefix_of` fold_left note l D.
Proof.
  revert D. induction l as [|x l IH]; intros D; cbn [fold_left]; [done|].
  etrans; [apply note_prefix|apply IH].
Qed.

Lemma fold_note_NoDup l D : NoDup D → NoDup (fold_left note l D).
Proof.
  revert D. induction l as [|x l IH]; intros D HD; cbn [fold_left]; [done|].
  by apply IH, note_NoDup.
Qed.

Lemma numbered_inj st D s s' id :
  numbered st D → event_map st !! s = Some id → event_map st !! s' = Some id →
  s = s'.
Proof.
  intros (_ & _ & Hmap) (k & Hk & ->)%Hmap (k' & Hk' & Heq)%Hmap.
  apply canonical_event_id_inj in Heq. injection Heq as ->. congruence.
Qed.

Lemma turtle_triple_step tbox_class st D t :
  numbered st D → complete t →
  ∃ st' s, t !! u8 "subject" = Some s
    ∧ turtle_triple NFC tbox_class st t = Ok st'
    ∧ numbered st' (note D s)
    ∧ event_map st ⊆ event_map st'
    ∧ is_Some (event_map st' !! s)
    ∧ lines st'
      = lines st
        ++ turtle_statements NFC tbox_class (event_of (event_map st') t) t.
Proof.
  intros (HD & Hcount & Hmap) ([s Hs] & [p Hp] & [o Ho]).
  unfold turtle_triple, getitem, get_event_id, event_of, turtle_statements.
  rewrite Hs, Hp, Ho. cbn [mbind result_bind default].
  destruct (event_map st !! s) as [e|] eqn:Hid.
  - eexists _, s. split; [done|]. split; [reflexivity|].
    unfold numbered. cbn [append_lines event_map lines event_counter].
    rewrite Hid. cbn [default]. unfold id.
    split; [|split; [done|split; [by eexists|done]]].
    unfold note. rewrite bool_decide_eq_true_2; [done|].
    apply Hmap in Hid as (k & Hk & _). by eapply list_elem_of_lookup_2.
  - assert (s ∉ D) as Hnot.
    { intros [k Hk]%list_elem_of_lookup_1.
      assert (event_map st !! s = Some (canonical_event_id (S k))) as Hin
        by (apply Hmap; eauto).
      congruence. }
    eexists _, s. split; [done|]. split; [reflexivity|].
    unfold numbered. cbn [append_lines event_map lines event_counter].
    rewrite lookup_insert_eq. cbn [default]. unfold id.
    split; [|split; [|split; [by eexists|done]]].
    + unfold note. rewrite bool_decide_eq_false_2 by done.
      split; [|split].
      * apply NoDup_app. split; [done|]. split; [|apply NoDup_singleton].
        intros x Hx ->%list_elem_of_singleton. done.
      * rewrite length_app, Hcount. cbn. lia.
      * intros s' id'. destruct (decide (s' = s)) as [->|Hne].
        -- rewrite lookup_insert_eq. split.
           ++ intros [= <-]. exists (length D). split; [|by rewrite Hcount].
              by rewrite lookup_app_r, Nat.sub_diag by lia.
           ++ intros (k & Hk & ->). f_equal. rewrite Hcount. do 2 f_equal.
              apply lookup_app_Some in Hk as [Hk|[Hlen Hk]].
              ** exfalso. apply Hnot. by eapply list_elem_of_lookup_2.
              ** apply list_lookup_singleton_Some in Hk as [Hk _]. lia.
        -- rewrite lookup_insert_ne by done. rewrite Hmap. split.
           ++ intros (k & Hk & ->). exists k. split; [|done].
              by apply lookup_app_l_Some.
           ++ intros (k & Hk & ->). exists k. split; [|done].
              apply lookup_app_Some in Hk as [Hk|[Hlen Hk]]; [done|].
              apply list_lookup_singleton_Some in Hk as [_ Hk]. congruence.
    + by apply insert_subseteq.
Qed.

Lemma event_of_subseteq (m m' : gmap str str) t s :
  t !! u8 "subject" = Some s → is_Some (m !! s) → m ⊆ m' →
  event_of m' t = event_of m t.
Proof.
  intros Hs [id Hid] Hsub. unfold event_of. rewrite Hs, Hid.
  by rewrite (lookup_weaken _ _ _ _ Hid Hsub).
Qed.

Lemma turtle_triples_spec tbox_class triples st D :
  numbered st D → Forall complete triples →
  ∃ st', turtle_triples NFC tbox_class st triples = Ok st'
    ∧ numbered st' (fold_left note (subjects triples) D)
    ∧ event_map st ⊆ event_map st'
    ∧ lines st'
      = lines st
        ++ concat (map (λ t, turtle_statements NFC tbox_class
                                (event_of (event_map st') t) t) triples).
Proof.
  revert st D. induction triples as [|t ts IH]; intros st D Hnum Hall.
  - exists st. cbn. by rewrite app_nil_r.
  - apply Forall_cons in Hall as [Ht Hts].
    destruct (turtle_triple_step tbox_class st D t Hnum Ht)
      as (st1 & s & Hs & Hstep & Hnum1 & Hsub1 & Hsome & Hlines1).
    destruct (IH st1 (note D s) Hnum1 Hts) as (st' & Hrest & Hnum' & Hsub' & Hlines').
    exists st'. cbn [turtle_triples]. rewrite Hstep. cbn [mbind result_bind].
    split; [done|]. split; [|split].
    + unfold subjects. cbn [omap list_omap]. by rewrite Hs.
    + by etrans.
    + rewrite Hlines', Hlines1. cbn [map concat]. rewrite <- (assoc_L (++)).
      do 2 f_equal. by rewrite (event_of_subseteq _ _ t s Hs Hsome Hsub').
Qed.

Lemma numbered_initial lines0 :
  numbered {| lines := lines0; event_map := ∅; event_counter := 1 |} [].
Proof.
  split; [apply NoDup_nil_2|]. split; [done|].
  intros s id. cbn [event_map]. rewrite lookup_empty. split; [done|].
  by intros (k & Hk & _).
Qed.

(** X14. Over triples that have their three keys the loop of
    [export_turtle] does not fail; the table of event ids it ends with
    gives the k-th distinct subject, in the order of first appearance, the
    id [:Event_(k+1)], so that two subjects never share an id; and the lines
    written are, triple after triple, the four statements of the triple
    under the id of its subject in that final table. *)
Theorem turtle_triples_event_ids tbox_class lines0 triples :
  Forall complete triples →
  ∃ st, turtle_triples NFC tbox_class
          {| lines := lines0; event_map := ∅; event_counter := 1 |} triples
        = Ok st
    ∧ (∀ s id, event_map st !! s = Some id
               ↔ ∃ k, first_seen (subjects triples) !! k = Some s
                      ∧ id = canonical_event_id (S k))
    ∧ (∀ s s' id, event_map st !! s = Some id → event_map st !! s' = Some id →
                  s = s')
    ∧ lines st
      = lines0
        ++ concat (map (λ t, turtle_statements NFC tbox_class
                                (event_of (event_map st) t) t) triples).
Proof.
  intros Hall.
  destruct (turtle_triples_spec tbox_class triples _ [] (numbered_initial lines0) Hall)
    as (st & Hrun & Hnum & _ & Hlines).
  exists st. split; [done|]. split; [apply Hnum|]. split; [|done].
  intros s s' id. by apply numbered_inj with (D := fold_left note (subjects triples) []).
Qed.

End TurtleIds.

Lemma turtle_triples_event_ids_witness :
  ∃ st, turtle_triples UCD.nfc (u8 "dbo:Event")
          {| lines := []; event_map := ∅; event_counter := 1 |}
          [ {[ u8 "subject" := u8 "A"; u8 "predicate" := u8 "p"; u8 "object" := u8 "x" ]};
            {[ u8 "subject" := u8 "B"; u8 "predicate" := u8 "p"; u8 "object" := u8 "y" ]};
            {[ u8 "subject" := u8 "A"; u8 "predicate" := u8 "q"; u8 "object" := u8 "z" ]} ]
        = Ok st
    ∧ event_map st !! u8 "B" = Some (u8 ":Event_2")
    ∧ length (lines st) = 12%nat.
Proof.
  destruct (turtle_triples_event_ids UCD.nfc (u8 "dbo:Event") []
    [ {[ u8 "subject" := u8 "A"; u8 "predicate" := u8 "p"; u8 "object" := u8 "x" ]};
      {[ u8 "subject" := u8 "B"; u8 "predicate" := u8 "p"; u8 "object" := u8 "y" ]};
      {[ u8 "subject" := u8 "A"; u8 "predicate" := u8 "q"; u8 "object" := u8 "z" ]} ])
    as (st & Hrun & Hids & _ & Hlines).
  - repeat apply Forall_cons_2; try apply Forall_nil_2;
      (split; [|split]); by eexists.
  - exists st. split; [exact Hrun|]. split.
    + apply Hids. exists 1%nat. split; vm_compute; reflexivity.
    + rewrite Hlines. reflexivity.
Defined.

Section TurtleOrder.

Variable NFC : str → str.

Lemma subjects_lookup triples i s :
  Forall complete triples →
  subjects triples !! i = Some s
  ↔ ∃ t, triples !! i = Some t ∧ t !! u8 "subject" = Some s.
Proof.
  intros Hall. revert i. induction Hall as [|t ts ([s0 Hs0] & _) _ IH]; intros i.
  - split; [done|]. by intros (t & Ht & _).
  - unfold subjects. cbn [omap list_omap]. rewrite Hs0. destruct i as [|i].
    + cbn [lookup list_lookup]. split.
      * intros [= <-]. by exists t.
      * intros (t' & [= <-] & Hs). congruence.
    + cbn [lookup list_lookup]. apply IH.
Qed.

Lemma fold_note_distinct l D : NoDup (D ++ l) → fold_left note l D = D ++ l.
Proof.
  revert D. induction l as [|x l IH]; intros D HD; cbn [fold_left].
  - by rewrite app_nil_r.
  - assert (x ∉ D) as Hx.
    { apply NoDup_app in HD as (_ & Hdis & _). intros Hin.
      apply (Hdis x Hin). apply list_elem_of_here. }
    unfold note. rewrite bool_decide_eq_false_2 by done.
    rewrite IH; rewrite <- (assoc_L (++)); done.
Qed.

(** X15. The event ids of [export_turtle] are the positional ids
    [:Event_1], [:Event_2], ... that [export_jsonld] and [export_ntriples]
    give to the triples exactly when no two triples have the same
    subject. *)
Theorem turtle_ids_positional tbox_class lines0 triples st :
  Forall complete triples →
  turtle_triples NFC tbox_class
    {| lines := lines0; event_map := ∅; event_counter := 1 |} triples = Ok st →
  (∀ i t, triples !! i = Some t →
          event_of (event_map st) t = canonical_event_id (S i))
  ↔ NoDup (subjects triples).
Proof.
  intros Hall Hrun.
  destruct (turtle_triples_spec NFC tbox_class triples _ []
              (numbered_initial lines0) Hall)
    as (st' & Hrun' & (_ & _ & Hids) & _).
  rewrite Hrun in Hrun'. injection Hrun' as <-. split.
  - intros Hpos. apply NoDup_alt. intros i j s Hi Hj.
    apply (subjects_lookup _ _ _ Hall) in Hi as (ti & Hti & Hsi).
    apply (subjects_lookup _ _ _ Hall) in Hj as (tj & Htj & Hsj).
    pose proof (Hpos i ti Hti) as Ei. pose proof (Hpos j tj Htj) as Ej.
    unfold event_of in Ei, Ej. rewrite Hsi in Ei. rewrite Hsj in Ej.
    rewrite Ei in Ej. apply canonical_event_id_inj in Ej. by injection Ej.
  - intros Hdis i t Ht.
    destruct (proj1 (Forall_forall _ _) Hall t) as ([s Hs] & _).
    { by eapply list_elem_of_lookup_2. }
    assert (subjects triples !! i = Some s) as Hi
      by (apply (subjects_lookup _ _ _ Hall); eauto).
    unfold event_of. rewrite Hs.
    assert (event_map st !! s = Some (canonical_event_id (S i))) as ->; [|done].
    apply Hids. exists i. split; [|done].
    change (fold_left note (subjects triples) []) with (first_seen (subjects triples)).
    unfold first_seen. by rewrite fold_note_distinct.
Qed.

End TurtleOrder.

Lemma turtle_ids_positional_witness :
  ∃ st, turtle_triples UCD.nfc (u8 "dbo:Event")
          {| lines := []; event_map := ∅; event_counter := 1 |}
          [ {[ u8 "subject" := u8 "A"; u8 "predicate" := u8 "p"; u8 "object" := u8 "x" ]};
            {[ u8 "subject" := u8 "A"; u8 "predicate" := u8 "q"; u8 "object" := u8 "z" ]} ]
        = Ok st
    ∧ ¬ ∀ i t,
          [ ({[ u8 "subject" := u8 "A"; u8 "predicate" := u8 "p"; u8 "object" := u8 "x" ]}
               : triple);
            {[ u8 "subject" := u8 "A"; u8 "predicate" := u8 "q"; u8 "object" := u8 "z" ]} ]
            !! i = Some t →
          event_of (event_map st) t = canonical_event_id (S i).
Proof.
  eexists. split; [vm_compute; reflexivity|].
  intros Hpos.
  eapply (turtle_ids_positional UCD.nfc (u8 "dbo:Event") []) in Hpos.
  - apply NoDup_cons in Hpos as [Hnot _]. apply Hnot. vm_compute. left.
  - repeat apply Forall_cons_2; try apply Forall_nil_2;
      (split; [|split]); by eexists.
  - vm_compute. reflexivity.
Defined.

(** ** The exporters *)

Section Exporters.

Variable NFC : str → str.
Variable os_makedirs : filesystem → str → result filesystem.
Variable os_write : filesystem → str → str → result filesystem.
Variable json_dump : json → str.

Lemma load_tbox_template_no_class fs theme :
  theme ≠ u8 "event" → theme ≠ u8 "cultural" →
  ∃ msg, TBoxLoader.load_tbox_template fs theme None = Raise (ValueError msg).
Proof.
  intros He Hc. unfold TBoxLoader.load_tbox_template.
  rewrite !decide_False by done. destruct (decide _); by eexists.
Qed.

Lemma export_turtle_needs_builtin_theme_aux fs triples tbox_class theme save_path :
  theme ≠ u8 "event" → theme ≠ u8 "cultural" →
  ∃ msg, export_turtle NFC os_makedirs os_write fs triples tbox_class theme
           save_path = Raise (ValueError msg).
Proof.
  intros He Hc.
  destruct (load_tbox_template_no_class fs theme He Hc) as [msg Hmsg].
  exists msg. unfold export_turtle. by rewrite Hmsg.
Qed.

(** X16. [export_turtle] loads the template of the theme without a class
    of the user: for every theme other than "event" and "cultural", and so
    for "other" whatever [tbox_class] is passed, it raises [ValueError]
    before it looks at a triple or writes anything. *)
Theorem export_turtle_needs_builtin_theme fs triples tbox_class theme save_path :
  theme ≠ u8 "event" → theme ≠ u8 "cultural" →
  ∃ msg, export_turtle NFC os_makedirs os_write fs triples tbox_class theme
           save_path = Raise (ValueError msg).
Proof.
  intros He Hc.
  destruct (load_tbox_template_no_class fs theme He Hc) as [msg Hmsg].
  exists msg. unfold export_turtle. by rewrite Hmsg.
Qed.

Lemma getitem_delete (t : triple) k k' :
  k ≠ k' → getitem (delete k' t) k = getitem t k.
Proof. intros Hne. unfold getitem. by rewrite lookup_delete_ne. Qed.

Lemma ntriples_triple_delete tbox_class i t :
  ntriples_triple NFC tbox_class i (delete (u8 "subject") t)
  = ntriples_triple NFC tbox_class i t.
Proof.
  unfold ntriples_triple. by rewrite !getitem_delete by (by vm_compute).
Qed.

Lemma ntriples_lines_delete tbox_class triples i lines :
  ntriples_lines NFC tbox_class i lines (delete (u8 "subject") <$> triples)
  = ntriples_lines NFC tbox_class i lines triples.
Proof.
  revert i lines. induction triples as [|t ts IH]; intros i lines; [done|].
  cbn [fmap list_fmap ntriples_lines]. rewrite ntriples_triple_delete.
  destruct (ntriples_triple NFC tbox_class i t); cbn [mbind result_bind]; [|done].
  apply IH.
Qed.

Lemma ntriples_lines_ok tbox_class triples i lines :
  Forall has_statement triples →
  ∃ new, ntriples_lines NFC tbox_class i lines triples = Ok (lines ++ new)
    ∧ length new = (2 * length triples)%nat
    ∧ ∀ j t, triples !! j = Some t →
        ntriples_triple NFC tbox_class (i + j) t
        = Ok (take 2 (drop (2 * j) new)).
Proof.
  intros Hall. revert i lines.
  induction Hall as [|t ts ([o Ho] & [p Hp]) _ IH]; intros i lines.
  - exists []. cbn. by rewrite app_nil_r.
  - cbn [ntriples_lines]. unfold ntriples_triple at 1, getitem.
    rewrite Ho, Hp. cbn [mbind result_bind].
    match goal with
    | |- context [ntriples_lines _ _ _ (lines ++ ?ls) ts] =>
        destruct (IH (S i) (lines ++ ls)) as (new & Hrun & Hlen & Hat);
        exists (ls ++ new)
    end.
    rewrite Hrun, (assoc_L (++) lines). split; [done|]. split.
    + cbn [length app]. lia.
    + intros [|j] t' Ht'.
      * injection Ht' as <-. rewrite Nat.add_0_r.
        unfold ntriples_triple, getitem. rewrite Ho, Hp. done.
      * cbn [lookup list_lookup] in Ht'.
        replace (i + S j)%nat with (S i + j)%nat by lia.
        rewrite (Hat j t' Ht').
        replace (2 * S j)%nat with (S (S (2 * j))) by lia. done.
Qed.

(** X17. [export_ntriples] never reads the subject of a triple: the output
    is the same when every subject is removed. Over triples that have an
    object and a predicate it does not fail and writes two lines for each
    triple, those of the triple at position [j] being numbered [j + 1]. *)
Theorem ntriples_output_ignores_subject tbox_class triples :
  ntriples_output NFC tbox_class (delete (u8 "subject") <$> triples)
  = ntriples_output NFC tbox_class triples
  ∧ (Forall has_statement triples →
     ∃ lines, ntriples_lines NFC tbox_class 1 [] triples = Ok lines
       ∧ ntriples_output NFC tbox_class triples = Ok (join [LF] lines)
       ∧ length lines = (2 * length triples)%nat
       ∧ ∀ j t, triples !! j = Some t →
           ntriples_triple NFC tbox_class (S j) t
           = Ok (take 2 (drop (2 * j) lines))).
Proof.
  split.
  - unfold ntriples_output. by rewrite ntriples_lines_delete.
  - intros Hall.
    destruct (ntriples_lines_ok tbox_class triples 1 [] Hall)
      as (new & Hrun & Hlen & Hat).
    exists new. unfold ntriples_output. rewrite Hrun. done.
Qed.

(** X18. Each exporter raises [KeyError] for the first key it asks a
    triple for and does not find: [export_turtle] asks for "subject",
    "object", "predicate" in this order, [export_jsonld] for "object",
    "predicate", "subject", and [export_ntriples] for "object" and
    "predicate" only; a triple that has the keys asked for is exported. *)
Theorem exporters_key_errors tbox_class st i t :
  match first_missing [u8 "subject"; u8 "object"; u8 "predicate"] t with
  | Some k => turtle_triple NFC tbox_class st t = Raise (KeyError k)
  | None => ∃ st', turtle_triple NFC tbox_class st t = Ok st'
  end
  ∧ match first_missing [u8 "object"; u8 "predicate"; u8 "subject"] t with
    | Some k => jsonld_node NFC tbox_class i t = Raise (KeyError k)
    | None => ∃ node, jsonld_node NFC tbox_class i t = Ok node
    end
  ∧ match first_missing [u8 "object"; u8 "predicate"] t with
    | Some k => ntriples_triple NFC tbox_class i t = Raise (KeyError k)
    | None => ∃ ls, ntriples_triple NFC tbox_class i t = Ok ls
    end.
Proof.
  unfold first_missing, turtle_triple, jsonld_node, ntriples_triple, getitem,
    has_key.
  cbn [find].
  destruct (t !! u8 "subject") as [s|]; cbn [mbind result_bind negb];
    destruct (t !! u8 "object") as [o|]; cbn [mbind result_bind negb];
    destruct (t !! u8 "predicate") as [p|]; cbn [mbind result_bind negb];
    repeat split; try done; try (by eexists);
    destruct (get_event_id s st); cbn [mbind result_bind]; done || by eexists.
Qed.

Lemma slugify_map text : slugify NFC text = map slug_point (NFC text).
Proof.
  unfold slugify, replace. induction (NFC text) as [|c x IH]; [done|].
  cbn [flat_map map]. rewrite !flat_map_app, IH. f_equal.
  unfold slug_point, separator.
  destruct (c =? 0x20) eqn:E1; [done|]. cbn [flat_map app orb].
  destruct (c =? 0x2F) eqn:E2; [done|]. cbn [flat_map app orb].
  by destruct (c =? 0x5C) eqn:E3.
Qed.

(** X19. [slugify] rewrites the normalised text code point by code point:
    blank, slash and backslash become an underscore and nothing else
    changes, so that the slug has the length of the normalised text and
    none of the three characters; every other white space stays. Texts
    whose normal forms differ only in which of the three characters or the
    underscore stands at a position have the same slug. *)
Theorem slugify_pointwise text text' :
  slugify NFC text = map slug_point (NFC text)
  ∧ length (slugify NFC text) = length (NFC text)
  ∧ Forall (λ c, separator c = false) (slugify NFC text)
  ∧ (Forall2 (λ c c', c = c' ∨ (slug_point c = 0x5F ∧ slug_point c' = 0x5F))
       (NFC text) (NFC text') →
     slugify NFC text = slugify NFC text').
Proof.
  rewrite !slugify_map. split; [done|]. split; [by rewrite length_map|]. split.
  - apply Forall_map, Forall_forall. intros c _. unfold slug_point.
    destruct (separator c) eqn:E; [done|]. cbn. exact E.
  - intros Hall. induction Hall as [|c c' x y [->|[H1 H2]] _ IH];
      cbn [map]; [done| |]; by rewrite ?H1, ?H2, IH.
Qed.

Lemma export_turtle_path fs triples tbox_class theme save_path p fs' :
  export_turtle NFC os_makedirs os_write fs triples tbox_class theme save_path
  = Ok (p, fs') → p = save_path.
Proof.
  unfold export_turtle.
  destruct (TBoxLoader.load_tbox_template fs theme None) as [[tpl c]|];
    cbn [mbind result_bind]; [|done].
  destruct (turtle_output NFC tpl tbox_class triples); cbn [mbind result_bind];
    [|done].
  destruct (os_makedirs fs _); cbn [mbind result_bind]; [|done].
  destruct (os_write _ _ _); cbn [mbind result_bind]; [|done].
  by intros [= <- _].
Qed.

Lemma export_jsonld_path fs triples tbox_class theme save_path p fs' :
  export_jsonld NFC os_makedirs os_write json_dump fs triples tbox_class theme
    save_path = Ok (p, fs') → p = save_path.
Proof.
  unfold export_jsonld.
  destruct (jsonld_document NFC tbox_class triples); cbn [mbind result_bind];
    [|done].
  destruct (os_makedirs fs _); cbn [mbind result_bind]; [|done].
  destruct (os_write _ _ _); cbn [mbind result_bind]; [|done].
  by intros [= <- _].
Qed.

Lemma export_ntriples_path fs triples tbox_class save_path p fs' :
  export_ntriples NFC os_makedirs os_write fs triples tbox_class save_path
  = Ok (p, fs') → p = save_path.
Proof.
  unfold export_ntriples.
  destruct (ntriples_output NFC tbox_class triples); cbn [mbind result_bind];
    [|done].
  destruct (os_makedirs fs _); cbn [mbind result_bind]; [|done].
  destruct (os_write _ _ _); cbn [mbind result_bind]; [|done].
  by intros [= <- _].
Qed.

Lemma reported_step (f : str → str) (fmts done : list str)
    (paths : gmap str str) (k0 : str) :
  (∀ k, paths !! k
        = if bool_decide (k ∈ done ∧ k ∈ fmts) then Some (f k) else None) →
  ∀ k, (if bool_decide (k0 ∈ fmts) then <[k0 := f k0]> paths else paths) !! k
       = if bool_decide (k ∈ done ++ [k0] ∧ k ∈ fmts) then Some (f k) else None.
Proof.
  intros Hrep k. destruct (decide (k = k0)) as [->|Hne].
  - case_bool_decide as Hin.
    + rewrite lookup_insert_eq, bool_decide_eq_true_2; [done|].
      split; [|done]. apply elem_of_app. right. apply list_elem_of_here.
    + rewrite Hrep, !bool_decide_eq_false_2; [done|tauto|tauto].
  - assert ((if bool_decide (k0 ∈ fmts) then <[k0 := f k0]> paths else paths) !! k
            = paths !! k) as ->.
    { case_bool_decide; [by rewrite lookup_insert_ne|done]. }
    rewrite Hrep. apply (f_equal (λ b : bool, if b then _ else _)).
    apply bool_decide_ext. rewrite elem_of_app, list_elem_of_singleton. tauto.
Qed.

(** X20. When [export_rdf] returns, the paths it reports are those of the
    formats asked for among "ttl", "jsonld" and "nt", each the file
    [graph.<format>] in the folder; any other entry of [formats] is
    passed over in silence. *)
Theorem export_rdf_paths fs triples tbox_class theme formats folder paths fs' :
  export_rdf NFC os_makedirs os_write json_dump fs triples tbox_class theme
    formats folder = Ok (paths, fs') →
  ∀ k, paths !! k
       = if bool_decide (k ∈ [u8 "ttl"; u8 "jsonld"; u8 "nt"]
                         ∧ k ∈ default [u8 "ttl"; u8 "jsonld"; u8 "nt"] formats)
         then Some (path_join folder (u8 "graph." ++ k))
         else None.
Proof.
  unfold export_rdf.
  assert (default [u8 "ttl"; u8 "jsonld"; u8 "nt"] formats
          = match formats with
            | Some formats => formats
            | None => [u8 "ttl"; u8 "jsonld"; u8 "nt"]
            end) as <- by (by destruct formats).
  generalize (default [u8 "ttl"; u8 "jsonld"; u8 "nt"] formats). intros fmts.
  destruct (os_makedirs fs folder) as [fs0|]; cbn [mbind result_bind]; [|done].
  assert (∀ k, (∅ : gmap str str) !! k
               = if bool_decide (k ∈ [] ∧ k ∈ fmts)
                 then Some (path_join folder (u8 "graph." ++ k)) else None) as R0.
  { intros k. rewrite lookup_empty, bool_decide_eq_false_2; [done|].
    intros [[]%elem_of_nil _]. }
  set (f := λ k : str, path_join folder (u8 "graph." ++ k)).
  pose proof (reported_step f fmts _ _ (u8 "nt")
                (reported_step f fmts _ _ (u8 "jsonld")
                   (reported_step f fmts [] ∅ (u8 "ttl") R0))) as R.
  cbn [app] in R. revert R.
  destruct (bool_decide (u8 "ttl" ∈ fmts)).
  - destruct (export_turtle _ _ _ _ _ _ _ _) as [[p1 fs1]|] eqn:E1;
      cbn [mbind result_bind]; [|done].
    apply export_turtle_path in E1 as ->.
    destruct (bool_decide (u8 "jsonld" ∈ fmts)).
    + destruct (export_jsonld _ _ _ _ _ _ _ _ _) as [[p2 fs2]|] eqn:E2;
        cbn [mbind result_bind]; [|done].
      apply export_jsonld_path in E2 as ->.
      destruct (bool_decide (u8 "nt" ∈ fmts)); cbn [mbind result_bind].
      * destruct (export_ntriples _ _ _ _ _ _ _) as [[p3 fs3]|] eqn:E3;
          cbn [mbind result_bind]; [|done].
        apply export_ntriples_path in E3 as ->. intros R [= <- _]. exact R.
      * intros R [= <- _]. exact R.
    + cbn [mbind result_bind].
      destruct (bool_decide (u8 "nt" ∈ fmts)); cbn [mbind result_bind].
      * destruct (export_ntriples _ _ _ _ _ _ _) as [[p3 fs3]|] eqn:E3;
          cbn [mbind result_bind]; [|done].
        apply export_ntriples_path in E3 as ->. intros R [= <- _]. exact R.
      * intros R [= <- _]. exact R.
  - cbn [mbind result_bind]. destruct (bool_decide (u8 "jsonld" ∈ fmts)).
    + destruct (export_jsonld _ _ _ _ _ _ _ _ _) as [[p2 fs2]|] eqn:E2;
        cbn [mbind result_bind]; [|done].
      apply export_jsonld_path in E2 as ->.
      destruct (bool_decide (u8 "nt" ∈ fmts)); cbn [mbind result_bind].
      * destruct (export_ntriples _ _ _ _ _ _ _) as [[p3 fs3]|] eqn:E3;
          cbn [mbind result_bind]; [|done].
        apply export_ntriples_path in E3 as ->. intros R [= <- _]. exact R.
      * intros R [= <- _]. exact R.
    + cbn [mbind result_bind].
      destruct (bool_decide (u8 "nt" ∈ fmts)); cbn [mbind result_bind].
      * destruct (export_ntriples _ _ _ _ _ _ _) as [[p3 fs3]|] eqn:E3;
          cbn [mbind result_bind]; [|done].
        apply export_ntriples_path in E3 as ->. intros R [= <- _]. exact R.
      * intros R [= <- _]. exact R.
Qed.

(** X21. The theme reaches only the Turtle export. When "ttl" is not
    among the formats the result of [export_rdf] is the same for every
    theme; when it is, as by default, and the theme is neither "event" nor
    "cultural", [export_rdf] raises [ValueError] once the folder is made,
    and no format is exported. *)
Theorem export_rdf_theme fs triples tbox_class theme theme' formats folder fs0 :
  (u8 "ttl" ∉ default [u8 "ttl"; u8 "jsonld"; u8 "nt"] formats →
   export_rdf NFC os_makedirs os_write json_dump fs triples tbox_class theme
     formats folder
   = export_rdf NFC os_makedirs os_write json_dump fs triples tbox_class theme'
       formats folder)
  ∧ (u8 "ttl" ∈ default [u8 "ttl"; u8 "jsonld"; u8 "nt"] formats →
     theme ≠ u8 "event" → theme ≠ u8 "cultural" →
     os_makedirs fs folder = Ok fs0 →
     ∃ msg, export_rdf NFC os_makedirs os_write json_dump fs triples tbox_class
              theme formats folder = Raise (ValueError msg)).
Proof.
  unfold export_rdf.
  assert (default [u8 "ttl"; u8 "jsonld"; u8 "nt"] formats
          = match formats with
            | Some formats => formats
            | None => [u8 "ttl"; u8 "jsonld"; u8 "nt"]
            end) as <- by (by destruct formats).
  generalize (default [u8 "ttl"; u8 "jsonld"; u8 "nt"] formats). intros fmts.
  split.
  - intros Hno. rewrite (bool_decide_eq_false_2 _ Hno). done.
  - intros Hyes He Hc ->. cbn [mbind result_bind].
    rewrite (bool_decide_eq_true_2 _ Hyes).
    destruct (export_turtle_needs_builtin_theme_aux fs0 triples tbox_class theme
                (path_join folder (u8 "graph.ttl")) He Hc) as [msg ->].
    by exists msg.
Qed.

End Exporters.

Lemma export_turtle_needs_builtin_theme_witness :
  ∃ msg, export_turtle UCD.nfc (λ fs _, Ok fs) (λ fs p c, Ok (<[p := File c]> fs))
           ∅ [] (u8 "ex:Custom") (u8 "other") (u8 "out/graph.ttl")
         = Raise (ValueError msg).
Proof.
  apply (export_turtle_needs_builtin_theme UCD.nfc (λ fs _, Ok fs)
           (λ fs p c, Ok (<[p := File c]> fs)) ∅ [] (u8 "ex:Custom") (u8 "other")
           (u8 "out/graph.ttl")); by vm_compute.
Defined.

Lemma slugify_pointwise_witness :
  slugify UCD.nfc (u8 "Abu Dhabi") = slugify UCD.nfc (u8 "Abu/Dhabi").
Proof.
  apply (slugify_pointwise UCD.nfc (u8 "Abu Dhabi") (u8 "Abu/Dhabi")).
  vm_compute.
  repeat (apply List.Forall2_cons; [first [by left|by right]|]).
  apply List.Forall2_nil.
Defined.

(** ** Sentences and chunks *)

Section Chunks.

Variable NFC : str → str.

Lemma words_lstrip s : words (lstrip s) = words s.
Proof.
  induction s as [|c r IH]; [done|]. cbn [lstrip].
  destruct (isspace c) eqn:Hc; [|done].
  rewrite IH. unfold words. cbn [words_go]. by rewrite Hc.
Qed.

Lemma words_snoc_space x c : isspace c = true → words (x ++ [c]) = words x.
Proof. intros Hc. by rewrite (words_app_space x c [] Hc), app_nil_r. Qed.

Lemma words_rstrip s : words (rstrip s) = words s.
Proof.
  unfold rstrip. rewrite <- (rev_involutive s) at 2.
  induction (rev s) as [|c r IH]; [done|]. cbn [lstrip].
  destruct (isspace c) eqn:Hc; [|done].
  rewrite IH. cbn [rev]. by rewrite words_snoc_space.
Qed.

Lemma words_strip s : words (strip s) = words s.
Proof. unfold strip. by rewrite words_rstrip, words_lstrip. Qed.

Lemma words_blank s : strip s = [] → words s = [].
Proof. intros Hs. by rewrite <- words_strip, Hs. Qed.

Lemma strip_snoc_blank_length x :
  (length (strip (x ++ [SP])) ≤ length x)%nat.
Proof.
  destruct (strip_infix (x ++ [SP])) as (a & b & Hab).
  pose proof (strip_tidy (x ++ [SP])) as [_ Hlast].
  pose proof (f_equal length Hab) as Hlen. rewrite !length_app in Hlen.
  cbn [length] in Hlen.
  destruct b as [|d b]; [|cbn [length] in Hlen; lia].
  rewrite app_nil_r in Hab.
  apply (f_equal (@rev N)) in Hab. rewrite !rev_app_distr in Hab.
  change (rev [SP]) with [SP] in Hab. cbn [app] in Hab.
  destruct (rev (strip (x ++ [SP]))) as [|z w] eqn:Ez.
  - apply (f_equal (@rev N)) in Ez. rewrite rev_involutive in Ez.
    rewrite Ez. cbn. lia.
  - cbn [app] in Hab. injection Hab as <- _. by cbn in Hlast.
Qed.

Lemma strip_snoc_blank_tidy s : s ≠ [] → tidy s → strip (s ++ [SP]) = s.
Proof.
  intros Hne [Hh Hl].
  assert (head_is isspace (s ++ [SP]) = false) as Hh' by (by destruct s).
  unfold strip. rewrite (lstrip_fixed _ Hh'). unfold rstrip.
  rewrite rev_app_distr. change (rev [SP]) with [SP].
  change (lstrip ([SP] ++ rev s)) with (lstrip (rev s)).
  rewrite lstrip_fixed by done. apply rev_involutive.
Qed.

Lemma strip_snoc_blank s : tidy s → strip (s ++ [SP]) = s.
Proof.
  intros Hs. destruct (decide (s = [])) as [->|Hne]; [done|].
  by apply strip_snoc_blank_tidy.
Qed.

Lemma chunk_step_cases max_length chunks current s :
  (chunk_step max_length (chunks, current) s = (chunks, current ++ s ++ [SP])
   ∧ (current = []
      ∨ (Z.of_nat (length current) + Z.of_nat (length s) + 1 ≤ max_length)%Z))
  ∨ (chunk_step max_length (chunks, current) s
     = (chunks ++ [strip current], s ++ [SP])
     ∧ current ≠ []).
Proof.
  unfold chunk_step.
  destruct (Z.gtb_spec (Z.of_nat (length current) + Z.of_nat (length s) + 1)
              max_length) as [Hgt|Hle].
  - destruct current as [|c current]; cbn [truthy]; [left; by auto|by right].
  - left. split; [done|]. right. lia.
Qed.

Lemma flat_map_snoc {A B} (f : A → list B) l x :
  flat_map f (l ++ [x]) = flat_map f l ++ f x.
Proof. by rewrite flat_map_app; cbn; rewrite app_nil_r. Qed.

(** The loop of [chunk_text] keeps the words of the sentences. *)
Lemma chunk_loop_words max_length sentences chunks current chunks' current' :
  (current = [] ∨ ∃ y, current = y ++ [SP]) →
  fold_left (chunk_step max_length) sentences (chunks, current)
  = (chunks', current') →
  flat_map words chunks' ++ words current'
  = flat_map words chunks ++ words current ++ flat_map words sentences.
Proof.
  revert chunks current.
  induction sentences as [|s ss IH]; intros chunks current Hcur; cbn [fold_left].
  - intros [= <- <-]. cbn. by rewrite app_nil_r.
  - assert (words (current ++ s ++ [SP]) = words current ++ words s) as Hw.
    { rewrite (assoc_L (++)), words_snoc_space by done.
      destruct Hcur as [->|[y ->]]; [done|].
      rewrite <- (assoc_L (++)). cbn [app].
      by rewrite (words_app_space y SP s), words_snoc_space. }
    destruct (chunk_step_cases max_length chunks current s) as [[-> _]|[-> Hne]];
      intros Hrun.
    + apply IH in Hrun.
      * rewrite Hrun, Hw. cbn [flat_map]. by rewrite <- !(assoc_L (++)).
      * right. exists (current ++ s). by rewrite (assoc_L (++)).
    + apply IH in Hrun; [|right; by exists s].
      rewrite Hrun, flat_map_snoc, words_strip. cbn [flat_map].
      rewrite words_snoc_space by done. by rewrite <- !(assoc_L (++)).
Qed.

(** The loop of [chunk_text] closes a chunk of [max_length] characters or
    more only if it is a single sentence. *)
Lemma chunk_loop_sizes max_length (good : str → Prop) sentences chunks current
    chunks' current' :
  Forall (λ s, tidy s ∧ good s) sentences →
  (current = [] ∨ ∃ x, current = x ++ [SP]
                       ∧ ((Z.of_nat (length current) ≤ max_length)%Z
                          ∨ (tidy x ∧ good x))) →
  Forall (λ c, tidy c ∧ ((Z.of_nat (length c) < max_length)%Z ∨ good c)) chunks →
  fold_left (chunk_step max_length) sentences (chunks, current)
  = (chunks', current') →
  Forall (λ c, tidy c ∧ ((Z.of_nat (length c) < max_length)%Z ∨ good c))
    (if truthy (strip current') then chunks' ++ [strip current'] else chunks').
Proof.
  intros Hall. revert chunks current.
  assert (∀ current,
            (current = [] ∨ ∃ x, current = x ++ [SP]
                                 ∧ ((Z.of_nat (length current) ≤ max_length)%Z
                                    ∨ (tidy x ∧ good x))) →
            current ≠ [] →
            tidy (strip current)
            ∧ ((Z.of_nat (length (strip current)) < max_length)%Z
               ∨ good (strip current))) as Hclose.
  { intros current [->|(x & -> & Hx)] Hne; [done|].
    split; [apply strip_tidy|]. destruct Hx as [Hlen|[Hx Hgood]].
    - left. pose proof (strip_snoc_blank_length x) as Hle.
      rewrite length_app in Hlen. cbn [length] in Hlen. lia.
    - right. by rewrite strip_snoc_blank. }
  induction Hall as [|s ss [Hs Hgood] _ IH]; intros chunks current Hcur Hchunks;
    cbn [fold_left].
  - intros [= <- <-]. destruct (truthy (strip current)) eqn:Ht; [|done].
    apply Forall_app. split; [done|]. apply Forall_singleton, Hclose; [done|].
    by intros ->.
  - destruct (chunk_step_cases max_length chunks current s)
      as [[-> Hfit]|[-> Hne]]; intros Hrun.
    + apply IH in Hrun; [done| |done].
      right. exists (current ++ s). split; [by rewrite (assoc_L (++))|].
      destruct Hfit as [->|Hfit]; [by right|].
      left. rewrite !length_app. cbn [length]. lia.
    + apply IH in Hrun; [done| |].
      * right. exists s. by auto.
      * apply Forall_app. split; [done|]. by apply Forall_singleton, Hclose.
Qed.

(** X22. [chunk_text] regroups the sentences and loses nothing: the words
    of the chunks, in order, are the words of the sentences that
    [split_sentences] returns, whatever [max_length] is. *)
Theorem chunk_text_keeps_words text max_length :
  flat_map words (chunk_text NFC text max_length)
  = flat_map words (split_sentences NFC text).
Proof.
  unfold chunk_text.
  destruct (fold_left _ _ _) as [chunks current] eqn:Hrun.
  apply chunk_loop_words in Hrun; [|by left].
  change (words []) with (@nil str) in Hrun. cbn [flat_map app] in Hrun.
  rewrite <- Hrun.
  destruct (truthy (strip current)) eqn:Ht.
  - by rewrite flat_map_snoc, words_strip.
  - rewrite (words_blank current), app_nil_r; [done|].
    by destruct (strip current).
Qed.

(** X23. Every chunk of [chunk_text] is stripped, and a chunk of
    [max_length] characters or more is one of the sentences on its own:
    the bound is exceeded only where a single sentence exceeds it. *)
Theorem chunk_text_sizes text max_length :
  Forall (λ c, tidy c
               ∧ ((Z.of_nat (length c) < max_length)%Z
                  ∨ c ∈ split_sentences NFC text))
    (chunk_text NFC text max_length).
Proof.
  unfold chunk_text.
  destruct (fold_left _ _ _) as [chunks current] eqn:Hrun.
  apply (chunk_loop_sizes max_length (λ c, c ∈ split_sentences NFC text))
    in Hrun; [done| |by left|done].
  apply Forall_forall. intros s Hs. split; [|done].
  unfold split_sentences in Hs. destruct (negb (truthy text)).
  - by apply elem_of_nil in Hs.
  - apply list_elem_of_fmap in Hs as (p & -> & _).
    apply strip_fixed_tidy, clean_text_tidy.
Qed.

Lemma words_go_space cur c r :
  isspace c = true → words_go cur (c :: r) = words_go cur [] ++ words_go [] r.
Proof. intros Hc. cbn [words_go]. rewrite Hc. by destruct cur. Qed.

Lemma words_go_newlines s : ∀ cur,
  words_go cur (newlines_to_blank s) = words_go cur s.
Proof.
  induction s as [|c r IH]; intros cur; [done|]. cbn [newlines_to_blank].
  destruct (N.eqb_spec c LF) as [->|Hc].
  - destruct r as [|d r'].
    + by rewrite !words_go_space.
    + destruct (N.eqb_spec d LF) as [->|Hd].
      * rewrite IH. by rewrite !(words_go_space cur LF), (words_go_space [] LF).
      * rewrite !(words_go_space cur) by done. by rewrite IH.
  - cbn [words_go]. destruct (isspace c); [destruct cur|]; by rewrite IH.
Qed.

Lemma newlines_to_blank_no_line_break s : LF ∉ newlines_to_blank s.
Proof.
  induction s as [|c r IH]; [by intros ?%elem_of_nil|]. cbn [newlines_to_blank].
  destruct (N.eqb_spec c LF) as [->|Hc].
  - destruct r as [|d r']; [by intros [=]%list_elem_of_singleton|].
    destruct (d =? LF); [done|].
    intros [[=]|Hin]%elem_of_cons. done.
  - intros [Heq|Hin]%elem_of_cons; [by subst|done].
Qed.

Lemma sentence_split_words s : ∀ skipping cur,
  (skipping = true → cur = []) →
  flat_map words (sentence_split skipping cur s) = words (rev cur ++ s).
Proof.
  induction s as [|c r IH]; intros skipping cur Hskip; cbn [sentence_split].
  - cbn [flat_map]. by rewrite !app_nil_r.
  - destruct (skipping && isspace c) eqn:E1.
    + apply andb_true_iff in E1 as [-> Hc]. rewrite (Hskip eq_refl).
      rewrite IH by done. cbn [rev app]. unfold words.
      by rewrite (words_go_space [] c r Hc).
    + destruct (isspace c && head_is sentence_mark cur) eqn:E2.
      * apply andb_true_iff in E2 as [Hc _]. cbn [flat_map].
        rewrite IH by done. cbn [rev app]. by rewrite words_app_space.
      * rewrite IH by done. cbn [rev]. by rewrite <- (assoc_L (++)).
Qed.

Lemma no_break_snoc x c :
  adjacent no_break (x ++ [c])
  = adjacent no_break x && negb (head_is sentence_mark (rev x) && isspace c).
Proof.
  induction x as [|d x IH].
  - cbn. unfold no_break. cbn. by rewrite andb_false_r.
  - cbn [app adjacent]. rewrite IH, <- andb_assoc.
    destruct x as [|e x].
    + cbn. unfold no_break. cbn [head_is]. by rewrite !andb_true_r, andb_false_r.
    + cbn [app]. unfold no_break at 1 3. cbn [head_is]. f_equal. f_equal.
      cbn [rev]. rewrite <- (assoc_L (++)).
      by destruct (rev x).
Qed.

Lemma sentence_split_no_break s : ∀ skipping cur,
  adjacent no_break (rev cur) = true →
  Forall (λ p, adjacent no_break p = true) (sentence_split skipping cur s).
Proof.
  induction s as [|c r IH]; intros skipping cur Hcur; cbn [sentence_split].
  - by apply Forall_singleton.
  - destruct (skipping && isspace c); [by apply IH|].
    destruct (isspace c && head_is sentence_mark cur) eqn:E2.
    + apply Forall_cons. split; [done|]. by apply IH.
    + apply IH. cbn [rev]. rewrite no_break_snoc, rev_involutive, Hcur.
      by rewrite (andb_comm (head_is _ _)), E2.
Qed.

Lemma elem_of_rev (x : N) (l : str) : x ∈ rev l ↔ x ∈ l.
Proof. by rewrite !list_elem_of_In, <- in_rev. Qed.

Lemma sentence_split_elements s : ∀ skipping cur p x,
  p ∈ sentence_split skipping cur s → x ∈ p → x ∈ cur ∨ x ∈ s.
Proof.
  induction s as [|c r IH]; intros skipping cur p x; cbn [sentence_split].
  - intros ->%list_elem_of_singleton Hx. left. by apply elem_of_rev.
  - destruct (skipping && isspace c).
    { intros Hp Hx. destruct (IH _ _ _ _ Hp Hx); [by left|].
      right. by apply elem_of_cons; right. }
    destruct (isspace c && head_is sentence_mark cur).
    + intros [->|Hp]%elem_of_cons Hx.
      * left. by apply elem_of_rev.
      * destruct (IH _ _ _ _ Hp Hx) as [[]%elem_of_nil|].
        right. by apply elem_of_cons; right.
    + intros Hp Hx. destruct (IH _ _ _ _ Hp Hx) as [[->|]%elem_of_cons|].
      * right. apply list_elem_of_here.
      * by left.
      * right. by apply elem_of_cons; right.
Qed.

(** X24. The sentences of [split_sentences] are the cleaned pieces of the
    text: pieces that together hold the words of the text in order, each
    with a character that is no space, none with a line feed, and none
    with a sentence mark before a space character, the place where the
    text is cut. *)
Theorem split_sentences_pieces text :
  ∃ pieces,
    split_sentences NFC text = map (clean_text NFC) pieces
    ∧ flat_map words pieces = words text
    ∧ Forall (λ p, strip p ≠ [] ∧ (LF ∉ p) ∧ adjacent no_break p = true) pieces.
Proof.
  unfold split_sentences. destruct text as [|c text]; cbn [truthy negb].
  { exists []. by split; [|split]. }
  set (t := c :: text).
  exists (List.filter (λ s, truthy (strip s))
            (sentence_split false [] (newlines_to_blank t))).
  split; [done|]. split.
  - pose proof (sentence_split_words (newlines_to_blank t) false []) as Hw.
    cbn [rev app] in Hw. unfold words at 2 in Hw.
    rewrite words_go_newlines in Hw. fold (words t) in Hw.
    rewrite <- Hw by done. clear Hw.
    induction (sentence_split false [] (newlines_to_blank t)) as [|p ps IH];
      [done|].
    cbn [List.filter flat_map]. destruct (truthy (strip p)) eqn:Hp.
    + cbn [flat_map]. by rewrite IH.
    + rewrite IH, (words_blank p); [done|]. by destruct (strip p).
  - apply Forall_forall. intros p [Hp Hkeep]%list_elem_of_In%filter_In.
    apply list_elem_of_In in Hp. split; [by destruct (strip p)|]. split.
    + intros Hin.
      destruct (sentence_split_elements _ _ _ _ _ Hp Hin) as [[]%elem_of_nil|Ht].
      by apply newlines_to_blank_no_line_break in Ht.
    + pose proof (sentence_split_no_break (newlines_to_blank t) false []
                    eq_refl) as Hnb.
      rewrite Forall_forall in Hnb. by apply Hnb.
Qed.

End Chunks.

Lemma ntriples_output_ignores_subject_witness :
  ∃ lines,
    ntriples_lines UCD.nfc (u8 "dbo:Event") 1 []
      [ {[ u8 "predicate" := u8 "occurredIn"; u8 "object" := u8 "Abu Dhabi" ]} ]
    = Ok lines
    ∧ length lines = 2%nat.
Proof.
  destruct (ntriples_output_ignores_subject UCD.nfc (u8 "dbo:Event")
    [ {[ u8 "predicate" := u8 "occurredIn"; u8 "object" := u8 "Abu Dhabi" ]} ])
    as [_ Hok].
  destruct Hok as (lines & Hrun & _ & Hlen & _).
  - apply Forall_cons_2; [|apply Forall_nil_2]. split; by eexists.
  - exists lines. split; [exact Hrun|exact Hlen].
Defined.

Lemma export_rdf_paths_witness :
  ∃ paths fs',
    export_rdf UCD.nfc (λ fs _, Ok fs) (λ fs p c, Ok (<[p := File c]> fs))
      (λ _, []) ∅
      [ {[ u8 "subject" := u8 "A"; u8 "predicate" := u8 "p"; u8 "object" := u8 "x" ]} ]
      (u8 "dbo:Event") (u8 "other") (Some [u8 "nt"; u8 "csv"]) (u8 "out")
    = Ok (paths, fs')
    ∧ paths !! u8 "nt" = Some (u8 "out/graph.nt")
    ∧ paths !! u8 "csv" = None.
Proof.
  destruct (export_rdf UCD.nfc (λ fs _, Ok fs) (λ fs p c, Ok (<[p := File c]> fs))
      (λ _, []) ∅
      [ {[ u8 "subject" := u8 "A"; u8 "predicate" := u8 "p"; u8 "object" := u8 "x" ]} ]
      (u8 "dbo:Event") (u8 "other") (Some [u8 "nt"; u8 "csv"]) (u8 "out"))
    as [[paths fs']|e] eqn:E.
  - exists paths, fs'. split; [reflexivity|].
    pose proof (export_rdf_paths _ _ _ _ _ _ _ _ _ _ _ _ E) as Hpaths.
    split; rewrite Hpaths; vm_compute; reflexivity.
  - exfalso. vm_compute in E. discriminate E.
Defined.

Lemma export_rdf_theme_witness :
  ∃ msg,
    export_rdf UCD.nfc (λ fs _, Ok fs) (λ fs p c, Ok (<[p := File c]> fs))
      (λ _, []) ∅
      [ {[ u8 "subject" := u8 "A"; u8 "predicate" := u8 "p"; u8 "object" := u8 "x" ]} ]
      (u8 "ex:Custom") (u8 "other") None (u8 "out")
    = Raise (ValueError msg).
Proof.
  destruct (export_rdf_theme UCD.nfc (λ fs _, Ok fs)
              (λ fs p c, Ok (<[p := File c]> fs)) (λ _, []) ∅
              [ {[ u8 "subject" := u8 "A"; u8 "predicate" := u8 "p";
                   u8 "object" := u8 "x" ]} ]
              (u8 "ex:Custom") (u8 "other") (u8 "event") None (u8 "out") ∅)
    as [_ Hraise].
  apply Hraise; [apply list_elem_of_here|by vm_compute|by vm_compute|reflexivity].
Defined.

(** ** The predicates of a theme *)

(** X25. The table of allowed predicates is written out twice, in
    [tbox_loader.py] and in [triple_generator.py]: the two agree for every
    theme, key by key and translation by translation, and are empty for
    every theme but "event" and "cultural". *)
Theorem load_allowed_predicates_agree theme :
  TBoxPredicates.load_allowed_predicates theme = get_allowed_predicates theme
  ∧ (TBoxPredicates.load_allowed_predicates theme = ∅
     ↔ theme ≠ u8 "event" ∧ theme ≠ u8 "cultural").
Proof.
  unfold TBoxPredicates.load_allowed_predicates, get_allowed_predicates.
  destruct (decide (theme = u8 "event")) as [->|He].
  - split; [reflexivity|]. split; [by vm_compute|by intros [? _]].
  - destruct (decide (theme = u8 "cultural")) as [->|Hc].
    + split; [reflexivity|]. split; [by vm_compute|by intros [_ ?]].
    + done.
Qed.

(** ** Preparing a text for topic detection *)

Section Preparation.

Variable NFC : str → str.

Lemma startswith_first_word p : ∀ s,
  Forall (λ c, isspace c = false) p →
  startswith p (first_word s) = startswith p s.
Proof.
  induction p as [|a p IH]; intros s Hp; [by destruct (first_word s), s|].
  apply Forall_cons in Hp as [Ha Hp].
  destruct s as [|b s]; [done|]. cbn [first_word].
  destruct (isspace b) eqn:Hb.
  - cbn [startswith]. destruct (N.eqb_spec a b) as [->|]; [congruence|done].
  - cbn [startswith]. by rewrite IH.
Qed.

Lemma head_after_first_word p : ∀ s,
  Forall (λ c, isspace c = false) p → startswith p s = true →
  head_is (λ c, negb (isspace c)) (drop (length p) (first_word s))
  = head_is (λ c, negb (isspace c)) (drop (length p) s).
Proof.
  induction p as [|a p IH]; intros s Hp Hs.
  - destruct s as [|b s]; [done|]. simpl.
    destruct (isspace b) eqn:Hb; simpl; by rewrite ?Hb.
  - apply Forall_cons in Hp as [Ha Hp]. destruct s as [|b s]; [done|].
    cbn [startswith] in Hs. apply andb_true_iff in Hs as [Hab Hs].
    apply N.eqb_eq in Hab as <-. cbn [first_word]. rewrite Ha.
    cbn [length drop]. by apply IH.
Qed.

Lemma url_starts_first_word s : url_starts (first_word s) = url_starts s.
Proof.
  assert (Forall (λ c, isspace c = false) (u8 "http://")) as H7
    by (repeat constructor).
  assert (Forall (λ c, isspace c = false) (u8 "https://")) as H8
    by (repeat constructor).
  unfold url_starts.
  rewrite (startswith_first_word _ s H7), (startswith_first_word _ s H8).
  f_equal.
  - destruct (startswith (u8 "http://") s) eqn:E; [|done]. cbn [andb].
    apply (head_after_first_word _ s H7 E).
  - destruct (startswith (u8 "https://") s) eqn:E; [|done]. cbn [andb].
    apply (head_after_first_word _ s H8 E).
Qed.

Lemma url_starts_space c r : isspace c = true → url_starts (c :: r) = false.
Proof.
  intros Hc. rewrite <- url_starts_first_word. cbn [first_word].
  by rewrite Hc.
Qed.

Lemma words_first_word s :
  words s = emit (first_word s) ++ words (after_word s).
Proof.
  unfold words. assert (∀ cur,
    words_go cur s = emit (rev cur ++ first_word s) ++ words_go [] (after_word s))
    as Hgen.
  { induction s as [|c r IH]; intros cur.
    - cbn [first_word after_word words_go]. rewrite !app_nil_r.
      destruct cur as [|d cur]; [done|]. unfold emit.
      by destruct (rev (d :: cur)) eqn:E;
        [apply (f_equal (@rev N)) in E; rewrite rev_involutive in E|].
    - cbn [first_word after_word]. destruct (isspace c) eqn:Hc.
      + rewrite app_nil_r, (words_go_space cur c r Hc).
        rewrite (words_go_space [] c r Hc). cbn [words_go app]. f_equal.
        destruct cur as [|d cur]; [done|]. unfold emit.
        by destruct (rev (d :: cur)) eqn:E;
          [apply (f_equal (@rev N)) in E; rewrite rev_involutive in E|].
      + cbn [words_go]. rewrite Hc, IH. cbn [rev].
        by rewrite <- (assoc_L (++)). }
  apply (Hgen []).
Qed.

Lemma first_word_no_space s : Forall (λ c, isspace c = false) (first_word s).
Proof.
  induction s as [|c r IH]; [constructor|]. cbn [first_word].
  destruct (isspace c) eqn:Hc; by constructor.
Qed.

Lemma cut_url_first_word s :
  cut_url (first_word s)
  = match s with
    | [] => []
    | c :: r =>
        if isspace c then []
        else if url_starts s then [] else c :: cut_url (first_word r)
    end.
Proof.
  destruct s as [|c r]; [done|].
  pose proof (url_starts_first_word (c :: r)) as Hu. cbn [first_word] in *.
  destruct (isspace c); [done|]. cbn [cut_url]. by rewrite Hu.
Qed.

Lemma kept_words_first_word s :
  kept_words s = emit (cut_url (first_word s)) ++ kept_words (after_word s).
Proof.
  unfold kept_words. rewrite (words_first_word s) at 1.
  rewrite map_app, List.filter_app. f_equal. unfold emit.
  destruct (first_word s) as [|c w]; [done|]. cbn [truthy map List.filter].
  by destruct (truthy (cut_url (c :: w))).
Qed.

Lemma kept_words_space c r : isspace c = true → kept_words (c :: r) = kept_words r.
Proof.
  intros Hc. unfold kept_words, words. by rewrite (words_go_space [] c r Hc).
Qed.

Lemma emit_words_go cur : words_go cur [] = emit (rev cur).
Proof.
  destruct cur as [|d cur]; [done|]. unfold emit. cbn [words_go].
  by destruct (rev (d :: cur)) eqn:E;
    [apply (f_equal (@rev N)) in E; rewrite rev_involutive in E|].
Qed.

(** The words left by the deletion of the URLs, for a text read from the
    middle of a word on. *)
Lemma remove_urls_words s : ∀ cur,
  words_go cur (remove_urls false s)
  = emit (rev cur ++ cut_url (first_word s)) ++ kept_words (after_word s)
  ∧ words_go cur (remove_urls true s)
    = emit (rev cur) ++ kept_words (after_word s).
Proof.
  induction s as [|c r IH]; intros cur.
  - cbn [remove_urls first_word after_word cut_url].
    rewrite !app_nil_r, emit_words_go. by split.
  - cbn [remove_urls after_word]. rewrite cut_url_first_word.
    destruct (isspace c) eqn:Hc.
    + rewrite (url_starts_space c r Hc), app_nil_r.
      rewrite (words_go_space cur c _ Hc), emit_words_go.
      destruct (IH []) as [-> _]. cbn [rev app].
      by rewrite (kept_words_space c r Hc), <- kept_words_first_word.
    + destruct (IH cur) as [_ Hdrop]. split; [|done].
      destruct (url_starts (c :: r)).
      * by rewrite app_nil_r.
      * cbn [words_go]. rewrite Hc. destruct (IH (c :: cur)) as [-> _].
        cbn [rev]. by rewrite <- (assoc_L (++)).
Qed.

Lemma remove_urls_kept_words s : words (remove_urls false s) = kept_words s.
Proof.
  unfold words. destruct (remove_urls_words s []) as [-> _].
  cbn [rev app]. by rewrite <- kept_words_first_word.
Qed.

Lemma words_keep_run run :
  Forall (λ c, isspace c = false) run →
  words (keep_run run) = List.filter (λ w, negb (email w)) (emit run).
Proof.
  intros Hrun. unfold keep_run, emit.
  destruct run as [|c run]; [done|]. cbn [truthy List.filter].
  destruct (email (c :: run)); [done|]. cbn [negb]. by apply words_word.
Qed.

Lemma keep_run_no_space run :
  Forall (λ c, isspace c = false) run →
  Forall (λ c, isspace c = false) (keep_run run).
Proof. intros Hrun. unfold keep_run. by destruct (email run). Qed.

Lemma words_go_start w s :
  Forall (λ c, isspace c = false) w → words (w ++ s) = words_go (rev w) s.
Proof.
  intros Hw. unfold words. by rewrite (words_go_word [] w s Hw), app_nil_r.
Qed.

(** The words left by the deletion of the e-mail addresses. *)
Lemma remove_emails_words s : ∀ cur,
  Forall (λ c, isspace c = false) cur →
  words (remove_emails cur s)
  = List.filter (λ w, negb (email w)) (words_go cur s).
Proof.
  induction s as [|c r IH]; intros cur Hcur.
  - cbn [remove_emails]. rewrite emit_words_go. apply words_keep_run.
    by apply Forall_rev.
  - cbn [remove_emails]. destruct (isspace c) eqn:Hc.
    + rewrite (words_app_space _ c _ Hc), (words_go_space cur c r Hc).
      rewrite List.filter_app, emit_words_go, IH by constructor.
      f_equal. apply words_keep_run. by apply Forall_rev.
    + cbn [words_go]. rewrite Hc. apply IH. by constructor.
Qed.

(** X26. [prepare_for_topic_detection] works word by word on the cleaned
    text: every word is cut where its first URL starts, a word of which
    nothing is left is dropped, and so is a word that then has an [@]
    which is neither its first nor its last character; the other words
    are kept in order, and the result is stripped. *)
Theorem prepare_for_topic_detection_words text :
  tidy (prepare_for_topic_detection NFC text)
  ∧ words (prepare_for_topic_detection NFC text)
    = List.filter (λ w, negb (email w))
        (List.filter truthy (map cut_url (words (clean_text NFC text)))).
Proof.
  unfold prepare_for_topic_detection. split; [apply strip_tidy|].
  rewrite words_strip, remove_emails_words by constructor.
  fold (words (remove_urls false (clean_text NFC text))).
  by rewrite remove_urls_kept_words.
Qed.

End Preparation.
